(** * StardeWiki: the wiki database builder ([build_wiki_db.py])

    A shallow embedding of the chunker, the page-identity loader, the
    float32 blob encoder and the per-page rebuild loop of
    [src/StardeWiki/build_wiki_db.py], with the properties stated for
    them, and of the text and file-name helpers of the scraper
    [src/StardeWiki/web_scrapper.py] that decide what the builder reads.

    Python values are modelled as follows.
    - A [str] is the list of its code points ([N]); [len] is [length].
    - [re.sub] with the two patterns of [normalize_ws] is a left-to-right
      scan (leftmost, greedy matches are the maximal runs).
    - A raised exception is an explicit [Raise e] result.
    - The SQLite connection is a record of tables together with the
      snapshot taken when the open transaction began. *)

From stdpp Require Import gmap list strings.
From Stdlib Require Import ZArith NArith Lia.
From Stdlib Require Floats.SpecFloat.

Local Open Scope nat_scope.

(* ===================================================================== *)
(** * Python strings *)
(* ===================================================================== *)

(** A Python [str]: a sequence of Unicode code points. *)
Definition str := list N.

(** A literal of the source, given as a Rocq string of ASCII characters. *)
Fixpoint lit (s : string) : str :=
  match s with
  | EmptyString => []
  | String a r => Ascii.N_of_ascii a :: lit r
  end.

(** [str.isspace] on one character: the set removed by [str.strip()]. *)
Definition isspace (c : N) : bool :=
  ((9 <=? c) && (c <=? 13) || (28 <=? c) && (c <=? 32)
   || (c =? 133) || (c =? 160) || (c =? 5760)
   || (8192 <=? c) && (c <=? 8202)
   || (c =? 8232) || (c =? 8233) || (c =? 8239) || (c =? 8287)
   || (c =? 12288))%N.

(** The character class [[ \t]]. *)
Definition is_hspace (c : N) : bool := ((c =? 32) || (c =? 9))%N.

(** ["\n"]. *)
Definition is_nl (c : N) : bool := (c =? 10)%N.

(** [re.sub(r"[ \t]+", " ", s)]: [in_run] tells that the character just
    read belongs to a run that already produced its single space. *)
Fixpoint sub_hspace_from (in_run : bool) (s : str) : str :=
  match s with
  | [] => []
  | c :: r =>
      if is_hspace c
      then (if in_run then sub_hspace_from true r
            else 32%N :: sub_hspace_from true r)
      else c :: sub_hspace_from false r
  end.

Definition sub_hspace (s : str) : str := sub_hspace_from false s.

(** [re.sub(r"\n{3,}", "\n\n", s)]: [run] counts the newlines of the
    current run already read; the first two are kept, the rest dropped. *)
Fixpoint sub_newlines_from (run : nat) (s : str) : str :=
  match s with
  | [] => []
  | c :: r =>
      if is_nl c
      then (if run <? 2 then c :: sub_newlines_from (S run) r
            else sub_newlines_from (S run) r)
      else c :: sub_newlines_from 0 r
  end.

Definition sub_newlines (s : str) : str := sub_newlines_from 0 s.

Fixpoint drop_while (f : N → bool) (s : str) : str :=
  match s with
  | [] => []
  | c :: r => if f c then drop_while f r else s
  end.

Definition lstrip (s : str) : str := drop_while isspace s.
Definition rstrip (s : str) : str := rev (drop_while isspace (rev s)).

(** [s.strip()]. *)
Definition strip (s : str) : str := rstrip (lstrip s).

(** [normalize_ws]. *)
Definition normalize_ws (s : str) : str :=
  strip (sub_newlines (sub_hspace s)).

(** [sep.join(l)]. *)
Fixpoint join (sep : str) (l : list str) : str :=
  match l with
  | [] => []
  | [x] => x
  | x :: r => x ++ sep ++ join sep r
  end.

(** Truth value of a [str]: only the empty string is falsy. *)
Definition nonempty (s : str) : bool :=
  match s with [] => false | _ :: _ => true end.

(** [x or d] for [x : Optional[str]]: [None] and [""] are falsy. *)
Definition or_str (x : option str) (d : str) : str :=
  match x with
  | Some (c :: r) => c :: r
  | _ => d
  end.

(* ===================================================================== *)
(** * The chunker *)
(* ===================================================================== *)

Definition MAX_CHARS_PER_CHUNK : nat := 1200.
Definition MIN_CHARS_PER_CHUNK : nat := 300.
Definition JOINER : str := [10%N; 10%N].

Record Block := mkBlock {
  section : str;
  block_type : str;
  text : str
}.

(** A chunk is the tuple [(chunk_index, section, block_type, chunk_text)]. *)
Definition chunk : Type := nat * str * str * str.

Definition chunk_index (c : chunk) : nat := c.1.1.1.
Definition chunk_section (c : chunk) : str := c.1.1.2.
Definition chunk_kind (c : chunk) : str := c.1.2.
Definition chunk_text (c : chunk) : str := c.2.

(** The variables the closure [flush] shares with the loop. *)
Record chunker := mkChunker {
  chunks : list chunk;
  buf_texts : list str;
  buf_section : option str;
  buf_type : option str
}.

Definition flush (st : chunker) : chunker :=
  match buf_texts st with
  | [] => st
  | _ :: _ =>
      let text := normalize_ws (join JOINER (buf_texts st)) in
      let chunks' :=
        if nonempty text
        then chunks st ++ [(length (chunks st),
                            or_str (buf_section st) (lit "Intro"),
                            or_str (buf_type st) (lit "mixed"),
                            text)]
        else chunks st in
      mkChunker chunks' [] None None
  end.

(** The [while start < len(text)] loop that slices an oversized block.
    Every iteration advances [start] by [MAX_CHARS_PER_CHUNK], so
    [length text] iterations are enough ([split_block_fuel]). *)
Fixpoint split_block (fuel : nat) (blk : Block) (start : nat)
    (chunks : list chunk) : list chunk :=
  match fuel with
  | 0 => chunks
  | S fuel' =>
      if start <? length (text blk) then
        let piece :=
          normalize_ws (take MAX_CHARS_PER_CHUNK (drop start (text blk))) in
        let chunks' :=
          if nonempty piece
          then chunks ++ [(length chunks, section blk, block_type blk, piece)]
          else chunks in
        split_block fuel' blk (start + MAX_CHARS_PER_CHUNK) chunks'
      else chunks
  end.

(** One iteration of [for blk in blocks]. *)
Definition chunk_step (st : chunker) (blk : Block) : chunker :=
  let st :=
    match buf_texts st with
    | [] => mkChunker (chunks st) (buf_texts st)
              (Some (section blk)) (Some (block_type blk))
    | _ :: _ => st
    end in
  let candidate := normalize_ws (join JOINER (buf_texts st ++ [text blk])) in
  if length candidate <=? MAX_CHARS_PER_CHUNK then
    mkChunker (chunks st) (buf_texts st ++ [text blk])
      (buf_section st) (buf_type st)
  else
    let st := flush st in
    if MAX_CHARS_PER_CHUNK <? length (text blk) then
      mkChunker (split_block (length (text blk)) blk 0 (chunks st))
        (buf_texts st) (buf_section st) (buf_type st)
    else
      mkChunker (chunks st) [text blk]
        (Some (section blk)) (Some (block_type blk)).

(** The list [chunks] after the loop and the final [flush]. *)
Definition pack_blocks (blocks : list Block) : list chunk :=
  chunks (flush (fold_left chunk_step blocks (mkChunker [] [] None None))).

(** One iteration of the post-pass over [chunks]. *)
Definition merge_step (merged : list chunk) (c : chunk) : list chunk :=
  let '(ci, sec, bt, txt) := c in
  match last merged with
  | Some (p_ci, p_sec, p_bt, p_txt) =>
      if length txt <? MIN_CHARS_PER_CHUNK
      then <[pred (length merged) :=
               (p_ci, p_sec, p_bt, normalize_ws (p_txt ++ JOINER ++ txt))]>
             merged
      else merged ++ [(ci, sec, bt, txt)]
  | None => merged ++ [(ci, sec, bt, txt)]
  end.

Definition merge_small (chunks : list chunk) : list chunk :=
  fold_left merge_step chunks [].

(** [[(i, sec, bt, txt) for i, (_, sec, bt, txt) in enumerate(merged)]]. *)
Definition reindex (merged : list chunk) : list chunk :=
  imap (λ i c, (i, chunk_section c, chunk_kind c, chunk_text c)) merged.

Definition chunk_blocks (blocks : list Block) : list chunk :=
  reindex (merge_small (pack_blocks blocks)).

(* ===================================================================== *)
(** * Predicates on texts and chunks *)
(* ===================================================================== *)

(** Normal form for the first substitution: no tab, no two adjacent
    spaces ([prev] tells whether a space precedes the string). *)
Fixpoint hs_norm (prev : bool) (s : str) : Prop :=
  match s with
  | [] => True
  | c :: r => c ≠ 9%N ∧ (c = 32%N → prev = false) ∧ hs_norm (c =? 32)%N r
  end.

(** Normal form for the second substitution: no run of three newlines
    ([run] newlines precede the string). *)
Fixpoint nl_norm (run : nat) (s : str) : Prop :=
  match s with
  | [] => True
  | c :: r => if is_nl c then run < 2 ∧ nl_norm (S run) r else nl_norm 0 r
  end.

(** The characters of a text that are not whitespace, in order. *)
Definition nonws (s : str) : str := List.filter (λ c, negb (isspace c)) s.

(** The non-whitespace content of a list of texts, in order. *)
Definition content (l : list str) : str := concat (map nonws l).

(** The size bound on a chunk. *)
Definition within_max (c : chunk) : Prop :=
  length (chunk_text c) ≤ MAX_CHARS_PER_CHUNK.

(** A chunk text that is the result of [normalize_ws]. *)
Definition normalised (c : chunk) : Prop :=
  ∃ q, chunk_text c = normalize_ws q.

(** The non-whitespace content held by the chunker: the finished chunks,
    then the buffer. *)
Definition content_of (st : chunker) : str :=
  content (map chunk_text (chunks st)) ++ content (buf_texts st).

(** Size invariant of the loop: the finished chunks, and the text the
    buffer would flush to, stay within the maximum. *)
Definition size_inv (st : chunker) : Prop :=
  Forall within_max (chunks st)
  ∧ length (normalize_ws (join JOINER (buf_texts st))) ≤ MAX_CHARS_PER_CHUNK.

(** At least the minimum size. *)
Definition at_least_min (c : chunk) : Prop :=
  MIN_CHARS_PER_CHUNK ≤ length (chunk_text c).

(** Invariant of the post-pass: texts are normalised and only the first
    chunk may be short. *)
Definition merge_inv (merged : list chunk) : Prop :=
  Forall normalised merged ∧ Forall at_least_min (tail merged).

(** The kind recorded for [c] is the kind of block [b], the tag
    ["mixed"] standing in for an empty kind at most. *)
Definition kind_from (b : Block) (c : chunk) : Prop :=
  chunk_kind c = block_type b
  ∨ (block_type b = [] ∧ chunk_kind c = lit "mixed").

Definition kind_of_a_block (blocks : list Block) (c : chunk) : Prop :=
  ∃ b, b ∈ blocks ∧ kind_from b c.

(** Invariant of the loop for the recorded kinds. *)
Definition kind_inv (blocks : list Block) (st : chunker) : Prop :=
  Forall (kind_of_a_block blocks) (chunks st)
  ∧ (buf_texts st ≠ [] → ∃ b, b ∈ blocks ∧ buf_type st = Some (block_type b)).

(** No whitespace character at all. *)
Definition no_ws (s : str) : bool := forallb (λ c, negb (isspace c)) s.

(** The candidate text of a buffer holding [texts] fits in one chunk. *)
Definition fits (texts : list str) : bool :=
  length (normalize_ws (join JOINER texts)) <=? MAX_CHARS_PER_CHUNK.

(** Every non-empty prefix of [texts] fits: the loop never flushes. *)
Definition all_prefixes_fit (texts : list str) : bool :=
  forallb (λ k, fits (take k texts)) (seq 1 (length texts)).

(* ===================================================================== *)
(** * Example blocks *)
(* ===================================================================== *)

Definition block_of (kind : string) (n : nat) (c : N) : Block :=
  mkBlock (lit "Intro") (lit kind) (replicate n c).

Definition full_then_short : list Block :=
  [block_of "p" 1200 97%N; block_of "p" 100 98%N].

Definition one_block_5000 : list Block := [block_of "p" 5000 97%N].

Definition two_kinds : list Block :=
  [block_of "p" 3 97%N; block_of "list" 3 98%N].

(* ===================================================================== *)
(** * Exceptions and results *)
(* ===================================================================== *)

(** The Python exceptions the builder can meet. [LoadError] stands for
    whatever [load_page_json] raises (a missing file, malformed JSON);
    [ProviderError] for whatever the request to the embedding provider or
    the decoding of its response raises. *)
Inductive exn :=
| ValueError | TypeError | AttributeError | OverflowError
| UnicodeEncodeError | LoadError | ProviderError
| OperationalError | IntegrityError.

Inductive result (A : Type) :=
| Ok (a : A)
| Raise (e : exn).
Arguments Ok {A} a.
Arguments Raise {A} e.

#[global] Instance exn_eq_dec : EqDecision exn.
Proof. solve_decision. Defined.

(* ===================================================================== *)
(** * JSON documents *)
(* ===================================================================== *)

(** The values [json.load] returns. A [dict] is the list of its items;
    [dict_get] reads the first item with the key. *)
#[warnings="-register-all"]
Inductive json :=
| JNull
| JBool (b : bool)
| JInt (z : Z)
| JFloat (f : SpecFloat.spec_float)
| JStr (s : str)
| JList (l : list json)
| JDict (d : list (str * json)).

Fixpoint dict_get (d : list (str * json)) (k : str) : json :=
  match d with
  | [] => JNull
  | (k', v) :: r => if decide (k' = k) then v else dict_get r k
  end.

(** [x.get(k)]: only a [dict] has the method. *)
Definition py_get (x : json) (k : string) : result json :=
  match x with
  | JDict d => Ok (dict_get d (lit k))
  | _ => Raise AttributeError
  end.

(** Truth value of a JSON value. *)
Definition truthy (x : json) : bool :=
  match x with
  | JNull => false
  | JBool b => b
  | JInt z => negb (z =? 0)%Z
  | JFloat (SpecFloat.S754_zero _) => false
  | JFloat _ => true
  | JStr s => nonempty s
  | JList l => match l with [] => false | _ => true end
  | JDict d => match d with [] => false | _ => true end
  end.

(** [x or d]. *)
Definition py_or (x d : json) : json := if truthy x then x else d.

(** [for v in x]: the items of a list, the characters of a string, the
    keys of a dict; other values are not iterable. *)
Definition py_iter (x : json) : result (list json) :=
  match x with
  | JList l => Ok l
  | JStr s => Ok (map (λ c, JStr [c]) s)
  | JDict d => Ok (map (λ kv, JStr kv.1) d)
  | _ => Raise TypeError
  end.

(** [x.strip()]: only a [str] has the method. *)
Definition py_strip (x : json) : result str :=
  match x with
  | JStr s => Ok (strip s)
  | _ => Raise AttributeError
  end.

(** [re.sub(..., x)] accepts only a [str]. *)
Definition py_text (x : json) : result str :=
  match x with
  | JStr s => Ok s
  | _ => Raise TypeError
  end.

(** Truncation of a binary float towards zero. *)
Definition float_trunc (s : bool) (m : positive) (e : Z) : Z :=
  let a := (if 0 <=? e then Z.pos m * 2 ^ e else Z.pos m / 2 ^ (- e))%Z in
  if s then (- a)%Z else a.

Inductive dtype := Float32 | Float64.
Inductive byteorder := LittleEndian | BigEndian.

(** A one-dimensional [ndarray]: its dtype and the bit patterns of its
    items (32 or 64 bits wide). *)
Record ndarray := mkArray {
  arr_dtype : dtype;
  arr_items : list Z
}.

(** Behaviour of the Python and NumPy built-ins the builder calls and
    that is not spelled out here. *)
Class Platform := {
  (** [int(s)] for a [str]; [None] when it raises [ValueError]. *)
  int_of_str : str → option Z;
  (** [str(x)] for a value that is not a [str]. *)
  str_of_value : json → str;
  (** [sys.byteorder]: the order of [ndarray.tobytes()]. *)
  native_order : byteorder;
  (** [astype(np.float32)] on one float64 item, as bit patterns. *)
  f64_to_f32 : Z → Z;
  (** [float(np.linalg.norm(vec))]. *)
  norm_of : ndarray → SpecFloat.spec_float
}.

(** The value of [np.asarray(data, dtype=np.float32)] for the [data] of a
    provider response: a vector or a matrix of float32 bit patterns. *)
Inductive f32_array :=
| Arr1 (v : list Z)
| Arr2 (ncols : nat) (rows : list (list Z)).

(** The embedding provider: what the [n]-th request of a run, sent for a
    model with a batch of texts, leads to. *)
Definition provider := str → nat → list str → result f32_array.

(* ===================================================================== *)
(** * The store *)
(* ===================================================================== *)

Record chunk_row := mkChunkRow {
  chunk_id : Z;
  c_page_id : Z;
  c_chunk_index : nat;
  c_section : str;
  c_block_type : str;
  c_text : str
}.

Record model_row := mkModelRow {
  model_id : Z;
  m_name : str;
  m_dim : nat;
  m_distance_metric : str
}.

(** The four tables. [page_tbl] maps [page_id] to [(title, revid)];
    [chunk_tbl] lists the chunk rows in rowid order; [embedding_tbl] maps
    [(chunk_id, model_id)] to [(vec, norm)]. [chunk_seq] and [model_seq]
    are the AUTOINCREMENT counters kept in [sqlite_sequence]: rowids are
    only ever assigned from them. *)
Record store := mkStore {
  page_tbl : gmap Z (str * Z);
  chunk_tbl : list chunk_row;
  chunk_seq : Z;
  model_tbl : list model_row;
  model_seq : Z;
  embedding_tbl : gmap (Z * Z) (list Z * SpecFloat.spec_float)
}.

Definition empty_store : store := mkStore ∅ [] 0 [] 0 ∅.

(** The state a run works on: the tables as the connection sees them,
    the snapshot taken when the open transaction began ([None]: no
    transaction is open), and the number of provider requests made. *)
Record world := mkWorld {
  db : store;
  tx : option store;
  requests : nat
}.

(** What is on disk: an open transaction is not. *)
Definition committed (w : world) : store :=
  match tx w with
  | Some snapshot => snapshot
  | None => db w
  end.

(** [connect_db] followed by [init_db]: the tables exist, their rows are
    left alone. *)
Definition connect_db (s : store) : world := mkWorld s None 0.

(** Computations that read and write the [world] and may raise. The
    state reached when an exception is raised is kept: the handler of
    [build_database] works on it. *)
Definition M (A : Type) : Type := world → world * result A.

Definition ret {A} (a : A) : M A := λ w, (w, Ok a).
Definition raise {A} (e : exn) : M A := λ w, (w, Raise e).
Definition lift {A} (r : result A) : M A := λ w, (w, r).
Definition bind {A B} (m : M A) (k : A → M B) : M B :=
  λ w, match m w with
       | (w', Ok a) => k a w'
       | (w', Raise e) => (w', Raise e)
       end.

Definition rbind {A B} (r : result A) (k : A → result B) : result B :=
  match r with
  | Ok a => k a
  | Raise e => Raise e
  end.

Notation "'let!' x ':=' m 'in' k" := (bind m (λ x, k))
  (at level 10, x pattern, m at level 100, k at level 200).
Notation "'let?' x ':=' r 'in' k" := (rbind r (λ x, k))
  (at level 10, x pattern, r at level 100, k at level 200).

Definition get_world : M world := λ w, (w, Ok w).
Definition set_db (s : store) : M unit := λ w, (mkWorld s (tx w) (requests w), Ok tt).

(** Binding a Python [int] to a statement: SQLite integers have 64 bits. *)
Definition bind_int (z : Z) : result unit :=
  if ((- 2 ^ 63 <=? z) && (z <? 2 ^ 63))%Z then Ok tt else Raise OverflowError.

(** Binding a Python [str]: it has to encode to UTF-8, which a lone
    surrogate does not. *)
Definition bind_text (s : str) : result unit :=
  if forallb (λ c, negb ((55296 <=? c) && (c <=? 57343))%N) s
  then Ok tt else Raise UnicodeEncodeError.

(** The [sqlite3] module opens a transaction before a data-modifying
    statement when none is open. *)
Definition implicit_begin : M unit :=
  λ w, (mkWorld (db w) (Some (committed w)) (requests w), Ok tt).

(** [conn.execute("BEGIN IMMEDIATE;")]. *)
Definition begin_immediate : M unit :=
  λ w, match tx w with
       | Some _ => (w, Raise OperationalError)
       | None => (mkWorld (db w) (Some (db w)) (requests w), Ok tt)
       end.

(** [conn.commit()]. *)
Definition commit : M unit := λ w, (mkWorld (db w) None (requests w), Ok tt).

(** [conn.execute("ROLLBACK;")]: SQLite refuses it when no transaction is
    active. *)
Definition rollback : M unit :=
  λ w, match tx w with
       | Some snapshot => (mkWorld snapshot None (requests w), Ok tt)
       | None => (w, Raise OperationalError)
       end.

Definition get_existing_page (page_id : Z) : M (option (Z * str * Z)) :=
  let! _ := lift (bind_int page_id) in
  let! w := get_world in
  ret (match page_tbl (db w) !! page_id with
       | Some (title, revid) => Some (page_id, title, revid)
       | None => None
       end).

Definition upsert_page (page_id : Z) (title : str) (revid : Z) : M unit :=
  let! _ := implicit_begin in
  let! _ := lift (bind_int page_id) in
  let! _ := lift (bind_text title) in
  let! _ := lift (bind_int revid) in
  let! w := get_world in
  let s := db w in
  set_db (mkStore (<[page_id := (title, revid)]> (page_tbl s)) (chunk_tbl s)
            (chunk_seq s) (model_tbl s) (model_seq s) (embedding_tbl s)).

Definition chunk_of_page (page_id : Z) (r : chunk_row) : bool :=
  (c_page_id r =? page_id)%Z.

Definition has_chunk (s : store) (id : Z) : bool :=
  existsb (λ r, (chunk_id r =? id)%Z) (chunk_tbl s).

Definition has_model (s : store) (id : Z) : bool :=
  existsb (λ r, (model_id r =? id)%Z) (model_tbl s).

(** [DELETE FROM chunk WHERE page_id = ?], with the cascade to the
    embeddings of the deleted chunks. *)
Definition delete_page_children (page_id : Z) : M unit :=
  let! _ := implicit_begin in
  let! _ := lift (bind_int page_id) in
  let! w := get_world in
  let s := db w in
  let kept := List.filter (λ r, negb (chunk_of_page page_id r)) (chunk_tbl s) in
  let deleted := map chunk_id (List.filter (chunk_of_page page_id) (chunk_tbl s)) in
  set_db (mkStore (page_tbl s) kept (chunk_seq s) (model_tbl s) (model_seq s)
            (filter (λ kv, kv.1.1 ∉ deleted) (embedding_tbl s))).

(** One [INSERT INTO chunk]; the result is [cur.lastrowid]. *)
Definition insert_chunk (page_id : Z) (c : chunk) : M Z :=
  let '(chunk_index, section, block_type, text) := c in
  let! _ := implicit_begin in
  let! _ := lift (bind_int page_id) in
  let! _ := lift (bind_text section) in
  let! _ := lift (bind_text block_type) in
  let! _ := lift (bind_text text) in
  let! w := get_world in
  let s := db w in
  if existsb (λ r, chunk_of_page page_id r && (c_chunk_index r =? chunk_index))
       (chunk_tbl s)
  then raise IntegrityError
  else match page_tbl s !! page_id with
       | None => raise IntegrityError
       | Some _ =>
           let id := (chunk_seq s + 1)%Z in
           let! _ := set_db (mkStore (page_tbl s)
                       (chunk_tbl s ++
                        [mkChunkRow id page_id chunk_index section block_type text])
                       id (model_tbl s) (model_seq s) (embedding_tbl s)) in
           ret id
       end.

Fixpoint insert_chunks_from (page_id : Z) (chunks : list chunk)
    (chunk_ids : list Z) : M (list Z) :=
  match chunks with
  | [] => ret chunk_ids
  | c :: rest =>
      let! id := insert_chunk page_id c in
      insert_chunks_from page_id rest (chunk_ids ++ [id])
  end.

Definition insert_chunks (page_id : Z) (chunks : list chunk) : M (list Z) :=
  insert_chunks_from page_id chunks [].

(** [INSERT INTO embedding_model ... ON CONFLICT(name) DO UPDATE] and
    the [SELECT] of the identifier. The [INSERT] takes the next value of
    the AUTOINCREMENT counter even when the conflict turns it into an
    update of the existing row. *)
Definition ensure_model_row (model_name : str) (dim : nat)
    (distance_metric : str) : M Z :=
  let! _ := implicit_begin in
  let! _ := lift (bind_text model_name) in
  let! _ := lift (bind_text distance_metric) in
  let! w := get_world in
  let s := db w in
  match List.find (λ r, bool_decide (m_name r = model_name)) (model_tbl s) with
  | Some row =>
      let! _ := set_db (mkStore (page_tbl s) (chunk_tbl s) (chunk_seq s)
                  (map (λ r, if bool_decide (m_name r = model_name)
                             then mkModelRow (model_id r) model_name dim
                                    distance_metric
                             else r) (model_tbl s))
                  (model_seq s + 1)%Z (embedding_tbl s)) in
      ret (model_id row)
  | None =>
      let id := (model_seq s + 1)%Z in
      let! _ := set_db (mkStore (page_tbl s) (chunk_tbl s) (chunk_seq s)
                  (model_tbl s ++ [mkModelRow id model_name dim distance_metric])
                  id (embedding_tbl s)) in
      ret id
  end.

(* ===================================================================== *)
(** * Embeddings *)
(* ===================================================================== *)

(** [range(0, n, step)]. *)
Definition range_step (n step : nat) : list nat :=
  map (λ k, k * step) (seq 0 ((n + step - 1) / step)).

(** One request to the provider. *)
Definition request (P : provider) (model_name : str) (batch : list str)
    : M f32_array :=
  λ w, (mkWorld (db w) (tx w) (S (requests w)), P model_name (requests w) batch).

(** [vectors.reshape(1, -1)] when [vectors.ndim == 1]: the matrix as its
    width and rows. *)
Definition as_matrix (a : f32_array) : nat * list (list Z) :=
  match a with
  | Arr1 v => (length v, [v])
  | Arr2 ncols rows => (ncols, rows)
  end.

(** [np.vstack]: at least one array, all of one width. *)
Definition vstack (all_vecs : list (nat * list (list Z)))
    : result (nat * list (list Z)) :=
  match all_vecs with
  | [] => Raise ValueError
  | (ncols, _) :: _ =>
      if forallb (λ a, a.1 =? ncols) all_vecs
      then Ok (ncols, concat (map snd all_vecs))
      else Raise ValueError
  end.

Fixpoint embed_batches (P : provider) (texts : list str) (model_name : str)
    (batch_size : nat) (starts : list nat)
    (all_vecs : list (nat * list (list Z)))
    : M (list (nat * list (list Z))) :=
  match starts with
  | [] => ret all_vecs
  | i :: rest =>
      let batch := take batch_size (drop i texts) in
      let! vectors := request P model_name batch in
      embed_batches P texts model_name batch_size rest
        (all_vecs ++ [as_matrix vectors])
  end.

(** [embed_texts] with its default [batch_size]. *)
Definition embed_texts (P : provider) (texts : list str) (model_name : str)
    : M (nat * list (list Z)) :=
  let batch_size := 32 in
  let! all_vecs :=
    embed_batches P texts model_name batch_size
      (range_step (length texts) batch_size) [] in
  lift (vstack all_vecs).

(** The four bytes of a 32-bit pattern. *)
Definition bytes_of_u32 (o : byteorder) (x : Z) : list Z :=
  let b0 := Z.land x 255 in
  let b1 := Z.land (Z.shiftr x 8) 255 in
  let b2 := Z.land (Z.shiftr x 16) 255 in
  let b3 := Z.land (Z.shiftr x 24) 255 in
  match o with
  | LittleEndian => [b0; b1; b2; b3]
  | BigEndian => [b3; b2; b1; b0]
  end.

Section Builtins.
Context `{Platform}.

(** [int(x)]. *)
Definition py_int (x : json) : result Z :=
  match x with
  | JInt z => Ok z
  | JBool b => Ok (if b then 1 else 0)%Z
  | JFloat (SpecFloat.S754_finite s m e) => Ok (float_trunc s m e)
  | JFloat (SpecFloat.S754_zero _) => Ok 0%Z
  | JFloat (SpecFloat.S754_infinity _) => Raise OverflowError
  | JFloat SpecFloat.S754_nan => Raise ValueError
  | JStr s => match int_of_str s with
              | Some z => Ok z
              | None => Raise ValueError
              end
  | JNull | JList _ | JDict _ => Raise TypeError
  end.

(** [safe_int(x)] with its default [default=None]. *)
Definition safe_int (x : json) : option Z :=
  match py_int x with
  | Ok z => Some z
  | Raise _ => None
  end.

(** [str(x)]. *)
Definition py_str (x : json) : str :=
  match x with
  | JStr s => s
  | _ => str_of_value x
  end.

Definition extract_page_identity (page : json) : result (Z * str * Z) :=
  let? page_id := py_get page "pageid" in
  let? revid := py_get page "revid" in
  let? title := py_get page "title" in
  let title := py_or title (JStr (lit "Unknown")) in
  match safe_int page_id, safe_int revid with
  | Some page_id, Some revid => Ok (page_id, py_str title, revid)
  | _, _ => Raise ValueError
  end.

Definition vec_to_blob_f32 (vec : ndarray) : list Z :=
  let items :=
    match arr_dtype vec with
    | Float32 => arr_items vec
    | Float64 => map f64_to_f32 (arr_items vec)
    end in
  concat (map (bytes_of_u32 native_order) items).

Definition blob_f32_dim (blob : list Z) : nat := length blob / 4.

Definition l2_norm_f32 (vec : ndarray) : SpecFloat.spec_float := norm_of vec.

(** The parameter rows [insert_embeddings] builds with [zip]. *)
Definition embedding_rows (model_id : Z) (chunk_ids : list Z)
    (vectors : list (list Z)) : list (Z * Z * list Z * SpecFloat.spec_float) :=
  zip_with (λ chunk_id vec,
              let vec := mkArray Float32 vec in
              (chunk_id, model_id, vec_to_blob_f32 vec, l2_norm_f32 vec))
    chunk_ids vectors.

(** One [INSERT INTO embedding ... ON CONFLICT DO UPDATE]. A NaN is
    bound as NULL, which the column [norm] refuses. *)
Definition upsert_embedding (row : Z * Z * list Z * SpecFloat.spec_float)
    : M unit :=
  let '(chunk_id, model_id, vec, norm) := row in
  let! _ := lift (bind_int chunk_id) in
  let! _ := lift (bind_int model_id) in
  let! w := get_world in
  let s := db w in
  match norm with
  | SpecFloat.S754_nan => raise IntegrityError
  | _ =>
      if has_chunk s chunk_id && has_model s model_id
      then set_db (mkStore (page_tbl s) (chunk_tbl s) (chunk_seq s)
                     (model_tbl s) (model_seq s)
                     (<[(chunk_id, model_id) := (vec, norm)]> (embedding_tbl s)))
      else raise IntegrityError
  end.

Fixpoint executemany {A} (stmt : A → M unit) (rows : list A) : M unit :=
  match rows with
  | [] => ret tt
  | r :: rest => let! _ := stmt r in executemany stmt rest
  end.

Definition insert_embeddings (model_id : Z) (chunk_ids : list Z)
    (vectors : list (list Z)) : M unit :=
  let rows := embedding_rows model_id chunk_ids vectors in
  let! _ := implicit_begin in
  executemany upsert_embedding rows.

End Builtins.

(* ===================================================================== *)
(** * Flattening a page *)
(* ===================================================================== *)

Fixpoint flatten_blocks (heading : str) (bs : list json) (blocks : list Block)
    : result (list Block) :=
  match bs with
  | [] => Ok blocks
  | b :: rest =>
      let? type := py_get b "type" in
      let? btype := py_strip (py_or type (JStr (lit "p"))) in
      let? raw := py_get b "text" in
      let? raw := py_text (py_or raw (JStr [])) in
      let text := normalize_ws raw in
      flatten_blocks heading rest
        (if nonempty text then blocks ++ [mkBlock heading btype text] else blocks)
  end.

Fixpoint flatten_sections (sections : list json) (blocks : list Block)
    : result (list Block) :=
  match sections with
  | [] => Ok blocks
  | sec :: rest =>
      let? h := py_get sec "heading" in
      let? heading := py_strip (py_or h (JStr (lit "Intro"))) in
      let? bs := py_get sec "blocks" in
      let? bs := py_iter (py_or bs (JList [])) in
      let? blocks := flatten_blocks heading bs blocks in
      flatten_sections rest blocks
  end.

Definition flatten_sections_to_blocks (page : json) : result (list Block) :=
  let? sections := py_get page "sections" in
  let? sections := py_iter (py_or sections (JList [])) in
  flatten_sections sections [].

(* ===================================================================== *)
(** * The build *)
(* ===================================================================== *)

(** A directory entry: its name and what [load_page_json] returns for
    it. *)
Record file := mkFile {
  fname : str;
  fdata : result json
}.

Definition endswith (s suffix : str) : bool :=
  (length suffix <=? length s)
  && bool_decide (drop (length s - length suffix) s = suffix).

Definition SKIP_FILENAMES : list str := [lit "manifest.json"].
Definition SKIP_SUFFIXES : list str := [lit ".error.json"].

Definition iter_page_json_files (folder : list file) : list file :=
  List.filter (λ f,
      endswith (fname f) (lit ".json")
      && negb (bool_decide (fname f ∈ SKIP_FILENAMES))
      && negb (existsb (endswith (fname f)) SKIP_SUFFIXES))
    folder.

Definition load_page_json (f : file) : result json := fdata f.

(** How the body of the [try] ends when it does not raise: by
    [continue] on an unchanged page, or after the commit. *)
Inductive page_result := Unchanged | Rebuilt.

Section Build.
Context `{Platform}.
Variable do_embed : bool.
Variable model_name : str.
Variable P : provider.

(** The body of the [try] statement. *)
Definition process_page (f : file) : M page_result :=
  let! page := lift (load_page_json f) in
  let! (page_id, title, revid) := lift (extract_page_identity page) in
  let! existing := get_existing_page page_id in
  if match existing with
     | Some (_, _, stored) => (stored =? revid)%Z
     | None => false
     end
  then ret Unchanged
  else
    let! _ := begin_immediate in
    let! _ := upsert_page page_id title revid in
    let! _ := delete_page_children page_id in
    let! blocks := lift (flatten_sections_to_blocks page) in
    let chunks := chunk_blocks blocks in
    let! chunk_ids := insert_chunks page_id chunks in
    let! _ :=
      if do_embed then
        let texts := map chunk_text chunks in
        let! (dim, vectors) := embed_texts P texts model_name in
        let! model_id := ensure_model_row model_name dim (lit "cosine") in
        insert_embeddings model_id chunk_ids vectors
      else ret tt in
    let! _ := commit in
    ret Rebuilt.

(** The two counters of [build_database] and the lines its handler
    printed. *)
Record counters := mkCounters {
  updated_pages : nat;
  skipped_pages : nat;
  errors : list (str * exn)
}.

(** One iteration of [for path in files]: the body, and the handler
    when the body raises. The handler's [ROLLBACK] can raise in turn;
    that exception leaves the loop. *)
Definition page_iteration (w : world) (c : counters) (f : file)
    : world * counters * option exn :=
  match process_page f w with
  | (w', Ok Unchanged) =>
      (w', mkCounters (updated_pages c) (S (skipped_pages c)) (errors c), None)
  | (w', Ok Rebuilt) =>
      (w', mkCounters (S (updated_pages c)) (skipped_pages c) (errors c), None)
  | (w', Raise e) =>
      match rollback w' with
      | (w'', Ok _) =>
          (w'', mkCounters (updated_pages c) (skipped_pages c)
                  (errors c ++ [(fname f, e)]), None)
      | (w'', Raise e') => (w'', c, Some e')
      end
  end.

Fixpoint run_pages (files : list file) (w : world) (c : counters)
    : world * counters * option exn :=
  match files with
  | [] => (w, c, None)
  | f :: rest =>
      match page_iteration w c f with
      | (w', c', None) => run_pages rest w' c'
      | (w', c', Some e) => (w', c', Some e)
      end
  end.

(** How a run ends: with nothing to do, with its summary line, or with
    an exception that left [build_database]. *)
Inductive outcome :=
| NoFiles
| Done (c : counters)
| Crashed (e : exn) (c : counters).

(** [build_database], from the store found on disk to the store left
    on disk. *)
Definition build_database (folder : list file) (s : store)
    : store * outcome :=
  let w := connect_db s in
  match iter_page_json_files folder with
  | [] => (committed w, NoFiles)
  | files =>
      match run_pages files w (mkCounters 0 0 []) with
      | (w', c, None) => (committed w', Done c)
      | (w', c, Some e) => (committed w', Crashed e c)
      end
  end.

End Build.

(* ===================================================================== *)
(** * Example documents *)
(* ===================================================================== *)

(** A platform for the examples: no string is an integer literal, every
    norm is zero. None of the examples depends on these choices. *)
Definition example_platform : Platform := {|
  int_of_str := λ _, None;
  str_of_value := λ _, [];
  native_order := LittleEndian;
  f64_to_f32 := λ z, z;
  norm_of := λ _, SpecFloat.S754_zero false
|}.

(** A provider that fails every request. *)
Definition no_provider : provider := λ _ _ _, Raise ProviderError.

Definition key (k : string) (v : json) : str * json := (lit k, v).

Definition one_section (txt : string) : json :=
  JList [JDict [key "heading" (JStr (lit "History"));
                key "blocks" (JList [JDict [key "type" (JStr (lit "p"));
                                            key "text" (JStr (lit txt))]])]].

(** A well-formed page document. *)
Definition page_doc (title : string) (pageid revid : Z) (txt : string) : json :=
  JDict [key "title" (JStr (lit title)); key "pageid" (JInt pageid);
         key "revid" (JInt revid); key "sections" (one_section txt)].

(** A page document without ["revid"]. *)
Definition page_without_revid : json :=
  JDict [key "title" (JStr (lit "Anchor")); key "pageid" (JInt 7);
         key "sections" (one_section "An anchor.")].

(* ===================================================================== *)
(** * Predicates on the store *)
(* ===================================================================== *)

(** Specification of a computation: from a world satisfying [pre], a
    normal end satisfies [post], an exceptional end satisfies [exc]. *)
Definition hoare {A} (pre : world → Prop) (m : M A)
    (post : A → world → Prop) (exc : world → Prop) : Prop :=
  ∀ w, pre w →
    match m w with
    | (w', Ok a) => post a w'
    | (w', Raise _) => exc w'
    end.

(** The chunk rows of a page, in rowid order, and the tuples they hold. *)
Definition rows_of (s : store) (page_id : Z) : list chunk_row :=
  List.filter (chunk_of_page page_id) (chunk_tbl s).

Definition tuple_of_row (r : chunk_row) : chunk :=
  (c_chunk_index r, c_section r, c_block_type r, c_text r).

Definition page_chunks (s : store) (page_id : Z) : list chunk :=
  map tuple_of_row (rows_of s page_id).

(** The stored chunk indices of every page are [0, 1, ..., n-1]. *)
Definition well_indexed (s : store) : Prop :=
  ∀ page_id,
    map chunk_index (page_chunks s page_id)
    = seq 0 (length (page_chunks s page_id)).

(** Inside a transaction begun on [snapshot], with the page and chunk
    tables as given. *)
Definition in_tx (snapshot : store) (pages : gmap Z (str * Z))
    (rows : list chunk_row) (w : world) : Prop :=
  tx w = Some snapshot ∧ page_tbl (db w) = pages ∧ chunk_tbl (db w) = rows.

(** The page and revision identifiers a file yields, when it loads and
    has an identity. *)
Definition identity `{Platform} (f : file) : option (Z * Z) :=
  match load_page_json f with
  | Ok page =>
      match extract_page_identity page with
      | Ok (page_id, _, revid) => Some (page_id, revid)
      | Raise _ => None
      end
  | Raise _ => None
  end.

(** The store holds the page of [f] at the revision of [f]. *)
Definition stored `{Platform} (f : file) (s : store) : Prop :=
  ∃ page_id revid title,
    identity f = Some (page_id, revid)
    ∧ bind_int page_id = Ok tt
    ∧ page_tbl s !! page_id = Some (title, revid).

(** The page identifiers of a list of files. *)
Definition page_ids `{Platform} (files : list file) : list Z :=
  omap (λ f, fst <$> identity f) files.

(** The four ways one iteration of the page loop can go, from a world
    [w] with no open transaction to a world [w']. *)
Inductive iteration `{Platform} (f : file) (w : world) (c : counters)
    : world → counters → option exn → Prop :=
| it_unchanged :
    stored f (db w) →
    iteration f w c w
      (mkCounters (updated_pages c) (S (skipped_pages c)) (errors c)) None
| it_rebuilt w' page page_id title revid blocks new :
    load_page_json f = Ok page →
    extract_page_identity page = Ok (page_id, title, revid) →
    bind_int page_id = Ok tt →
    flatten_sections_to_blocks page = Ok blocks →
    page_tbl (db w') = <[page_id := (title, revid)]> (page_tbl (db w)) →
    chunk_tbl (db w') =
      List.filter (λ r, negb (chunk_of_page page_id r)) (chunk_tbl (db w)) ++ new →
    Forall (λ r, c_page_id r = page_id) new →
    map tuple_of_row new = chunk_blocks blocks →
    iteration f w c w'
      (mkCounters (S (updated_pages c)) (skipped_pages c) (errors c)) None
| it_rolled_back w' e :
    db w' = db w →
    iteration f w c w'
      (mkCounters (updated_pages c) (skipped_pages c) (errors c ++ [(fname f, e)]))
      None
| it_crashed w' :
    db w' = db w →
    iteration f w c w' c (Some OperationalError).

(* ===================================================================== *)
(** * Example folders *)
(* ===================================================================== *)

Definition anchor_file : file :=
  mkFile (lit "Anchor.json") (Ok (page_doc "Anchor" 7 10 "An anchor.")).

Definition bomb_file : file :=
  mkFile (lit "Bomb.json") (Ok (page_doc "Bomb" 8 11 "A bomb.")).

Definition broken_file : file :=
  mkFile (lit "Broken.json") (Ok page_without_revid).

(** Two files for one page, as left behind when a page is scraped again
    under a new revision. *)
Definition stale_folder : list file :=
  [mkFile (lit "Anchor.json") (Ok (page_doc "Anchor" 7 10 "An anchor."));
   mkFile (lit "Anchor__7.json") (Ok (page_doc "Anchor" 7 11 "An anchor!"))].

(** The effect of one embedding upsert on the embedding table. *)
Definition write_row
    (t : gmap (Z * Z) (list Z * SpecFloat.spec_float))
    (row : Z * Z * list Z * SpecFloat.spec_float)
    : gmap (Z * Z) (list Z * SpecFloat.spec_float) :=
  let '(chunk_id, model_id, vec, norm) := row in
  <[(chunk_id, model_id) := (vec, norm)]> t.

(* ===================================================================== *)
(** * Reading a blob back *)
(* ===================================================================== *)

(** Modelled from the spec: the decoder of a stored vector is not in
    the repository, which only writes blobs. This is the reading the
    round-trip property of the spec is about,
    [np.frombuffer(blob, dtype=np.float32)]: every group of four bytes,
    in the order of the platform, is the bit pattern of one float32. *)
Definition u32_of_bytes (o : byteorder) (a b c d : Z) : Z :=
  match o with
  | LittleEndian =>
      Z.lor a (Z.lor (Z.shiftl b 8) (Z.lor (Z.shiftl c 16) (Z.shiftl d 24)))
  | BigEndian =>
      Z.lor d (Z.lor (Z.shiftl c 8) (Z.lor (Z.shiftl b 16) (Z.shiftl a 24)))
  end.

Fixpoint blob_to_vec_f32 (o : byteorder) (blob : list Z) : list Z :=
  match blob with
  | a :: b :: c :: d :: rest => u32_of_bytes o a b c d :: blob_to_vec_f32 o rest
  | _ => []
  end.

(** A 32-bit pattern; a byte. *)
Definition is_u32 (x : Z) : Prop := (0 ≤ x < 2 ^ 32)%Z.
Definition is_byte (x : Z) : Prop := (0 ≤ x < 256)%Z.


(* ===================================================================== *)
(** * Further predicates on texts *)
(* ===================================================================== *)

(** A text as the builder stores it: not empty and left alone by
    [normalize_ws]. *)
Definition tidy (s : str) : Prop := s ≠ [] ∧ normalize_ws s = s.

(** A label without whitespace at either end. *)
Definition stripped (s : str) : Prop := strip s = s.

(** A chunk whose text is [tidy]. *)
Definition tidy_chunk (c : chunk) : Prop := tidy (chunk_text c).

(** A block as the builder keeps it: a tidy text under labels without
    whitespace at either end. *)
Definition tidy_block (b : Block) : Prop :=
  tidy (text b) ∧ stripped (section b) ∧ stripped (block_type b).

(* ===================================================================== *)
(** * Shapes of documents *)
(* ===================================================================== *)

(** The values on which [(x or default).strip()] and
    [re.sub(..., x or default)] work for a [str] default: a string, or
    anything falsy. *)
Definition str_or_falsy (x : json) : bool :=
  match x with
  | JStr _ => true
  | _ => negb (truthy x)
  end.

(** The values on which [for v in (x or [])] runs with every [v] of the
    given shape, when no string has that shape: a list of such values, or
    anything falsy. *)
Definition list_or_falsy (shape : json → bool) (x : json) : bool :=
  match x with
  | JList l => forallb shape l
  | _ => negb (truthy x)
  end.

Definition block_shape (b : json) : bool :=
  match b with
  | JDict d =>
      str_or_falsy (dict_get d (lit "type"))
      && str_or_falsy (dict_get d (lit "text"))
  | _ => false
  end.

Definition section_shape (sec : json) : bool :=
  match sec with
  | JDict d =>
      str_or_falsy (dict_get d (lit "heading"))
      && list_or_falsy block_shape (dict_get d (lit "blocks"))
  | _ => false
  end.

(** The documents [flatten_sections_to_blocks] accepts. *)
Definition page_shape (page : json) : bool :=
  match page with
  | JDict d => list_or_falsy section_shape (dict_get d (lit "sections"))
  | _ => false
  end.

(* ===================================================================== *)
(** * Further predicates on the store and on a run *)
(* ===================================================================== *)


(** A file the loop can open a transaction for: its document loads, has
    an identity, and its page identifier fits an SQLite integer. *)
Definition usable `{Platform} (f : file) : Prop :=
  ∃ page_id revid,
    identity f = Some (page_id, revid) ∧ bind_int page_id = Ok tt.

(** The number of files the counters account for. *)
Definition accounted (c : counters) : nat :=
  updated_pages c + skipped_pages c + length (errors c).

(** No request has been made since the count was [n], and the model
    table is [mt], both as the connection sees it and in the snapshot of
    the open transaction. *)
Definition quiet (n : nat) (mt : list model_row) (w : world) : Prop :=
  requests w = n ∧ model_tbl (db w) = mt
  ∧ ∀ s, tx w = Some s → model_tbl s = mt.

(** The names [iter_page_json_files] keeps. *)
Definition page_file_name (name : str) : bool :=
  endswith name (lit ".json")
  && negb (bool_decide (name ∈ SKIP_FILENAMES))
  && negb (existsb (endswith name) SKIP_SUFFIXES).

(* ===================================================================== *)
(** * The scraper's text helpers ([web_scrapper.py]) *)
(* ===================================================================== *)

(** [re.sub] of a pattern [[...]+] by one character [rep], the class
    given as a predicate: every maximal run of characters of the class
    becomes one [rep]. [in_run] tells that the character just read
    belongs to a run that already produced its [rep]. *)
Fixpoint sub_runs (cls : N → bool) (rep : N) (in_run : bool) (s : str) : str :=
  match s with
  | [] => []
  | c :: r =>
      if cls c
      then (if in_run then sub_runs cls rep true r
            else rep :: sub_runs cls rep true r)
      else c :: sub_runs cls rep false r
  end.

(** The class of the characters Windows refuses in a file name:
    backslash, slash, colon, star, question mark, double quote, angle
    brackets and bar. *)
Definition is_illegal (c : N) : bool :=
  bool_decide (c ∈ [92; 47; 58; 42; 63; 34; 60; 62; 124]%N).

(** [safe_filename]; the class [\s] is the set of [str.isspace]. *)
Definition safe_filename (title : str) (max_len : nat) : str :=
  let title := strip title in
  let title := sub_runs is_illegal 95 false title in
  let title := sub_runs isspace 32 false title in
  if max_len <? length title then rstrip (take max_len title) else title.

(** [resolve_filename_collision]: [taken] tells which names exist in the
    output folder, [pageid] is the page identifier as the f-string
    writes it. *)
Definition resolve_filename_collision (taken : str → bool)
    (title pageid : str) : str :=
  let base := safe_filename title 160 in
  let fname := base ++ lit ".json" in
  if taken fname then base ++ lit "__" ++ pageid ++ lit ".json" else fname.

(** What the substitution of [[ \t]{2,}] by one space has read of the
    current run of spaces and tabs: nothing, one character still to be
    written, or two and more, for which the space has been written. *)
Inductive hrun :=
| NoRun
| OneOf (c : N)
| Replaced.

Fixpoint sub_hspace2_from (st : hrun) (s : str) : str :=
  match s with
  | [] => match st with OneOf d => [d] | _ => [] end
  | c :: r =>
      if is_hspace c then
        match st with
        | NoRun => sub_hspace2_from (OneOf c) r
        | OneOf _ => 32%N :: sub_hspace2_from Replaced r
        | Replaced => sub_hspace2_from Replaced r
        end
      else
        match st with
        | OneOf d => d :: c :: sub_hspace2_from NoRun r
        | _ => c :: sub_hspace2_from NoRun r
        end
  end.

Definition sub_hspace2 (s : str) : str := sub_hspace2_from NoRun s.

Section Citations.
(** The class [\d] of the regular expressions of the Python in use: the
    decimal digits of its Unicode database. *)
Variable is_digit : N → bool.

(** The removal of the citations [\[\d+\]]: [held] holds the digits
    read after an opening bracket that may still turn out to open a
    citation. *)
Fixpoint sub_citations (held : option str) (s : str) : str :=
  match s with
  | [] => match held with Some ds => 91%N :: ds | None => [] end
  | c :: r =>
      match held with
      | Some ds =>
          if is_digit c then sub_citations (Some (ds ++ [c])) r
          else if (c =? 93)%N && nonempty ds then sub_citations None r
          else 91%N :: ds ++
                 (if (c =? 91)%N then sub_citations (Some []) r
                  else c :: sub_citations None r)
      | None =>
          if (c =? 91)%N then sub_citations (Some []) r
          else c :: sub_citations None r
      end
  end.

Definition clean_text (s : str) : str :=
  strip (sub_newlines (sub_hspace2 (sub_citations None s))).

End Citations.

(** Every class character is a single [rep] ([prev] tells whether a
    class character precedes the string). *)
Fixpoint runs_norm (cls : N → bool) (rep : N) (prev : bool) (s : str) : Prop :=
  match s with
  | [] => True
  | c :: r =>
      (cls c = true → c = rep ∧ prev = false) ∧ runs_norm cls rep (cls c) r
  end.

(** No two adjacent characters of [[ \t]] ([prev] tells whether one
    precedes the string). *)
Fixpoint hs_apart (prev : bool) (s : str) : Prop :=
  match s with
  | [] => True
  | c :: r => (is_hspace c = true → prev = false) ∧ hs_apart (is_hspace c) r
  end.

(** A tab read as a space. *)
Definition tab_to_space (c : N) : N := if (c =? 9)%N then 32%N else c.

(** A name [safe_filename] has nothing to do on: short enough, without
    illegal character, with single spaces as its only whitespace, and
    none at either end. *)
Definition clean_name (max_len : nat) (s : str) : Prop :=
  length s ≤ max_len
  ∧ Forall (λ c, is_illegal c = false) s
  ∧ runs_norm isspace 32 false s
  ∧ (∀ c r, s = c :: r → isspace c = false)
  ∧ (∀ c, last s = Some c → isspace c = false).

(* ===================================================================== *)
(** * Predicates on chunk identifiers *)
(* ===================================================================== *)

(** The chunk identifiers in use are distinct and none exceeds the
    AUTOINCREMENT counter: the state SQLite keeps such a table in. *)
Definition ids_fresh (s : store) : Prop :=
  Forall (λ r, (chunk_id r ≤ chunk_seq s)%Z) (chunk_tbl s)
  ∧ NoDup (map chunk_id (chunk_tbl s)).

(** From [s] to [s'], the counter did not go back and every chunk row
    is a row of [s] or has an identifier [s] never gave out. *)
Definition only_new_ids (s s' : store) : Prop :=
  (chunk_seq s ≤ chunk_seq s')%Z
  ∧ ∀ r, r ∈ chunk_tbl s' → r ∈ chunk_tbl s ∨ (chunk_seq s < chunk_id r)%Z.

Definition ids_good (s0 s : store) : Prop := ids_fresh s ∧ only_new_ids s0 s.

(** Both hold of the tables the connection sees and of the snapshot of
    the open transaction. *)
Definition ids_kept (s0 : store) (w : world) : Prop :=
  ids_good s0 (db w) ∧ ∀ s, tx w = Some s → ids_good s0 s.

(* ===================================================================== *)
(** * Rows of the embedding table *)
(* ===================================================================== *)

(** A parameter row the [INSERT] into [embedding] accepts in store [s]:
    both identifiers fit an SQLite integer, the norm is a number, and
    the chunk and the model it refers to exist. *)
Definition writable (s : store)
    (row : Z * Z * list Z * SpecFloat.spec_float) : Prop :=
  let '(chunk_id, model_id, vec, norm) := row in
  bind_int chunk_id = Ok tt ∧ bind_int model_id = Ok tt
  ∧ norm ≠ SpecFloat.S754_nan
  ∧ has_chunk s chunk_id = true ∧ has_model s model_id = true.

(** The primary key of a row. *)
Definition row_key (row : Z * Z * list Z * SpecFloat.spec_float) : Z * Z :=
  (row.1.1.1, row.1.1.2).

(** A store with page 7, two chunks of it and one model: what
    [insert_embeddings] finds when [build_database] calls it. *)
Definition embedding_ready : world :=
  ((let! _ := upsert_page 7 (lit "Anchor") 10 in
    let! _ := insert_chunks 7 [(0, lit "Intro", lit "p", lit "one");
                               (1, lit "Intro", lit "p", lit "two")] in
    ensure_model_row (lit "bge-m3") 1 (lit "cosine"))
     (connect_db empty_store)).1.

(* ===================================================================== *)
(** * Where a chunk comes from *)
(* ===================================================================== *)

(** What the post-pass makes of a text [acc] and a short text [t]. *)
Definition join_short (acc t : str) : str := normalize_ws (acc ++ JOINER ++ t).

(** A group of the post-pass: a chunk of the packing loop and the
    chunks that follow it and were joined onto it. *)
Definition group : Type := chunk * list chunk.

Definition group_chunks (g : group) : list chunk := g.1 :: g.2.

Definition group_text (g : group) : str :=
  fold_left join_short (map chunk_text g.2) (chunk_text g.1).

(** A chunk the post-pass joins onto its predecessor: not empty and
    shorter than the minimum. *)
Definition short (c : chunk) : Prop :=
  0 < length (chunk_text c) < MIN_CHARS_PER_CHUNK.

(** The chunk the post-pass leaves for a group: the head with the text
    of the whole group. *)
Definition merged_of (g : group) : chunk :=
  (chunk_index g.1, chunk_section g.1, chunk_kind g.1, group_text g).

(** The same, up to the index. *)
Definition merged_as (c : chunk) (g : group) : Prop :=
  chunk_section c = chunk_section g.1
  ∧ chunk_kind c = chunk_kind g.1
  ∧ chunk_text c = group_text g.

(** The characters the joined chunks of a group can add. *)
Definition joined_size (g : group) : nat :=
  list_sum (map (λ c, 2 + length (chunk_text c)) g.2).

(** Where a chunk of the packing loop comes from: the flush of a buffer
    whose first block is [blocks[i]] and that holds the [k] blocks after
    it, or a slice of the oversized block [blocks[i]]. *)
Inductive origin (blocks : list Block) (c : chunk) : Prop :=
| from_buffer i k b :
    blocks !! i = Some b → i + k < length blocks →
    chunk_text c
    = normalize_ws (join JOINER (map text (take (S k) (drop i blocks)))) →
    chunk_section c = or_str (Some (section b)) (lit "Intro") →
    chunk_kind c = or_str (Some (block_type b)) (lit "mixed") →
    origin blocks c
| from_slice i b start :
    blocks !! i = Some b → MAX_CHARS_PER_CHUNK < length (text b) →
    chunk_text c
    = normalize_ws (take MAX_CHARS_PER_CHUNK (drop start (text b))) →
    chunk_section c = section b → chunk_kind c = block_type b →
    origin blocks c.

(** Invariant of the packing loop after [n] blocks: every finished
    chunk has an origin, and a buffer that is not empty holds the blocks
    from some [blocks[i]] on, with the labels of that block. *)
Definition origin_inv (blocks : list Block) (n : nat) (st : chunker) : Prop :=
  Forall (origin blocks) (chunks st)
  ∧ (buf_texts st ≠ [] →
     ∃ i b, i < n ∧ blocks !! i = Some b
       ∧ buf_texts st = map text (take (n - i) (drop i blocks))
       ∧ buf_section st = Some (section b)
       ∧ buf_type st = Some (block_type b)).

#[global] Arguments lit : simpl never.
#[global] Arguments join : simpl never.
#[global] Arguments normalize_ws : simpl never.

(* ===================================================================== *)
(** * Whitespace normalisation: lengths and normal forms *)
(* ===================================================================== *)

Lemma length_sub_hspace_from b s : length (sub_hspace_from b s) ≤ length s.
Proof.
  revert b; induction s as [|c r IH]; intros b; simpl; [lia|].
  destruct (is_hspace c); [destruct b|]; simpl;
    [specialize (IH true)|specialize (IH true)|specialize (IH false)]; lia.
Qed.

Lemma length_sub_newlines_from n s : length (sub_newlines_from n s) ≤ length s.
Proof.
  revert n; induction s as [|c r IH]; intros n; simpl; [lia|].
  destruct (is_nl c); [destruct (n <? 2)|]; simpl;
    [specialize (IH (S n))|specialize (IH (S n))|specialize (IH 0)]; lia.
Qed.

Lemma length_drop_while f s : length (drop_while f s) ≤ length s.
Proof.
  induction s as [|c r IH]; simpl; [lia|]. destruct (f c); simpl; lia.
Qed.

Lemma length_strip s : length (strip s) ≤ length s.
Proof.
  unfold strip, rstrip, lstrip. rewrite length_rev.
  etransitivity; [apply length_drop_while|]. rewrite length_rev.
  apply length_drop_while.
Qed.

Lemma length_normalize_ws s : length (normalize_ws s) ≤ length s.
Proof.
  unfold normalize_ws, sub_newlines, sub_hspace.
  etransitivity; [apply length_strip|].
  etransitivity; [apply length_sub_newlines_from|].
  apply length_sub_hspace_from.
Qed.

(** [drop_while] returns a suffix that does not start with a dropped
    character. *)
Lemma drop_while_suffix f s : ∃ a, s = a ++ drop_while f s.
Proof.
  induction s as [|c r [a Ha]]; simpl; [by exists []|].
  destruct (f c); [|by exists []].
  exists (c :: a). simpl. by rewrite <- Ha.
Qed.

Lemma drop_while_head f s c r : drop_while f s = c :: r → f c = false.
Proof.
  induction s as [|d t IH]; simpl; [done|].
  destruct (f d) eqn:E; [done|]. intros [= -> _]. done.
Qed.

Lemma drop_while_id f c r : f c = false → drop_while f (c :: r) = c :: r.
Proof. intros H. simpl. by rewrite H. Qed.

Lemma length_drop_while_app f a b :
  length (drop_while f b) ≤ length (drop_while f (a ++ b)).
Proof.
  induction a as [|c r IH]; simpl; [lia|].
  destruct (f c); [done|]. simpl. rewrite length_app.
  pose proof (length_drop_while f b). lia.
Qed.

Lemma rstrip_prefix s : ∃ a, s = rstrip s ++ a.
Proof.
  unfold rstrip. destruct (drop_while_suffix isspace (rev s)) as [a Ha].
  exists (rev a). rewrite <- rev_app_distr, <- Ha. by rewrite rev_involutive.
Qed.

Lemma rstrip_last s c : last (rstrip s) = Some c → isspace c = false.
Proof.
  unfold rstrip. destruct (drop_while isspace (rev s)) as [|d t] eqn:E; [done|].
  simpl. rewrite last_snoc. intros [= ->]. by eapply drop_while_head.
Qed.

Lemma is_hspace_spec c : is_hspace c = true ↔ c = 32%N ∨ c = 9%N.
Proof. unfold is_hspace. rewrite orb_true_iff, !N.eqb_eq. done. Qed.

Lemma is_hspace_false c : is_hspace c = false ↔ c ≠ 32%N ∧ c ≠ 9%N.
Proof. unfold is_hspace. rewrite orb_false_iff, !N.eqb_neq. done. Qed.

Lemma isspace_hspace c : is_hspace c = true → isspace c = true.
Proof. intros [-> | ->]%is_hspace_spec; reflexivity. Qed.

Lemma isspace_nl c : is_nl c = true → isspace c = true.
Proof. unfold is_nl. intros ->%N.eqb_eq. reflexivity. Qed.

Lemma hs_norm_sub s b : hs_norm b (sub_hspace_from b s).
Proof.
  revert b; induction s as [|c r IH]; intros b; simpl; [done|].
  destruct (is_hspace c) eqn:E.
  - destruct b; [apply IH|]. simpl. repeat split; [done|apply IH].
  - apply is_hspace_false in E as [E1 E2]. simpl. repeat split; [done|done|].
    apply N.eqb_neq in E1. rewrite E1. apply IH.
Qed.

Lemma hs_norm_fix s b : hs_norm b s → sub_hspace_from b s = s.
Proof.
  revert b; induction s as [|c r IH]; intros b; simpl; [done|].
  intros (H9 & H32 & Hr). destruct (is_hspace c) eqn:E.
  - apply is_hspace_spec in E as [-> | ->]; [|done].
    rewrite (H32 eq_refl). f_equal. by apply IH.
  - apply is_hspace_false in E as [E1 _]. apply N.eqb_neq in E1.
    rewrite E1 in Hr. f_equal. by apply IH.
Qed.

Lemma hs_norm_weaken b s : hs_norm b s → hs_norm false s.
Proof. destruct s as [|c r]; simpl; [done|]. intros (? & ? & ?). done. Qed.

Lemma hs_norm_app_r b a s : hs_norm b (a ++ s) → hs_norm false s.
Proof.
  revert b; induction a as [|c r IH]; intros b; simpl.
  - apply hs_norm_weaken.
  - intros (_ & _ & H). by eapply IH.
Qed.

Lemma hs_norm_app_l b s a : hs_norm b (s ++ a) → hs_norm b s.
Proof.
  revert b; induction s as [|c r IH]; intros b; simpl; [done|].
  intros (? & ? & H). repeat split; [done|done|]. by eapply IH.
Qed.

Lemma nl_norm_sub s n : nl_norm (min n 2) (sub_newlines_from n s).
Proof.
  revert n; induction s as [|c r IH]; intros n; simpl; [done|].
  destruct (is_nl c) eqn:E.
  - destruct (n <? 2) eqn:En.
    + apply Nat.ltb_lt in En. simpl. rewrite E. split; [lia|].
      specialize (IH (S n)). by replace (S (min n 2)) with (min (S n) 2) by lia.
    + apply Nat.ltb_ge in En. specialize (IH (S n)).
      by replace (min n 2) with (min (S n) 2) by lia.
  - simpl. rewrite E. apply (IH 0).
Qed.

Lemma nl_norm_fix s n : nl_norm n s → sub_newlines_from n s = s.
Proof.
  revert n; induction s as [|c r IH]; intros n; simpl; [done|].
  destruct (is_nl c).
  - intros [Hn Hr]. apply Nat.ltb_lt in Hn. rewrite Hn. f_equal. by apply IH.
  - intros Hr. f_equal. by apply IH.
Qed.

Lemma nl_norm_mono n m s : m ≤ n → nl_norm n s → nl_norm m s.
Proof.
  revert n m; induction s as [|c r IH]; intros n m Hle; simpl; [done|].
  destruct (is_nl c); [|done]. intros [Hn Hr]. split; [lia|].
  apply (IH (S n)); [lia|done].
Qed.

Lemma nl_norm_app_r n a s : nl_norm n (a ++ s) → nl_norm 0 s.
Proof.
  revert n; induction a as [|c r IH]; intros n; simpl.
  - apply nl_norm_mono. lia.
  - destruct (is_nl c); [intros [_ H]|intros H]; by eapply IH.
Qed.

Lemma nl_norm_app_l n s a : nl_norm n (s ++ a) → nl_norm n s.
Proof.
  revert n; induction s as [|c r IH]; intros n; simpl; [done|].
  destruct (is_nl c); [intros [? H]; split; [done|]|intros H]; by eapply IH.
Qed.

(** The second substitution keeps the first normal form: it only removes
    newlines that follow two other newlines. *)
Lemma hs_norm_sub_newlines s n b :
  (0 < n → b = false) → hs_norm b s → hs_norm b (sub_newlines_from n s).
Proof.
  revert n b; induction s as [|c r IH]; intros n b Hn; simpl; [done|].
  intros (H9 & H32 & Hr). destruct (is_nl c) eqn:E.
  - unfold is_nl in E. apply N.eqb_eq in E as ->. simpl in Hr.
    destruct (n <? 2) eqn:En.
    + simpl. repeat split; [done|done|]. apply IH; [done|done].
    + apply Nat.ltb_ge in En. rewrite Hn by lia. apply IH; [done|done].
  - simpl. repeat split; [done|done|]. apply IH; [lia|done].
Qed.

Lemma normalize_ws_normal q :
  let p := normalize_ws q in
  hs_norm false p ∧ nl_norm 0 p
  ∧ (∀ c r, p = c :: r → isspace c = false)
  ∧ (∀ c, last p = Some c → isspace c = false).
Proof.
  intros p. unfold normalize_ws, strip in p.
  set (u := sub_newlines (sub_hspace q)) in p.
  assert (Hu1 : hs_norm false u).
  { apply hs_norm_sub_newlines; [lia|]. apply hs_norm_sub. }
  assert (Hu2 : nl_norm 0 u) by apply (nl_norm_sub _ 0).
  destruct (drop_while_suffix isspace u) as [a Ha]. fold (lstrip u) in Ha.
  destruct (rstrip_prefix (lstrip u)) as [a' Ha']. fold p in Ha'.
  rewrite Ha in Hu1, Hu2.
  apply hs_norm_app_r in Hu1. apply nl_norm_app_r in Hu2.
  rewrite Ha' in Hu1, Hu2.
  apply hs_norm_app_l in Hu1. apply nl_norm_app_l in Hu2.
  repeat split; [done|done| |].
  - intros c r Hp. rewrite Hp in Ha'. simpl in Ha'.
    by eapply (drop_while_head isspace u).
  - intros c. apply rstrip_last.
Qed.

Lemma sub_hspace_from_app p x b :
  hs_norm b p → p ≠ [] → (∀ c, last p = Some c → is_hspace c = false) →
  sub_hspace_from b (p ++ x) = p ++ sub_hspace_from false x.
Proof.
  revert b; induction p as [|c r IH]; intros b Hn Hne Hl; [done|].
  destruct Hn as (H9 & H32 & Hr).
  destruct r as [|d t].
  - simpl. by rewrite (Hl c eq_refl).
  - assert (Hl' : ∀ e, last (d :: t) = Some e → is_hspace e = false)
      by (intros e He; apply Hl; by rewrite last_cons_cons).
    change ((c :: d :: t) ++ x) with (c :: ((d :: t) ++ x)).
    cbn [sub_hspace_from]. destruct (is_hspace c) eqn:E.
    + apply is_hspace_spec in E as [-> | ->]; [|done].
      rewrite (H32 eq_refl). rewrite IH by done. done.
    + apply is_hspace_false in E as [E1 _]. apply N.eqb_neq in E1.
      rewrite E1 in Hr. rewrite IH by done. done.
Qed.

Lemma sub_newlines_from_app p x n :
  nl_norm n p → p ≠ [] → (∀ c, last p = Some c → is_nl c = false) →
  sub_newlines_from n (p ++ x) = p ++ sub_newlines_from 0 x.
Proof.
  revert n; induction p as [|c r IH]; intros n Hn Hne Hl; [done|].
  destruct r as [|d t].
  - simpl. by rewrite (Hl c eq_refl).
  - assert (Hl' : ∀ e, last (d :: t) = Some e → is_nl e = false)
      by (intros e He; apply Hl; by rewrite last_cons_cons).
    change ((c :: d :: t) ++ x) with (c :: ((d :: t) ++ x)).
    cbn [sub_newlines_from]. cbn [nl_norm] in Hn.
    destruct (is_nl c) eqn:E.
    + destruct Hn as [Hlt Hr]. apply Nat.ltb_lt in Hlt. rewrite Hlt.
      rewrite IH by done. done.
    + rewrite IH by done. done.
Qed.

Lemma not_isspace_not_hspace c : isspace c = false → is_hspace c = false.
Proof.
  intros H. destruct (is_hspace c) eqn:E; [|done].
  apply isspace_hspace in E. congruence.
Qed.

Lemma not_isspace_not_nl c : isspace c = false → is_nl c = false.
Proof.
  intros H. destruct (is_nl c) eqn:E; [|done].
  apply isspace_nl in E. congruence.
Qed.

(** Appending to a normalised text and normalising again never yields a
    shorter text: the normalised prefix is kept as it is. *)
Lemma normalize_ws_app_ge q x :
  length (normalize_ws q) ≤ length (normalize_ws (normalize_ws q ++ x)).
Proof.
  destruct (normalize_ws_normal q) as (H1 & H2 & Hh & Hl).
  simpl in *. set (p := normalize_ws q) in *.
  destruct p as [|c r] eqn:Ep; [simpl; lia|]. rewrite <- Ep in *.
  assert (Hne : p ≠ []) by (rewrite Ep; done).
  unfold normalize_ws at 1, sub_hspace, sub_newlines.
  rewrite sub_hspace_from_app; [|done|done|].
  2:{ intros e He. apply not_isspace_not_hspace. by apply Hl. }
  rewrite sub_newlines_from_app; [|done|done|].
  2:{ intros e He. apply not_isspace_not_nl. by apply Hl. }
  set (y := sub_newlines_from 0 (sub_hspace_from false x)).
  assert (Hls : lstrip (p ++ y) = p ++ y).
  { unfold lstrip. rewrite Ep. apply drop_while_id. by eapply Hh. }
  unfold strip. rewrite Hls.
  unfold rstrip. rewrite length_rev, rev_app_distr.
  etransitivity; [|apply length_drop_while_app].
  destruct (rev p) as [|e t] eqn:Er.
  - apply (f_equal (@length _)) in Er. rewrite length_rev in Er. simpl in *. lia.
  - assert (last p = Some e).
    { rewrite <- (rev_involutive p), Er. simpl. by rewrite last_snoc. }
    rewrite drop_while_id by (by apply Hl).
    rewrite <- Er, length_rev. lia.
Qed.

(** Normalisation only removes or rewrites whitespace. *)
Lemma nonws_sub_hspace_from b s : nonws (sub_hspace_from b s) = nonws s.
Proof.
  revert b; induction s as [|c r IH]; intros b; simpl; [done|].
  destruct (is_hspace c) eqn:E.
  - rewrite (isspace_hspace _ E). simpl. destruct b; simpl; apply IH.
  - simpl. by rewrite IH.
Qed.

Lemma nonws_sub_newlines_from n s : nonws (sub_newlines_from n s) = nonws s.
Proof.
  revert n; induction s as [|c r IH]; intros n; simpl; [done|].
  destruct (is_nl c) eqn:E.
  - rewrite (isspace_nl _ E). simpl. destruct (n <? 2); simpl.
    + rewrite (isspace_nl _ E). simpl. apply IH.
    + apply IH.
  - simpl. by rewrite IH.
Qed.

Lemma nonws_drop_while s : nonws (drop_while isspace s) = nonws s.
Proof.
  induction s as [|c r IH]; simpl; [done|].
  destruct (isspace c) eqn:E; simpl; [done|]. by rewrite E.
Qed.

Lemma nonws_app a b : nonws (a ++ b) = nonws a ++ nonws b.
Proof. apply List.filter_app. Qed.

Lemma nonws_strip s : nonws (strip s) = nonws s.
Proof.
  unfold strip, rstrip, lstrip, nonws at 1. rewrite filter_rev.
  fold (nonws (drop_while isspace (rev (drop_while isspace s)))).
  rewrite nonws_drop_while. unfold nonws at 1. rewrite filter_rev.
  rewrite rev_involutive. apply nonws_drop_while.
Qed.

Lemma nonws_normalize_ws s : nonws (normalize_ws s) = nonws s.
Proof.
  unfold normalize_ws. rewrite nonws_strip. unfold sub_newlines, sub_hspace.
  by rewrite nonws_sub_newlines_from, nonws_sub_hspace_from.
Qed.

Lemma nonws_join l : nonws (join JOINER l) = content l.
Proof.
  unfold content. induction l as [|x r IH]; [done|].
  destruct r as [|y t]; [simpl; by rewrite app_nil_r|].
  change (join JOINER (x :: y :: t)) with (x ++ JOINER ++ join JOINER (y :: t)).
  rewrite !nonws_app, IH. done.
Qed.

Lemma content_nil : content [] = [].
Proof. done. Qed.

Lemma content_singleton x : content [x] = nonws x.
Proof. unfold content. simpl. by rewrite app_nil_r. Qed.

Lemma content_app a b : content (a ++ b) = content a ++ content b.
Proof. unfold content. by rewrite map_app, concat_app. Qed.

(* ===================================================================== *)
(** * The chunker: generic facts *)
(* ===================================================================== *)

Lemma fold_left_invariant {A B} (P : A → Prop) (f : A → B → A) l a :
  P a → (∀ a b, P a → P (f a b)) → P (fold_left f l a).
Proof.
  intros Ha Hf. revert a Ha. induction l as [|b l IH]; intros a Ha; simpl; auto.
Qed.

Lemma split_block_unfold fuel blk start cs :
  split_block (S fuel) blk start cs =
  if start <? length (text blk) then
    let piece :=
      normalize_ws (take MAX_CHARS_PER_CHUNK (drop start (text blk))) in
    split_block fuel blk (start + MAX_CHARS_PER_CHUNK)
      (if nonempty piece
       then cs ++ [(length cs, section blk, block_type blk, piece)]
       else cs)
  else cs.
Proof. reflexivity. Qed.

(** The loop stops because [start] passes the end of the text, never
    because the iteration budget of the model is used up: one more
    iteration changes nothing. *)
Lemma split_block_fuel fuel blk start cs :
  length (text blk) - start ≤ fuel →
  split_block (S fuel) blk start cs = split_block fuel blk start cs.
Proof.
  revert start cs. induction fuel as [|fuel IH]; intros start cs Hf.
  - rewrite split_block_unfold.
    destruct (start <? length (text blk)) eqn:E; [|done].
    apply Nat.ltb_lt in E. lia.
  - rewrite (split_block_unfold (S fuel) blk start cs),
      (split_block_unfold fuel blk start cs).
    destruct (start <? length (text blk)) eqn:E; [|done].
    cbv zeta. apply IH. unfold MAX_CHARS_PER_CHUNK. lia.
Qed.

Lemma split_block_fuel_enough k blk cs :
  split_block (length (text blk) + k) blk 0 cs =
  split_block (length (text blk)) blk 0 cs.
Proof.
  induction k as [|k IH]; [by rewrite Nat.add_0_r|].
  rewrite Nat.add_succ_r, split_block_fuel; [done|lia].
Qed.

Lemma split_block_invariant (P : list chunk → Prop) fuel blk start cs :
  (∀ cs i, P cs →
     P (cs ++ [(length cs, section blk, block_type blk,
                normalize_ws (take MAX_CHARS_PER_CHUNK (drop i (text blk))))])) →
  P cs → P (split_block fuel blk start cs).
Proof.
  intros Hp. revert start cs. induction fuel as [|fuel IH]; intros start cs Hc;
    [done|].
  rewrite split_block_unfold.
  destruct (start <? length (text blk)); [|done]. cbv zeta. apply IH.
  destruct (nonempty _); [by apply Hp|done].
Qed.

(** Shape of the post-pass step. *)
Lemma merge_step_nil c : merge_step [] c = [c].
Proof. by destruct c as [[[ci sec] bt] txt]. Qed.

Lemma merge_step_snoc m p c :
  merge_step (m ++ [p]) c =
  if length (chunk_text c) <? MIN_CHARS_PER_CHUNK
  then m ++ [(chunk_index p, chunk_section p, chunk_kind p,
              normalize_ws (chunk_text p ++ JOINER ++ chunk_text c))]
  else m ++ [p] ++ [c].
Proof.
  destruct c as [[[ci sec] bt] txt], p as [[[p_ci p_sec] p_bt] p_txt].
  unfold merge_step. rewrite last_snoc. cbn [chunk_text chunk_index chunk_section chunk_kind fst snd].
  destruct (length txt <? MIN_CHARS_PER_CHUNK); [|by rewrite <- app_assoc].
  rewrite length_app. cbn [length]. rewrite Nat.add_1_r. cbn [pred].
  rewrite <- (Nat.add_0_r (length m)), insert_app_r. done.
Qed.

Lemma reindex_text l : map chunk_text (reindex l) = map chunk_text l.
Proof.
  unfold reindex.
  assert (∀ (f : nat → nat) l, map chunk_text
    (imap (λ i c, (f i, chunk_section c, chunk_kind c, chunk_text c)) l)
    = map chunk_text l) as H.
  { clear. intros f l. revert f. induction l as [|c l IH]; intros f; [done|].
    rewrite imap_cons. simpl. f_equal. apply (IH (f ∘ S)). }
  apply (H id).
Qed.

Lemma reindex_index l : map chunk_index (reindex l) = seq 0 (length l).
Proof.
  unfold reindex.
  assert (∀ k l, map chunk_index
    (imap (λ i c, (k + i, chunk_section c, chunk_kind c, chunk_text c)) l)
    = seq k (length l)) as H.
  { clear. intros k l. revert k. induction l as [|c l IH]; intros k; [done|].
    rewrite imap_cons. simpl. rewrite Nat.add_0_r. f_equal.
    rewrite <- (IH (S k)). f_equal. apply imap_ext. intros i x _. simpl.
    do 3 f_equal. lia. }
  apply (H 0).
Qed.

Lemma length_reindex l : length (reindex l) = length l.
Proof. apply length_imap. Qed.

(* ===================================================================== *)
(** * The packing loop *)
(* ===================================================================== *)

Lemma buf_texts_flush st : buf_texts (flush st) = [].
Proof. unfold flush. by destruct (buf_texts st) eqn:E. Qed.

Lemma join_singleton sep x : join sep [x] = x.
Proof. done. Qed.

Section PackInvariants.

Lemma flush_chunks_within st : size_inv st → Forall within_max (chunks (flush st)).
Proof.
  intros [Hc Hb]. unfold flush. destruct (buf_texts st) as [|t r] eqn:E; [done|].
  simpl. destruct (nonempty _); [|done].
  apply Forall_app. split; [done|]. by constructor.
Qed.

Lemma split_block_within fuel blk start cs :
  Forall within_max cs → Forall within_max (split_block fuel blk start cs).
Proof.
  apply split_block_invariant. clear. intros cs i Hc.
  apply Forall_app. split; [done|]. constructor; [|done].
  unfold within_max, chunk_text. simpl.
  etransitivity; [apply length_normalize_ws|]. rewrite length_take. lia.
Qed.

Lemma chunk_step_size st blk : size_inv st → size_inv (chunk_step st blk).
Proof.
  intros Hinv. unfold chunk_step.
  set (st1 := match buf_texts st with
              | [] => _ | _ :: _ => _ end).
  assert (H1 : size_inv st1).
  { subst st1. destruct (buf_texts st) eqn:E; [|done].
    destruct Hinv as [Hc Hb]. split; simpl; [done|]. by rewrite E in Hb. }
  clearbody st1. clear st Hinv.
  destruct (length (normalize_ws _) <=? MAX_CHARS_PER_CHUNK) eqn:Ec.
  - apply Nat.leb_le in Ec. destruct H1 as [Hc _]. by split.
  - pose proof (flush_chunks_within _ H1) as Hf.
    destruct (MAX_CHARS_PER_CHUNK <? length (text blk)) eqn:Eh.
    + split; simpl; [by apply split_block_within|].
      rewrite buf_texts_flush. simpl. lia.
    + apply Nat.ltb_ge in Eh. split; simpl; [done|].
      etransitivity; [apply length_normalize_ws|done].
Qed.

Lemma pack_blocks_within blocks : Forall within_max (pack_blocks blocks).
Proof.
  unfold pack_blocks. apply flush_chunks_within.
  apply fold_left_invariant; [|intros; by apply chunk_step_size].
  split; simpl; [done|lia].
Qed.

(** Every finished chunk text is a result of [normalize_ws]. *)
Lemma flush_normalised st :
  Forall normalised (chunks st) → Forall normalised (chunks (flush st)).
Proof.
  intros Hc. unfold flush. destruct (buf_texts st) as [|t r] eqn:E; [done|].
  simpl. destruct (nonempty _); [|done].
  apply Forall_app. split; [done|]. constructor; [|done]. by eexists.
Qed.

Lemma chunk_step_normalised st blk :
  Forall normalised (chunks st) → Forall normalised (chunks (chunk_step st blk)).
Proof.
  intros Hinv. unfold chunk_step.
  set (st1 := match buf_texts st with
              | [] => _ | _ :: _ => _ end).
  assert (H1 : Forall normalised (chunks st1)).
  { subst st1. by destruct (buf_texts st). }
  clearbody st1. clear st Hinv.
  destruct (length (normalize_ws _) <=? MAX_CHARS_PER_CHUNK); [done|].
  pose proof (flush_normalised _ H1) as Hf.
  destruct (MAX_CHARS_PER_CHUNK <? length (text blk)); [|done]. simpl.
  apply split_block_invariant; [|done]. clear. intros cs i Hc.
  apply Forall_app. split; [done|]. constructor; [|done]. by eexists.
Qed.

Lemma pack_blocks_normalised blocks : Forall normalised (pack_blocks blocks).
Proof.
  unfold pack_blocks. apply flush_normalised.
  apply (fold_left_invariant (λ st, Forall normalised (chunks st)));
    [done|]. intros; by apply chunk_step_normalised.
Qed.

(** Content: the loop neither loses nor reorders a non-whitespace
    character. *)
Lemma flush_content st : content_of (flush st) = content_of st.
Proof.
  unfold flush, content_of. destruct (buf_texts st) as [|t r] eqn:E;
    [by rewrite E|].
  simpl. rewrite app_nil_r.
  pose proof (nonws_join (t :: r)) as Hj.
  rewrite <- nonws_normalize_ws in Hj.
  destruct (normalize_ws (join JOINER (t :: r))) as [|c l] eqn:En; simpl.
  - rewrite <- Hj. simpl. by rewrite app_nil_r.
  - rewrite map_app, content_app. simpl. rewrite <- Hj.
    unfold content at 2. simpl. by rewrite app_nil_r.
Qed.

Lemma split_block_content fuel blk start cs :
  length (text blk) - start ≤ fuel →
  content (map chunk_text (split_block fuel blk start cs)) =
  content (map chunk_text cs) ++ nonws (drop start (text blk)).
Proof.
  revert start cs. induction fuel as [|fuel IH]; intros start cs Hf.
  - simpl. rewrite drop_ge by lia. by rewrite app_nil_r.
  - rewrite split_block_unfold.
    destruct (start <? length (text blk)) eqn:E.
    + cbv zeta. rewrite IH by (unfold MAX_CHARS_PER_CHUNK; lia).
      rewrite <- (take_drop MAX_CHARS_PER_CHUNK (drop start (text blk))) at 3.
      rewrite nonws_app, drop_drop, app_assoc. f_equal.
      rewrite <- (nonws_normalize_ws (take _ _)).
      destruct (normalize_ws (take _ _)) as [|c l]; simpl;
        [by rewrite app_nil_r|].
      rewrite map_app, content_app. simpl. unfold content at 2. simpl.
      by rewrite app_nil_r.
    + apply Nat.ltb_ge in E. rewrite drop_ge by lia. by rewrite app_nil_r.
Qed.

Lemma chunk_step_content st blk :
  content_of (chunk_step st blk) = content_of st ++ nonws (text blk).
Proof.
  unfold chunk_step.
  set (st1 := match buf_texts st with
              | [] => _ | _ :: _ => _ end).
  assert (H1 : content_of st1 = content_of st).
  { subst st1. unfold content_of. by destruct (buf_texts st) eqn:E; simpl; rewrite ?E. }
  rewrite <- H1. clearbody st1. clear st H1.
  destruct (length (normalize_ws _) <=? MAX_CHARS_PER_CHUNK).
  - unfold content_of. simpl.
    by rewrite content_app, content_singleton, app_assoc.
  - rewrite <- (flush_content st1).
    pose proof (buf_texts_flush st1) as Hb.
    destruct (MAX_CHARS_PER_CHUNK <? length (text blk)).
    + unfold content_of. simpl. rewrite Hb.
      rewrite split_block_content by lia. rewrite drop_0.
      by rewrite content_nil, !app_nil_r.
    + unfold content_of. simpl. rewrite Hb.
      by rewrite content_nil, content_singleton, !app_nil_r.
Qed.

Lemma pack_blocks_content blocks :
  content (map chunk_text (pack_blocks blocks)) = content (map text blocks).
Proof.
  unfold pack_blocks.
  assert (∀ st, content_of (fold_left chunk_step blocks st)
                = content_of st ++ content (map text blocks)) as H.
  { induction blocks as [|b r IH]; intros st; simpl.
    - by rewrite content_nil, app_nil_r.
    - rewrite IH, chunk_step_content, <- app_assoc. done. }
  specialize (H (mkChunker [] [] None None)).
  rewrite <- flush_content in H. unfold content_of in H.
  rewrite buf_texts_flush in H. simpl in H.
  rewrite !content_nil, app_nil_r in H. done.
Qed.

End PackInvariants.

(* ===================================================================== *)
(** * The minimum-size post-pass *)
(* ===================================================================== *)

Lemma tail_map {A B} (f : A → B) l : tail (map f l) = map f (tail l).
Proof. by destruct l. Qed.

Lemma tail_snoc {A} (l : list A) x : l ≠ [] → tail (l ++ [x]) = tail l ++ [x].
Proof. by destruct l. Qed.

Lemma merge_step_inv merged c :
  merge_inv merged → normalised c → merge_inv (merge_step merged c).
Proof.
  intros [Hn Hm] Hc. destruct merged as [|p m _] using rev_ind.
  - rewrite merge_step_nil. split; [by constructor|]. simpl. constructor.
  - rewrite merge_step_snoc. apply Forall_app in Hn as [Hn1 Hn2].
    apply Forall_inv in Hn2.
    destruct (length (chunk_text c) <? MIN_CHARS_PER_CHUNK) eqn:E.
    + split.
      * apply Forall_app. split; [done|]. constructor; [|done]. by eexists.
      * destruct m as [|x m]; [simpl; constructor|].
        rewrite tail_snoc in Hm |- * by done.
        apply Forall_app in Hm as [Hm1 Hm2]. apply Forall_inv in Hm2.
        apply Forall_app. split; [done|]. constructor; [|done].
        unfold at_least_min in *. cbn [chunk_text snd].
        destruct Hn2 as [q Hq]. fold (chunk_text p). rewrite Hq.
        etransitivity; [|apply normalize_ws_app_ge]. by rewrite <- Hq.
    + apply Nat.ltb_ge in E. split.
      * rewrite app_assoc. apply Forall_app. split; [|by constructor].
        apply Forall_app. split; [done|by constructor].
      * rewrite app_assoc, tail_snoc by (by destruct m).
        apply Forall_app. split; [done|]. by constructor.
Qed.

Lemma merge_small_inv cs : Forall normalised cs → merge_inv (merge_small cs).
Proof.
  unfold merge_small.
  assert (∀ merged, Forall normalised cs → merge_inv merged →
            merge_inv (fold_left merge_step cs merged)) as H.
  { induction cs as [|c cs IH]; intros merged Hc Hm; [done|]. simpl.
    apply Forall_cons in Hc as [Hc1 Hc2].
    apply IH; [done|]. by apply merge_step_inv. }
  intros Hc. apply H; [done|]. split; simpl; constructor.
Qed.

Lemma merge_step_content merged c :
  content (map chunk_text (merge_step merged c)) =
  content (map chunk_text merged) ++ nonws (chunk_text c).
Proof.
  destruct merged as [|p m _] using rev_ind.
  - rewrite merge_step_nil. simpl. by rewrite content_singleton.
  - rewrite merge_step_snoc.
    destruct (length (chunk_text c) <? MIN_CHARS_PER_CHUNK).
    + rewrite !map_app, !content_app. simpl. rewrite !content_singleton.
      cbn [chunk_text snd]. rewrite nonws_normalize_ws, !nonws_app.
      fold (chunk_text p) (chunk_text c).
      change (nonws JOINER) with (@nil N). simpl. by rewrite app_assoc.
    + rewrite app_assoc, !map_app, !content_app. simpl.
      by rewrite !content_singleton.
Qed.

Lemma merge_small_content cs :
  content (map chunk_text (merge_small cs)) = content (map chunk_text cs).
Proof.
  unfold merge_small.
  assert (∀ merged, content (map chunk_text (fold_left merge_step cs merged))
            = content (map chunk_text merged) ++ content (map chunk_text cs)) as H.
  { induction cs as [|c cs IH]; intros merged; simpl.
    - by rewrite content_nil, app_nil_r.
    - rewrite IH, merge_step_content, <- app_assoc. done. }
  rewrite H. done.
Qed.

(* ===================================================================== *)
(** * Size bound *)
(* ===================================================================== *)

Lemma Forall_chunk_text (P : str → Prop) l :
  Forall (λ c, P (chunk_text c)) l ↔ Forall P (map chunk_text l).
Proof. symmetry. apply List.Forall_map. Qed.

(** C1, as stated, fails: a block of 1200 characters followed by a block
    of 100 characters is returned as one chunk of 1302 characters. *)
Lemma size_bound_counterexample :
  ¬ Forall within_max (chunk_blocks full_then_short).
Proof.
  intros H.
  apply (Forall_chunk_text (λ t, length t ≤ MAX_CHARS_PER_CHUNK)) in H.
  apply (List.Forall_map (@length N) (λ n, n ≤ MAX_CHARS_PER_CHUNK)) in H.
  assert (map (@length N) (map chunk_text (chunk_blocks full_then_short)) = [1302])
    as E by (vm_compute; reflexivity).
  rewrite E in H. apply Forall_inv in H. unfold MAX_CHARS_PER_CHUNK in H. lia.
Qed.

(* ===================================================================== *)
(** * Minimum size *)
(* ===================================================================== *)

(** C6. In the list returned by [chunk_blocks], every chunk after the
    first has at least [MIN_CHARS_PER_CHUNK] characters. *)
Theorem min_size_after_first blocks :
  Forall at_least_min (tail (chunk_blocks blocks)).
Proof.
  unfold chunk_blocks.
  destruct (merge_small_inv _ (pack_blocks_normalised blocks)) as [_ H].
  revert H. generalize (merge_small (pack_blocks blocks)). intros l H.
  unfold at_least_min in *.
  apply (Forall_chunk_text (λ t, MIN_CHARS_PER_CHUNK ≤ length t)).
  apply (Forall_chunk_text (λ t, MIN_CHARS_PER_CHUNK ≤ length t)) in H.
  rewrite <- tail_map in H |- *. by rewrite reindex_text.
Qed.

(* ===================================================================== *)
(** * Texts without whitespace *)
(* ===================================================================== *)

Lemma no_ws_cons c r : no_ws (c :: r) = true ↔ isspace c = false ∧ no_ws r = true.
Proof.
  unfold no_ws. simpl. rewrite andb_true_iff, negb_true_iff. done.
Qed.

Lemma no_ws_app a b : no_ws (a ++ b) = true ↔ no_ws a = true ∧ no_ws b = true.
Proof. unfold no_ws. rewrite forallb_app, andb_true_iff. done. Qed.

Lemma no_ws_take n s : no_ws s = true → no_ws (take n s) = true.
Proof.
  intros H. rewrite <- (take_drop n s) in H. by apply no_ws_app in H as [? _].
Qed.

Lemma no_ws_drop n s : no_ws s = true → no_ws (drop n s) = true.
Proof.
  intros H. rewrite <- (take_drop n s) in H. by apply no_ws_app in H as [_ ?].
Qed.

Lemma no_ws_last s c : no_ws s = true → last s = Some c → isspace c = false.
Proof.
  intros H [l ->]%last_Some. apply no_ws_app in H as [_ H].
  by apply no_ws_cons in H as [? _].
Qed.

Lemma hs_norm_no_hspace s b :
  forallb (λ c, negb (is_hspace c)) s = true → hs_norm b s.
Proof.
  revert b; induction s as [|c r IH]; intros b; simpl; [done|].
  rewrite andb_true_iff, negb_true_iff. intros [[H32 H9]%is_hspace_false Hr].
  repeat split; [done|done|]. by apply IH.
Qed.

Lemma nl_norm_no_nl s n : forallb (λ c, negb (is_nl c)) s = true → nl_norm n s.
Proof.
  revert n; induction s as [|c r IH]; intros n; simpl; [done|].
  rewrite andb_true_iff, negb_true_iff. intros [-> Hr]. by apply IH.
Qed.

Lemma nl_norm_app_no_nl p x :
  forallb (λ c, negb (is_nl c)) p = true → nl_norm 0 x → nl_norm 0 (p ++ x).
Proof.
  induction p as [|c r IH]; simpl; [done|].
  rewrite andb_true_iff, negb_true_iff. intros [-> Hr] Hx. by apply IH.
Qed.

Lemma no_ws_no_hspace s :
  no_ws s = true → forallb (λ c, negb (is_hspace c)) s = true.
Proof.
  unfold no_ws. rewrite !forallb_forall. intros H c Hc.
  specialize (H c Hc). apply negb_true_iff in H. apply negb_true_iff.
  by apply not_isspace_not_hspace.
Qed.

Lemma no_ws_no_nl s :
  no_ws s = true → forallb (λ c, negb (is_nl c)) s = true.
Proof.
  unfold no_ws. rewrite !forallb_forall. intros H c Hc.
  specialize (H c Hc). apply negb_true_iff in H. apply negb_true_iff.
  by apply not_isspace_not_nl.
Qed.

Lemma strip_fix s :
  (∀ c r, s = c :: r → isspace c = false) →
  (∀ c, last s = Some c → isspace c = false) → strip s = s.
Proof.
  intros Hh Hl. unfold strip, lstrip, rstrip.
  assert (drop_while isspace s = s) as ->.
  { destruct s as [|c r]; [done|]. apply drop_while_id. by eapply Hh. }
  destruct (rev s) as [|e t] eqn:Er.
  - apply (f_equal (@rev N)) in Er. by rewrite rev_involutive in Er.
  - rewrite drop_while_id.
    + by rewrite <- Er, rev_involutive.
    + apply Hl. rewrite <- (rev_involutive s), Er. simpl. by rewrite last_snoc.
Qed.

(** A text without whitespace is left as it is. *)
Lemma normalize_ws_no_ws s : no_ws s = true → normalize_ws s = s.
Proof.
  intros H. unfold normalize_ws, sub_hspace, sub_newlines.
  rewrite hs_norm_fix by (by apply hs_norm_no_hspace, no_ws_no_hspace).
  rewrite nl_norm_fix by (by apply nl_norm_no_nl, no_ws_no_nl).
  apply strip_fix.
  - intros c r ->. by apply no_ws_cons in H as [? _].
  - intros c. by apply no_ws_last.
Qed.

(** Two non-empty texts without whitespace, joined by the separator, are
    left as they are. *)
Lemma normalize_ws_joined p t :
  no_ws p = true → no_ws t = true → p ≠ [] → t ≠ [] →
  normalize_ws (p ++ JOINER ++ t) = p ++ JOINER ++ t.
Proof.
  intros Hp Ht Hpn Htn. unfold normalize_ws, sub_hspace, sub_newlines.
  rewrite hs_norm_fix.
  2:{ apply hs_norm_no_hspace. rewrite !forallb_app, !andb_true_iff.
      split; [|split]; [by apply no_ws_no_hspace|reflexivity|by apply no_ws_no_hspace]. }
  rewrite nl_norm_fix.
  2:{ apply nl_norm_app_no_nl; [by apply no_ws_no_nl|].
      simpl. repeat split; [lia|lia|]. by apply nl_norm_no_nl, no_ws_no_nl. }
  apply strip_fix.
  - destruct p as [|c r]; [done|]. intros d l [= <- _].
    by apply no_ws_cons in Hp as [? _].
  - intros c Hc. apply (no_ws_last t); [done|].
    rewrite app_assoc, last_app in Hc. destruct (last t) eqn:E; [done|].
    apply last_None in E. done.
Qed.

(* ===================================================================== *)
(** * One oversized block *)
(* ===================================================================== *)

Lemma split_block_step fuel blk start cs :
  0 < fuel → start < length (text blk) →
  no_ws (text blk) = true →
  split_block fuel blk start cs =
  split_block (fuel - 1) blk (start + MAX_CHARS_PER_CHUNK)
    (cs ++ [(length cs, section blk, block_type blk,
             take MAX_CHARS_PER_CHUNK (drop start (text blk)))]).
Proof.
  intros Hf Hs Hw. destruct fuel as [|fuel]; [lia|].
  rewrite split_block_unfold. apply Nat.ltb_lt in Hs as Hs'. rewrite Hs'.
  cbv zeta. rewrite normalize_ws_no_ws by (by apply no_ws_take, no_ws_drop).
  rewrite Nat.sub_1_r. simpl pred.
  destruct (take _ _) as [|c r] eqn:E; [|done].
  apply (f_equal (@length N)) in E. rewrite length_take, length_drop in E.
  unfold MAX_CHARS_PER_CHUNK in E. cbn [length] in E. lia.
Qed.

Lemma split_block_stop fuel blk start cs :
  length (text blk) ≤ start → split_block fuel blk start cs = cs.
Proof.
  intros Hs. destruct fuel as [|fuel]; [done|].
  rewrite split_block_unfold. apply Nat.ltb_ge in Hs. by rewrite Hs.
Qed.

Lemma merge_step_long merged c :
  MIN_CHARS_PER_CHUNK ≤ length (chunk_text c) → merge_step merged c = merged ++ [c].
Proof.
  intros H. destruct merged as [|p m _] using rev_ind;
    [by rewrite merge_step_nil|].
  rewrite merge_step_snoc. apply Nat.ltb_ge in H. by rewrite H, app_assoc.
Qed.

Lemma merge_step_short m p c :
  length (chunk_text c) < MIN_CHARS_PER_CHUNK →
  merge_step (m ++ [p]) c =
  m ++ [(chunk_index p, chunk_section p, chunk_kind p,
         normalize_ws (chunk_text p ++ JOINER ++ chunk_text c))].
Proof. intros H. rewrite merge_step_snoc. apply Nat.ltb_lt in H. by rewrite H. Qed.

(** C2, as stated, fails: one block of 5000 characters does not come
    back as chunks of 1200, 1200, 1200, 1200 and 200 characters. *)
Lemma oversized_block_counterexample :
  map (λ c, length (chunk_text c)) (chunk_blocks one_block_5000)
  ≠ [1200; 1200; 1200; 1200; 200].
Proof.
  assert (map (λ c, length (chunk_text c)) (chunk_blocks one_block_5000)
          = [1200; 1200; 1200; 1402]) as E by (vm_compute; reflexivity).
  rewrite E. discriminate.
Qed.

(** C2 (amended). The slices of an oversized block go through the
    minimum-size post-pass like every other chunk: one block of 5000
    characters, none of them whitespace, is returned as exactly four
    chunks, of 1200, 1200, 1200 and 1402 characters, the last being the
    fourth slice joined with the 200-character remainder. *)
Theorem oversized_block_5000 sec bt txt :
  length txt = 5000 → no_ws txt = true →
  chunk_blocks [mkBlock sec bt txt] =
    [(0, sec, bt, take 1200 txt);
     (1, sec, bt, take 1200 (drop 1200 txt));
     (2, sec, bt, take 1200 (drop 2400 txt));
     (3, sec, bt, take 1200 (drop 3600 txt) ++ JOINER ++ drop 4800 txt)]
  ∧ map (λ c, length (chunk_text c)) (chunk_blocks [mkBlock sec bt txt])
    = [1200; 1200; 1200; 1402].
Proof.
  intros Hlen Hw.
  assert (chunk_blocks [mkBlock sec bt txt] =
    [(0, sec, bt, take 1200 txt);
     (1, sec, bt, take 1200 (drop 1200 txt));
     (2, sec, bt, take 1200 (drop 2400 txt));
     (3, sec, bt, take 1200 (drop 3600 txt) ++ JOINER ++ drop 4800 txt)]) as E.
  { unfold chunk_blocks, pack_blocks. cbn [fold_left].
    unfold chunk_step. cbn [buf_texts chunks buf_section buf_type text app].
    rewrite join_singleton, (normalize_ws_no_ws txt Hw), Hlen.
    change (5000 <=? MAX_CHARS_PER_CHUNK) with false.
    change (MAX_CHARS_PER_CHUNK <? 5000) with true.
    cbv iota. unfold flush at 1 2 3 4. cbn [buf_texts chunks buf_section buf_type].
    unfold flush. cbn [buf_texts chunks].
    set (blk := mkBlock sec bt txt).
    assert (Hl : length (text blk) = 5000) by done.
    assert (Hw' : no_ws (text blk) = true) by done.
    rewrite (split_block_step _ _ 0) by (rewrite ?Hl; done || lia).
    rewrite (split_block_step _ _ (0 + MAX_CHARS_PER_CHUNK))
      by (rewrite ?Hl; done || (unfold MAX_CHARS_PER_CHUNK; lia)).
    do 3 (rewrite split_block_step
      by (rewrite ?Hl; done || (unfold MAX_CHARS_PER_CHUNK; lia))).
    rewrite split_block_stop by (rewrite Hl; unfold MAX_CHARS_PER_CHUNK; lia).
    cbn [section block_type text blk app length].
    remember (take MAX_CHARS_PER_CHUNK (drop 0 txt)) as t0 eqn:E0.
    remember (take MAX_CHARS_PER_CHUNK (drop (0 + MAX_CHARS_PER_CHUNK) txt))
      as t1 eqn:E1.
    remember (take MAX_CHARS_PER_CHUNK
                (drop (0 + MAX_CHARS_PER_CHUNK + MAX_CHARS_PER_CHUNK) txt))
      as t2 eqn:E2.
    remember (take MAX_CHARS_PER_CHUNK
                (drop (0 + MAX_CHARS_PER_CHUNK + MAX_CHARS_PER_CHUNK
                       + MAX_CHARS_PER_CHUNK) txt)) as t3 eqn:E3.
    remember (take MAX_CHARS_PER_CHUNK
                (drop (0 + MAX_CHARS_PER_CHUNK + MAX_CHARS_PER_CHUNK
                       + MAX_CHARS_PER_CHUNK + MAX_CHARS_PER_CHUNK) txt))
      as t4 eqn:E4.
    assert (length t1 = 1200 ∧ length t2 = 1200 ∧ length t3 = 1200
            ∧ length t4 = 200) as (L1 & L2 & L3 & L4).
    { subst. rewrite !length_take, !length_drop, Hlen.
      unfold MAX_CHARS_PER_CHUNK. lia. }
    unfold merge_small. cbn [fold_left]. rewrite merge_step_nil.
    rewrite (merge_step_long _ (1, sec, bt, t1)),
      (merge_step_long _ (2, sec, bt, t2)), (merge_step_long _ (3, sec, bt, t3))
      by (unfold MIN_CHARS_PER_CHUNK, chunk_text; cbn [snd]; lia).
    cbn [app].
    change [(0, sec, bt, t0); (1, sec, bt, t1); (2, sec, bt, t2); (3, sec, bt, t3)]
      with ([(0, sec, bt, t0); (1, sec, bt, t1); (2, sec, bt, t2)]
            ++ [(3, sec, bt, t3)]).
    rewrite merge_step_short
      by (unfold MIN_CHARS_PER_CHUNK, chunk_text; cbn [snd]; lia).
    cbn [app chunk_index chunk_section chunk_kind chunk_text fst snd].
    rewrite normalize_ws_joined.
    2,3: subst; by apply no_ws_take, no_ws_drop.
    2,3: intros ->; simpl in *; lia.
    unfold reindex.
    cbn [imap chunk_section chunk_kind chunk_text fst snd compose].
    assert (t4 = drop 4800 txt) as ->.
    { subst t4. apply take_ge. rewrite length_drop, Hlen.
      unfold MAX_CHARS_PER_CHUNK. lia. }
    subst. reflexivity. }
  split; [done|]. rewrite E. cbn [map chunk_text snd].
  rewrite !length_app, !length_take, !length_drop, Hlen. cbn [length JOINER].
  repeat (apply (f_equal2 cons); [lia|]). reflexivity.
Qed.

Lemma oversized_block_5000_witness :
  chunk_blocks one_block_5000 =
    [(0, lit "Intro", lit "p", take 1200 (replicate 5000 97%N));
     (1, lit "Intro", lit "p", take 1200 (drop 1200 (replicate 5000 97%N)));
     (2, lit "Intro", lit "p", take 1200 (drop 2400 (replicate 5000 97%N)));
     (3, lit "Intro", lit "p",
      take 1200 (drop 3600 (replicate 5000 97%N)) ++ JOINER
      ++ drop 4800 (replicate 5000 97%N))]
  ∧ map (λ c, length (chunk_text c)) (chunk_blocks one_block_5000)
    = [1200; 1200; 1200; 1402].
Proof.
  apply (oversized_block_5000 (lit "Intro") (lit "p") (replicate 5000 97%N));
    vm_compute; reflexivity.
Defined.

(* ===================================================================== *)
(** * Recorded kind of a chunk *)
(* ===================================================================== *)

Lemma forallb_seq_succ (f : nat → bool) a n :
  forallb f (seq (S a) n) = forallb (λ k, f (S k)) (seq a n).
Proof.
  revert a. induction n as [|n IH]; intros a; [done|]. simpl. by rewrite IH.
Qed.

Lemma forallb_pointwise {A} (f g : A → bool) l :
  (∀ x, f x = g x) → forallb f l = forallb g l.
Proof. intros H. induction l as [|x l IH]; [done|]. simpl. by rewrite H, IH. Qed.

Lemma fold_chunk_step_one_buffer rest cs buf sec bt :
  buf ≠ [] →
  forallb (λ k, fits (buf ++ take k (map text rest))) (seq 1 (length rest)) = true →
  fold_left chunk_step rest (mkChunker cs buf sec bt) =
  mkChunker cs (buf ++ map text rest) sec bt.
Proof.
  revert buf. induction rest as [|b rest IH]; intros buf Hne Hfit.
  - simpl. by rewrite app_nil_r.
  - cbn [fold_left]. cbn [length seq forallb] in Hfit.
    apply andb_true_iff in Hfit as [H1 Hfit].
    assert (chunk_step (mkChunker cs buf sec bt) b
            = mkChunker cs (buf ++ [text b]) sec bt) as ->.
    { unfold chunk_step. cbn [buf_texts]. destruct buf as [|x buf]; [done|].
      cbn [buf_texts chunks buf_section buf_type].
      unfold fits in H1. cbn [map take] in H1. rewrite take_0 in H1.
      by rewrite H1. }
    rewrite IH.
    + by rewrite <- app_assoc.
    + by destruct buf.
    + rewrite forallb_seq_succ in Hfit.
      erewrite forallb_pointwise; [exact Hfit|]. intros k. simpl.
      by rewrite <- app_assoc.
Qed.

Lemma or_str_kind_from b c sec txt i :
  c = (i, sec, or_str (Some (block_type b)) (lit "mixed"), txt) → kind_from b c.
Proof.
  intros ->. unfold kind_from, chunk_kind. simpl.
  destruct (block_type b); [by right|by left].
Qed.

Lemma flush_kinds blocks st :
  kind_inv blocks st → kind_inv blocks (flush st).
Proof.
  intros [Hc Hb]. unfold flush. destruct (buf_texts st) as [|t r] eqn:E;
    [by split|].
  split; [|done]. simpl. destruct (nonempty _); [|done].
  apply Forall_app. split; [done|]. constructor; [|done].
  destruct Hb as (b & Hin & Hty); [by rewrite ?E|].
  exists b. split; [done|]. eapply or_str_kind_from. by rewrite Hty.
Qed.

Lemma chunk_step_kinds blocks st blk :
  blk ∈ blocks → kind_inv blocks st → kind_inv blocks (chunk_step st blk).
Proof.
  intros Hin Hinv. unfold chunk_step.
  set (st1 := match buf_texts st with
              | [] => _ | _ :: _ => _ end).
  assert (H1 : kind_inv blocks st1
               ∧ ∃ b, b ∈ blocks ∧ buf_type st1 = Some (block_type b)).
  { subst st1. destruct Hinv as [Hc Hb].
    destruct (buf_texts st) as [|t r] eqn:E.
    - split; [by split|]. by exists blk.
    - split; [split; [done|by rewrite ?E]|]. apply Hb. by rewrite ?E. }
  clearbody st1. clear st Hinv. destruct H1 as [[Hc Hb] Hty].
  destruct (length (normalize_ws _) <=? MAX_CHARS_PER_CHUNK); [by split|].
  pose proof (flush_kinds blocks st1 (conj Hc Hb)) as [Hfc Hfb].
  destruct (MAX_CHARS_PER_CHUNK <? length (text blk)).
  - split; simpl; [|by rewrite buf_texts_flush].
    apply split_block_invariant; [|done]. intros cs i Hcs.
    apply Forall_app. split; [done|]. constructor; [|done].
    exists blk. split; [done|]. by left.
  - split; simpl; [done|]. intros _. by exists blk.
Qed.

Lemma pack_blocks_kinds blocks :
  Forall (kind_of_a_block blocks) (pack_blocks blocks).
Proof.
  unfold pack_blocks.
  assert (∀ l st, (∀ b, b ∈ l → b ∈ blocks) → kind_inv blocks st →
            kind_inv blocks (fold_left chunk_step l st)) as H.
  { induction l as [|b l IH]; intros st Hl Hst; [done|]. simpl.
    apply IH; [intros b' Hb'; apply Hl; by right|].
    apply chunk_step_kinds; [apply Hl; by left|done]. }
  apply flush_kinds, H; [done|]. by split.
Qed.

Lemma merge_step_kinds (Q : str → Prop) merged c :
  Forall (λ c, Q (chunk_kind c)) merged → Q (chunk_kind c) →
  Forall (λ c, Q (chunk_kind c)) (merge_step merged c).
Proof.
  intros Hm Hc. destruct merged as [|p m _] using rev_ind.
  - rewrite merge_step_nil. by constructor.
  - rewrite merge_step_snoc. apply Forall_app in Hm as [Hm1 Hm2].
    apply Forall_inv in Hm2.
    destruct (length (chunk_text c) <? MIN_CHARS_PER_CHUNK).
    + apply Forall_app. split; [done|]. by constructor.
    + rewrite app_assoc. apply Forall_app. split; [|by constructor].
      apply Forall_app. split; [done|by constructor].
Qed.

Lemma merge_small_kinds (Q : str → Prop) cs :
  Forall (λ c, Q (chunk_kind c)) cs →
  Forall (λ c, Q (chunk_kind c)) (merge_small cs).
Proof.
  unfold merge_small.
  assert (∀ merged, Forall (λ c, Q (chunk_kind c)) cs →
            Forall (λ c, Q (chunk_kind c)) merged →
            Forall (λ c, Q (chunk_kind c)) (fold_left merge_step cs merged)) as H.
  { induction cs as [|c cs IH]; intros merged Hc Hm; [done|]. simpl.
    apply Forall_cons in Hc as [Hc1 Hc2].
    apply IH; [done|]. by apply merge_step_kinds. }
  intros Hc. by apply H.
Qed.

Lemma reindex_kind l : map chunk_kind (reindex l) = map chunk_kind l.
Proof.
  unfold reindex.
  assert (∀ (f : nat → nat) l, map chunk_kind
    (imap (λ i c, (f i, chunk_section c, chunk_kind c, chunk_text c)) l)
    = map chunk_kind l) as H.
  { clear. intros f l. revert f. induction l as [|c l IH]; intros f; [done|].
    rewrite imap_cons. simpl. f_equal. apply (IH (f ∘ S)). }
  apply (H id).
Qed.

Lemma chunk_blocks_kinds blocks :
  Forall (kind_of_a_block blocks) (chunk_blocks blocks).
Proof.
  unfold chunk_blocks.
  pose proof (merge_small_kinds
    (λ k, ∃ b, b ∈ blocks ∧ (k = block_type b
                              ∨ (block_type b = [] ∧ k = lit "mixed")))
    _ (pack_blocks_kinds blocks)) as H.
  apply List.Forall_map in H. unfold kind_of_a_block, kind_from.
  apply (List.Forall_map chunk_kind
           (λ k, ∃ b, b ∈ blocks ∧ (k = block_type b
                                    ∨ (block_type b = [] ∧ k = lit "mixed")))).
  by rewrite reindex_kind.
Qed.

(** C7, as stated, fails: a chunk holding a paragraph and a list is
    recorded with the kind of the paragraph, not with ["mixed"]. *)
Lemma mixed_kind_counterexample :
  chunk_blocks two_kinds
  = [(0, lit "Intro", lit "p", lit "aaa" ++ JOINER ++ lit "bbb")]
  ∧ ¬ Forall (λ c, chunk_kind c = lit "mixed") (chunk_blocks two_kinds).
Proof.
  assert (chunk_blocks two_kinds
          = [(0, lit "Intro", lit "p", lit "aaa" ++ JOINER ++ lit "bbb")]) as E
    by (vm_compute; reflexivity).
  split; [done|]. rewrite E. intros H. apply Forall_inv in H.
  vm_compute in H. discriminate.
Qed.

(** Blocks that are packed into one buffer, whatever their kinds, come
    back as one chunk carrying the section and kind of the first
    block. *)
Lemma one_buffer_one_chunk b rest :
  all_prefixes_fit (map text (b :: rest)) = true →
  nonempty (normalize_ws (join JOINER (map text (b :: rest)))) = true →
  chunk_blocks (b :: rest) =
    [(0, or_str (Some (section b)) (lit "Intro"),
         or_str (Some (block_type b)) (lit "mixed"),
         normalize_ws (join JOINER (map text (b :: rest))))].
Proof.
  intros Hfit Hne.
  unfold chunk_blocks, pack_blocks. cbn [fold_left].
  unfold all_prefixes_fit in Hfit. cbn [map length seq forallb] in Hfit.
  apply andb_true_iff in Hfit as [H1 Hfit].
  assert (chunk_step (mkChunker [] [] None None) b
          = mkChunker [] [text b] (Some (section b)) (Some (block_type b))) as ->.
  { unfold chunk_step. cbn [buf_texts chunks buf_section buf_type app].
    unfold fits in H1. cbn [take] in H1. rewrite take_0 in H1. by rewrite H1. }
  rewrite fold_chunk_step_one_buffer; [|done|].
  2:{ rewrite forallb_seq_succ, length_map in Hfit.
      erewrite forallb_pointwise; [exact Hfit|]. intros k. done. }
  unfold flush. cbn [buf_texts chunks buf_section buf_type app].
  cbn [map] in Hne. rewrite Hne. cbn [app length].
  unfold merge_small. cbn [fold_left]. rewrite merge_step_nil. done.
Qed.

(* ===================================================================== *)
(** * Reasoning about store computations *)
(* ===================================================================== *)

Lemma hoare_bind {A B} pre (m : M A) mid (k : A → M B) post exc :
  hoare pre m mid exc → (∀ a, hoare (mid a) (k a) post exc) →
  hoare pre (bind m k) post exc.
Proof.
  intros Hm Hk w Hw. unfold bind. specialize (Hm w Hw).
  destruct (m w) as [w' [a|e]]; [|done]. by apply Hk.
Qed.

Lemma hoare_ret {A} (a : A) (post : A → world → Prop) exc :
  hoare (post a) (ret a) post exc.
Proof. by intros w Hw. Qed.

Lemma hoare_lift {A} (r : result A) pre exc :
  (∀ w, pre w → exc w) → hoare pre (lift r) (λ a w, r = Ok a ∧ pre w) exc.
Proof. intros He w Hw. unfold lift. destruct r; auto. Qed.

Lemma hoare_weaken {A} pre pre' (m : M A) post post' exc exc' :
  hoare pre' m post' exc' →
  (∀ w, pre w → pre' w) → (∀ a w, post' a w → post a w) →
  (∀ w, exc' w → exc w) →
  hoare pre m post exc.
Proof.
  intros Hm H1 H2 H3 w Hw. specialize (Hm w (H1 w Hw)).
  destruct (m w) as [w' [a|e]]; auto.
Qed.

Lemma hoare_exists {A X} (pre : X → world → Prop) (m : M A) post exc :
  (∀ x, hoare (pre x) m post exc) → hoare (λ w, ∃ x, pre x w) m post exc.
Proof. intros Hm w [x Hw]. by apply (Hm x). Qed.

Lemma hoare_pure {A} (φ : Prop) pre (m : M A) post exc :
  (φ → hoare pre m post exc) → hoare (λ w, φ ∧ pre w) m post exc.
Proof. intros Hm w [Hφ Hw]. by apply Hm. Qed.

Lemma hoare_frame {A} (φ : Prop) pre (m : M A) post exc :
  hoare pre m post exc →
  hoare (λ w, pre w ∧ φ) m (λ a w, post a w ∧ φ) exc.
Proof.
  intros Hm w [Hw Hφ]. specialize (Hm w Hw).
  by destruct (m w) as [w' [a|e]].
Qed.

(** Unfolding of the primitive computations. *)
Ltac unfold_m :=
  unfold bind, lift, ret, raise, get_world, set_db, implicit_begin,
    bind_int, bind_text, committed in *.

Ltac step_m := repeat (case_match; simplify_eq/=; try done).

Section StoreOperations.
Context `{Platform}.

Lemma implicit_begin_spec snapshot pages rows :
  hoare (in_tx snapshot pages rows) implicit_begin
    (λ _, in_tx snapshot pages rows) (λ w, tx w = Some snapshot).
Proof.
  intros w (Ht & Hp & Hc). unfold in_tx. unfold_m. simpl. by rewrite Ht.
Qed.

Lemma upsert_page_spec snapshot pages rows page_id title revid :
  hoare (in_tx snapshot pages rows) (upsert_page page_id title revid)
    (λ _, in_tx snapshot (<[page_id := (title, revid)]> pages) rows)
    (λ w, tx w = Some snapshot).
Proof.
  intros w (Ht & Hp & Hc). unfold upsert_page, in_tx. unfold_m.
  rewrite Ht. simpl. step_m.
Qed.

Lemma delete_page_children_spec snapshot pages rows page_id :
  hoare (in_tx snapshot pages rows) (delete_page_children page_id)
    (λ _, in_tx snapshot pages
            (List.filter (λ r, negb (chunk_of_page page_id r)) rows))
    (λ w, tx w = Some snapshot).
Proof.
  intros w (Ht & Hp & Hc). unfold delete_page_children, in_tx.
  unfold_m. rewrite Ht. simpl. step_m.
Qed.

Lemma insert_chunk_spec snapshot pages rows page_id c :
  hoare (in_tx snapshot pages rows) (insert_chunk page_id c)
    (λ _ w, ∃ r, in_tx snapshot pages (rows ++ [r]) w
                 ∧ c_page_id r = page_id ∧ tuple_of_row r = c)
    (λ w, tx w = Some snapshot).
Proof.
  intros w (Ht & Hp & Hc). destruct c as [[[ci sec] bt] txt].
  unfold insert_chunk, in_tx. unfold_m.
  rewrite Ht. simpl. step_m. eexists. repeat split; done.
Qed.

Lemma insert_chunks_from_spec snapshot pages rows page_id cs ids :
  hoare (in_tx snapshot pages rows) (insert_chunks_from page_id cs ids)
    (λ _ w, ∃ new, in_tx snapshot pages (rows ++ new) w
                   ∧ Forall (λ r, c_page_id r = page_id) new
                   ∧ map tuple_of_row new = cs)
    (λ w, tx w = Some snapshot).
Proof.
  revert ids rows. induction cs as [|c cs IH]; intros ids rows.
  - intros w Hw. simpl. exists []. by rewrite app_nil_r.
  - cbn [insert_chunks_from]. eapply hoare_bind; [apply insert_chunk_spec|].
    intros id. apply hoare_exists. intros r. cbv beta.
    intros w (Hw & Hr & Hc).
    pose proof (IH (ids ++ [id]) (rows ++ [r]) w Hw) as Hi.
    destruct (insert_chunks_from _ _ _ w) as [w' [a|e]]; [|done].
    destruct Hi as (new & Hw' & Hn & Hm). exists (r :: new).
    rewrite <- app_assoc in Hw'. repeat split; [apply Hw'..| |].
    + by constructor.
    + simpl. by rewrite Hc, Hm.
Qed.

Lemma embed_batches_spec snapshot pages rows P texts model n starts acc :
  hoare (in_tx snapshot pages rows) (embed_batches P texts model n starts acc)
    (λ _, in_tx snapshot pages rows) (λ w, tx w = Some snapshot).
Proof.
  revert acc. induction starts as [|i starts IH]; intros acc; [by intros w Hw|].
  cbn [embed_batches]. eapply hoare_bind; [|intros a; apply IH].
  intros w (Ht & Hp & Hc). unfold request, in_tx. simpl. by case_match.
Qed.

Lemma embed_texts_spec snapshot pages rows P texts model :
  hoare (in_tx snapshot pages rows) (embed_texts P texts model)
    (λ _, in_tx snapshot pages rows) (λ w, tx w = Some snapshot).
Proof.
  unfold embed_texts. eapply hoare_bind; [apply embed_batches_spec|].
  intros a w Hw. unfold lift. destruct (vstack a); [done|apply Hw].
Qed.

Lemma ensure_model_row_spec snapshot pages rows name dim metric :
  hoare (in_tx snapshot pages rows) (ensure_model_row name dim metric)
    (λ _, in_tx snapshot pages rows) (λ w, tx w = Some snapshot).
Proof.
  intros w (Ht & Hp & Hc). unfold ensure_model_row, in_tx. unfold_m.
  rewrite Ht. simpl. step_m.
Qed.

Lemma upsert_embedding_spec snapshot pages rows row :
  hoare (in_tx snapshot pages rows) (upsert_embedding row)
    (λ _, in_tx snapshot pages rows) (λ w, tx w = Some snapshot).
Proof.
  intros w (Ht & Hp & Hc). destruct row as [[[cid mid] vec] norm].
  unfold upsert_embedding, in_tx. unfold_m. simpl. step_m.
Qed.

Lemma executemany_spec {A} snapshot pages rows (stmt : A → M unit) l :
  (∀ a, hoare (in_tx snapshot pages rows) (stmt a)
          (λ _, in_tx snapshot pages rows) (λ w, tx w = Some snapshot)) →
  hoare (in_tx snapshot pages rows) (executemany stmt l)
    (λ _, in_tx snapshot pages rows) (λ w, tx w = Some snapshot).
Proof.
  intros Hs. induction l as [|a l IH]; [by intros w Hw|].
  cbn [executemany]. eapply hoare_bind; [apply Hs|]. intros ?. apply IH.
Qed.

Lemma insert_embeddings_spec snapshot pages rows model_id chunk_ids vectors :
  hoare (in_tx snapshot pages rows)
    (insert_embeddings model_id chunk_ids vectors)
    (λ _, in_tx snapshot pages rows) (λ w, tx w = Some snapshot).
Proof.
  unfold insert_embeddings. eapply hoare_bind.
  - apply implicit_begin_spec.
  - intros ?. apply executemany_spec. intros row. apply upsert_embedding_spec.
Qed.

End StoreOperations.

(* ===================================================================== *)
(** * Page identity *)
(* ===================================================================== *)

Section Identity.
Context `{Platform}.

(** [safe_int] gives [None] exactly when [int] raises. *)
Lemma safe_int_None x : safe_int x = None ↔ ∃ e, py_int x = Raise e.
Proof.
  unfold safe_int. destruct (py_int x) as [z|e]; split; try done.
  - intros [e' [=]].
  - by exists e.
Qed.

(** On a document that is a dict, [extract_page_identity] raises, and
    then [ValueError], exactly when ["pageid"] or ["revid"] cannot be
    coerced to an integer. *)
Lemma extract_page_identity_raises d e :
  extract_page_identity (JDict d) = Raise e ↔
  e = ValueError
  ∧ (safe_int (dict_get d (lit "pageid")) = None
     ∨ safe_int (dict_get d (lit "revid")) = None).
Proof.
  unfold extract_page_identity. simpl.
  destruct (safe_int (dict_get d (lit "pageid"))) as [p|],
    (safe_int (dict_get d (lit "revid"))) as [r|]; split;
    try (intros [= <-]; auto); try done.
  - by intros [_ [?|?]].
  - by intros [-> _].
  - by intros [-> _].
  - by intros [-> _].
Qed.

(** When both coerce, the two integers are returned, with the title or
    its sentinel. *)
Lemma extract_page_identity_ok d page_id revid :
  safe_int (dict_get d (lit "pageid")) = Some page_id →
  safe_int (dict_get d (lit "revid")) = Some revid →
  extract_page_identity (JDict d)
  = Ok (page_id,
        py_str (py_or (dict_get d (lit "title")) (JStr (lit "Unknown"))),
        revid).
Proof.
  intros Hp Hr. unfold extract_page_identity. simpl. by rewrite Hp, Hr.
Qed.

(** A missing title is replaced by ["Unknown"]. *)
Lemma missing_title_is_unknown d :
  dict_get d (lit "title") = JNull →
  py_str (py_or (dict_get d (lit "title")) (JStr (lit "Unknown")))
  = lit "Unknown".
Proof. by intros ->. Qed.

End Identity.

(* ===================================================================== *)
(** * One page *)
(* ===================================================================== *)

Section OnePage.
Context `{Platform}.
Variables (do_embed : bool) (model_name : str) (P : provider).

Abbreviation process_page := (process_page do_embed model_name P).
Abbreviation page_iteration := (page_iteration do_embed model_name P).
Abbreviation run_pages := (run_pages do_embed model_name P).

Lemma get_existing_page_eval page_id w :
  get_existing_page page_id w =
  (w, match bind_int page_id with
      | Ok _ => Ok match page_tbl (db w) !! page_id with
                   | Some (title, revid) => Some (page_id, title, revid)
                   | None => None
                   end
      | Raise e => Raise e
      end).
Proof.
  unfold get_existing_page, bind, lift, get_world, ret.
  by destruct (bind_int page_id).
Qed.

(** What the body of the [try] does, case by case. *)
Lemma process_page_spec f w :
  tx w = None →
  match process_page f w with
  | (w', Ok Unchanged) => w' = w ∧ stored f (db w)
  | (w', Ok Rebuilt) =>
      tx w' = None
      ∧ ∃ page page_id title revid blocks new,
          load_page_json f = Ok page
          ∧ extract_page_identity page = Ok (page_id, title, revid)
          ∧ bind_int page_id = Ok tt
          ∧ flatten_sections_to_blocks page = Ok blocks
          ∧ page_tbl (db w') = <[page_id := (title, revid)]> (page_tbl (db w))
          ∧ chunk_tbl (db w') =
              List.filter (λ r, negb (chunk_of_page page_id r)) (chunk_tbl (db w))
              ++ new
          ∧ Forall (λ r, c_page_id r = page_id) new
          ∧ map tuple_of_row new = chunk_blocks blocks
  | (w', Raise _) => (tx w' = None ∧ db w' = db w) ∨ tx w' = Some (db w)
  end.
Proof.
  intros Htx. unfold process_page.
  unfold bind at 1. unfold lift at 1.
  destruct (load_page_json f) as [page|e] eqn:Eload; [|by left].
  unfold bind at 1. unfold lift at 1.
  destruct (extract_page_identity page) as [[[page_id title] revid]|e] eqn:Eid;
    [|by left].
  unfold bind at 1. rewrite get_existing_page_eval.
  destruct (bind_int page_id) as [[]|e] eqn:Ebind; [|by left].
  assert (Hid : identity f = Some (page_id, revid))
    by (unfold identity; by rewrite Eload, Eid).
  lazymatch goal with
  | |- context [bind begin_immediate ?k] =>
      assert (Hrebuild :
        let (w', r) := bind begin_immediate k w in
        match r with
        | Ok Unchanged => False
        | Ok Rebuilt =>
            tx w' = None
            ∧ ∃ blocks new,
                flatten_sections_to_blocks page = Ok blocks
                ∧ page_tbl (db w') = <[page_id := (title, revid)]> (page_tbl (db w))
                ∧ chunk_tbl (db w') =
                    List.filter (λ r, negb (chunk_of_page page_id r))
                      (chunk_tbl (db w)) ++ new
                ∧ Forall (λ r, c_page_id r = page_id) new
                ∧ map tuple_of_row new = chunk_blocks blocks
        | Raise _ => tx w' = Some (db w)
        end)
  end.
  { unfold bind at 1. unfold begin_immediate. rewrite Htx.
    lazymatch goal with
    | |- let (_, _) := ?m ?w1 in _ =>
        cut (hoare (in_tx (db w) (page_tbl (db w)) (chunk_tbl (db w))) m
               (λ r w',
                  r = Rebuilt ∧ tx w' = None
                  ∧ ∃ blocks new,
                      flatten_sections_to_blocks page = Ok blocks
                      ∧ page_tbl (db w')
                        = <[page_id := (title, revid)]> (page_tbl (db w))
                      ∧ chunk_tbl (db w') =
                          List.filter (λ r, negb (chunk_of_page page_id r))
                            (chunk_tbl (db w)) ++ new
                      ∧ Forall (λ r, c_page_id r = page_id) new
                      ∧ map tuple_of_row new = chunk_blocks blocks)
               (λ w', tx w' = Some (db w)))
    end.
    { intros Hh.
      specialize (Hh (mkWorld (db w) (Some (db w)) (requests w))
                    ltac:(done)).
      lazymatch goal with
      | |- let (_, _) := ?t in _ => destruct t as [w' [r|e]]
      end; [|done].
      by destruct Hh as (-> & Hh). }
    eapply hoare_bind; [apply upsert_page_spec|]. intros ?.
    eapply hoare_bind; [apply delete_page_children_spec|]. intros ?.
    eapply hoare_bind; [apply hoare_lift; by intros ? (? & _)|].
    intros blocks. cbv beta. apply hoare_pure. intros Hfl.
    eapply hoare_bind; [apply insert_chunks_from_spec|].
    intros ids. cbv beta. apply hoare_exists. intros new.
    eapply hoare_weaken with
      (pre' := λ w0, in_tx (db w) (<[page_id:=(title, revid)]> (page_tbl (db w)))
                 (List.filter (λ r, negb (chunk_of_page page_id r))
                    (chunk_tbl (db w)) ++ new) w0
               ∧ (Forall (λ r, c_page_id r = page_id) new
                  ∧ map tuple_of_row new = chunk_blocks blocks));
      [|intros ? Hpre; exact Hpre|intros ? ? Hpost; exact Hpost
       |intros ? Hexc; exact Hexc].
    eapply hoare_bind.
    - apply hoare_frame. destruct do_embed.
      + eapply hoare_bind; [apply embed_texts_spec|]. intros [dim vectors].
        eapply hoare_bind; [apply ensure_model_row_spec|]. intros mid.
        apply insert_embeddings_spec.
      + intros w0 Hw0. exact Hw0.
    - intros ? w0 ((Ht & Hp & Hc) & Hf & Hm). unfold bind, commit, ret. simpl.
      repeat split. by exists blocks, new. }
  destruct (page_tbl (db w) !! page_id) as [[t r]|] eqn:El.
  - destruct (r =? revid)%Z eqn:Er.
    + apply Z.eqb_eq in Er as ->. unfold ret. split; [done|].
      by exists page_id, revid, t.
    + destruct (bind _ _ _) as [w' [[]|e]]; [done| |by right].
      destruct Hrebuild as (? & blocks & new & ?). split; [done|].
      by exists page, page_id, title, revid, blocks, new.
  - destruct (bind _ _ _) as [w' [[]|e]]; [done| |by right].
    destruct Hrebuild as (? & blocks & new & ?). split; [done|].
    by exists page, page_id, title, revid, blocks, new.
Qed.

Lemma page_iteration_spec f w c :
  tx w = None →
  ∃ w' c' r,
    page_iteration w c f = (w', c', r) ∧ tx w' = None ∧ iteration f w c w' c' r.
Proof.
  intros Htx. unfold page_iteration.
  pose proof (process_page_spec f w Htx) as Hp.
  destruct (process_page f w) as [w' [[]|e]].
  - destruct Hp as [-> Hs]. eexists _, _, _. split; [done|].
    split; [done|]. by constructor.
  - destruct Hp as (Ht & page & page_id & title & revid & blocks & new & Hp).
    eexists _, _, _. split; [done|]. split; [done|].
    destruct Hp as (? & ? & ? & ? & ? & ? & ? & ?). by econstructor.
  - unfold rollback. destruct Hp as [[Ht Hd]|Ht]; rewrite Ht.
    + eexists _, _, _. split; [done|]. split; [done|]. by constructor.
    + eexists _, _, _. split; [done|]. split; [done|]. by constructor.
Qed.

(** An exception raised once the transaction is open is handled as
    intended: the page's rows are back to what they were, the error is
    recorded and the loop goes on. *)
Lemma error_in_transaction_rolled_back f w c w1 e :
  tx w = None → process_page f w = (w1, Raise e) → tx w1 ≠ None →
  page_iteration w c f
  = (mkWorld (db w) None (requests w1),
     mkCounters (updated_pages c) (skipped_pages c) (errors c ++ [(fname f, e)]),
     None).
Proof.
  intros Htx Hp Hopen. pose proof (process_page_spec f w Htx) as Hs.
  unfold page_iteration. rewrite Hp in Hs |- *.
  destruct Hs as [[Hn _]|Hsnap]; [done|]. unfold rollback. by rewrite Hsnap.
Qed.

(** A file that does not load, or has no identity, makes the body
    raise before any transaction is open; the handler's [ROLLBACK]
    then raises [OperationalError]. *)
Lemma page_iteration_no_identity f w c :
  tx w = None → identity f = None →
  page_iteration w c f = (w, c, Some OperationalError).
Proof.
  intros Htx Hid. unfold page_iteration, process_page, identity in *.
  unfold bind at 1. unfold lift at 1.
  destruct (load_page_json f) as [page|e].
  - unfold bind at 1. unfold lift at 1.
    destruct (extract_page_identity page) as [[[page_id title] revid]|e];
      [done|]. unfold rollback. by rewrite Htx.
  - unfold rollback. by rewrite Htx.
Qed.

End OnePage.

(* ===================================================================== *)
(** * The page loop *)
(* ===================================================================== *)

Section PageLoop.
Context `{Platform}.
Variables (do_embed : bool) (model_name : str) (P : provider).

Abbreviation run_pages' := (run_pages do_embed model_name P).
Abbreviation build_database' := (build_database do_embed model_name P).

Lemma run_pages_cons f rest w c :
  run_pages' (f :: rest) w c =
  match page_iteration do_embed model_name P w c f with
  | (w', c', None) => run_pages' rest w' c'
  | (w', c', Some e) => (w', c', Some e)
  end.
Proof. done. Qed.

(** C3 (the code breaks it). A page that fails before its transaction
    is opened — it does not load, or its identity cannot be extracted —
    stops the whole batch: the handler's [ROLLBACK] raises
    [OperationalError], no later page is processed. *)
Theorem identity_error_aborts_batch f rest w c :
  tx w = None → identity f = None →
  run_pages' (f :: rest) w c = (w, c, Some OperationalError).
Proof.
  intros Htx Hid. rewrite run_pages_cons.
  by rewrite page_iteration_no_identity.
Qed.

(** C8 (the code breaks its second sentence). A run over a page
    document without ["revid"] ends with [OperationalError] leaving
    [build_database]: no row is created, and the page is not among the
    reported errors either. *)
Theorem missing_revid_not_reported s :
  build_database' [broken_file] s
  = (s, Crashed OperationalError (mkCounters 0 0 [])).
Proof.
  unfold build_database.
  change (iter_page_json_files [broken_file]) with [broken_file].
  cbn [run_pages]. rewrite page_iteration_no_identity; [done|done|].
  unfold identity. simpl. unfold extract_page_identity. simpl.
  done.
Qed.

Lemma identity_Some f page_id revid :
  identity f = Some (page_id, revid) ↔
  ∃ page title, load_page_json f = Ok page
                ∧ extract_page_identity page = Ok (page_id, title, revid).
Proof.
  unfold identity. split.
  - destruct (load_page_json f) as [page|]; [|done].
    destruct (extract_page_identity page) as [[[p t] r]|] eqn:E; [|done].
    intros [= <- <-]. eauto.
  - intros (page & title & -> & ->). done.
Qed.

Lemma iteration_identity f w c w' c' r :
  iteration f w c w' c' r → r = None → errors c' = errors c →
  stored f (db w')
  ∧ ∃ page_id revid, identity f = Some (page_id, revid)
      ∧ ∀ p, p ≠ page_id → page_tbl (db w') !! p = page_tbl (db w) !! p.
Proof.
  intros Hit Hr He.
  destruct Hit as [Hs|w' page page_id title revid blocks new Hl Hx Hb Hf Hp Hc Hn Hm
                  |w' e Hd|w' Hd].
  - split; [done|]. destruct Hs as (p & rv & t & Hid & _).
    by exists p, rv.
  - assert (identity f = Some (page_id, revid)) as Hid
      by (apply identity_Some; eauto).
    split.
    + exists page_id, revid, title. repeat split; [done|done|].
      rewrite Hp. apply lookup_insert_eq.
    + exists page_id, revid. split; [done|]. intros p Hne.
      rewrite Hp. by apply lookup_insert_ne.
  - simpl in He. apply (f_equal (@length _)) in He.
    rewrite length_app in He. simpl in He. lia.
  - done.
Qed.

Lemma iteration_other_pages f w c w' c' r p :
  iteration f w c w' c' r → p ∉ page_ids [f] →
  page_tbl (db w') !! p = page_tbl (db w) !! p.
Proof.
  intros Hit Hnp.
  destruct Hit as [Hs|w' page page_id title revid blocks new Hl Hx Hb Hf Hp Hc Hn Hm
                  |w' e Hd|w' Hd]; [done| |by rewrite Hd..].
  assert (identity f = Some (page_id, revid)) as Hid
    by (apply identity_Some; eauto).
  rewrite Hp. apply lookup_insert_ne. intros ->. apply Hnp.
  unfold page_ids. simpl. rewrite Hid. simpl. by left.
Qed.

Lemma iteration_errors f w c w' c' r :
  iteration f w c w' c' r → ∃ more, errors c' = errors c ++ more.
Proof.
  intros Hit. destruct Hit; simpl; eauto using app_nil_r.
  all: exists []; by rewrite app_nil_r.
Qed.

Lemma run_pages_errors files w c w' c' r :
  tx w = None → run_pages' files w c = (w', c', r) →
  tx w' = None ∧ ∃ more, errors c' = errors c ++ more.
Proof.
  revert w c. induction files as [|f rest IH]; intros w c Htx Hrun.
  - simpl in Hrun. simplify_eq. split; [done|]. exists []. by rewrite app_nil_r.
  - rewrite run_pages_cons in Hrun.
    destruct (page_iteration_spec do_embed model_name P f w c Htx)
      as (w1 & c1 & r1 & Heq & Htx1 & Hit).
    rewrite Heq in Hrun. apply iteration_errors in Hit as [m1 Hm1].
    destruct r1 as [e|].
    + simplify_eq. split; [done|]. by exists m1.
    + destruct (IH _ _ Htx1 Hrun) as [? [m2 Hm2]]. split; [done|].
      exists (m1 ++ m2). by rewrite Hm2, Hm1, app_assoc.
Qed.

Lemma run_pages_other_pages files w c w' c' r p :
  tx w = None → run_pages' files w c = (w', c', r) → p ∉ page_ids files →
  page_tbl (db w') !! p = page_tbl (db w) !! p.
Proof.
  revert w c. induction files as [|f rest IH]; intros w c Htx Hrun Hp.
  - simpl in Hrun. by simplify_eq.
  - rewrite run_pages_cons in Hrun.
    destruct (page_iteration_spec do_embed model_name P f w c Htx)
      as (w1 & c1 & r1 & Heq & Htx1 & Hit).
    rewrite Heq in Hrun.
    assert ((p ∉ page_ids [f]) ∧ (p ∉ page_ids rest)) as [Hp1 Hp2].
    { unfold page_ids in *. simpl in *.
      destruct (fst <$> identity f) as [z|].
      - apply not_elem_of_cons in Hp as [Hz Hp]. split; [|done].
        apply not_elem_of_cons. split; [done|apply not_elem_of_nil].
      - split; [apply not_elem_of_nil|done]. }
    pose proof (iteration_other_pages _ _ _ _ _ _ _ Hit Hp1) as Hq.
    destruct r1 as [e|]; [by simplify_eq|].
    rewrite <- Hq. by eapply IH.
Qed.

(** After a run without any error, every page is stored at the
    revision of its file, provided no two files share a page id. *)
Lemma run_pages_all_stored files w c w' c' :
  tx w = None → run_pages' files w c = (w', c', None) →
  errors c' = errors c → NoDup (page_ids files) →
  Forall (λ f, stored f (db w')) files.
Proof.
  revert w c. induction files as [|f rest IH]; intros w c Htx Hrun He Hnd;
    [done|].
  rewrite run_pages_cons in Hrun.
  destruct (page_iteration_spec do_embed model_name P f w c Htx)
    as (w1 & c1 & r1 & Heq & Htx1 & Hit).
  rewrite Heq in Hrun. destruct r1 as [e|]; [done|].
  destruct (run_pages_errors _ _ _ _ _ _ Htx1 Hrun) as [_ [m2 Hm2]].
  destruct (iteration_errors _ _ _ _ _ _ Hit) as [m1 Hm1].
  assert (errors c1 = errors c) as He1.
  { rewrite Hm2, Hm1, <- app_assoc in He.
    rewrite <- (app_nil_r (errors c)) in He at 2.
    apply app_inv_head in He. apply app_eq_nil in He as [-> _].
    by rewrite Hm1, app_nil_r. }
  destruct (iteration_identity _ _ _ _ _ _ Hit eq_refl He1)
    as [(p & rv & t & Hid & Hb & Hl) _].
  assert (Hnd' : (p ∉ page_ids rest) ∧ NoDup (page_ids rest)).
  { unfold page_ids in Hnd |- *. simpl in Hnd. rewrite Hid in Hnd.
    simpl in Hnd. by apply NoDup_cons in Hnd. }
  destruct Hnd' as [Hp Hnd'].
  constructor.
  - exists p, rv, t. repeat split; [done|done|].
    rewrite <- Hl. by eapply run_pages_other_pages.
  - eapply IH; [done|done|congruence|done].
Qed.

(** A page already stored at the revision of its file is skipped and
    nothing is written. *)
Lemma page_iteration_stored f w c :
  stored f (db w) →
  page_iteration do_embed model_name P w c f
  = (w, mkCounters (updated_pages c) (S (skipped_pages c)) (errors c), None).
Proof.
  intros (p & rv & t & Hid & Hb & Hl).
  apply identity_Some in Hid as (page & title & Hload & Hex).
  unfold page_iteration, process_page.
  unfold bind at 1. unfold lift at 1. rewrite Hload.
  unfold bind at 1. unfold lift at 1. rewrite Hex.
  unfold bind at 1. rewrite get_existing_page_eval, Hb, Hl.
  by rewrite Z.eqb_refl.
Qed.

Lemma run_pages_stored files w c :
  Forall (λ f, stored f (db w)) files →
  run_pages' files w c
  = (w, mkCounters (updated_pages c) (skipped_pages c + length files)
          (errors c), None).
Proof.
  revert c. induction files as [|f rest IH]; intros c Hs.
  - simpl. rewrite Nat.add_0_r. by destruct c.
  - apply Forall_cons in Hs as [Hf Hr]. rewrite run_pages_cons.
    rewrite page_iteration_stored by done. rewrite IH by done.
    simpl. do 3 f_equal. lia.
Qed.

End PageLoop.

Lemma identity_error_aborts_batch_witness :
  run_pages (H := example_platform) false (lit "bge-m3") no_provider
    [broken_file; bomb_file] (connect_db empty_store) (mkCounters 0 0 [])
  = (connect_db empty_store, mkCounters 0 0 [], Some OperationalError).
Proof.
  apply (identity_error_aborts_batch (H := example_platform)); reflexivity.
Defined.

(* ===================================================================== *)
(** * Running the build twice *)
(* ===================================================================== *)

Section Rerun.
Context `{Platform}.
Variables (do_embed : bool) (model_name : str) (P P' : provider).


End Rerun.



(* ===================================================================== *)
(** * Chunk indices *)
(* ===================================================================== *)

Lemma chunk_blocks_indices blocks :
  map chunk_index (chunk_blocks blocks) = seq 0 (length (chunk_blocks blocks)).
Proof.
  unfold chunk_blocks. by rewrite reindex_index, length_reindex.
Qed.

Lemma chunk_blocks_content blocks :
  content (map chunk_text (chunk_blocks blocks)) = content (map text blocks).
Proof.
  unfold chunk_blocks.
  by rewrite reindex_text, merge_small_content, pack_blocks_content.
Qed.

Lemma filter_of_other_page p q rows :
  p ≠ q →
  List.filter (chunk_of_page p)
    (List.filter (λ r, negb (chunk_of_page q r)) rows)
  = List.filter (chunk_of_page p) rows.
Proof.
  intros Hne. induction rows as [|r rows IH]; [done|]. simpl.
  destruct (chunk_of_page q r) eqn:Eq, (chunk_of_page p r) eqn:Ep; simpl;
    rewrite ?Ep, ?IH; try done.
  unfold chunk_of_page in Eq, Ep. apply Z.eqb_eq in Eq, Ep. congruence.
Qed.

Lemma filter_of_same_page p rows :
  List.filter (chunk_of_page p)
    (List.filter (λ r, negb (chunk_of_page p r)) rows) = [].
Proof.
  induction rows as [|r rows IH]; [done|]. simpl.
  destruct (chunk_of_page p r) eqn:E; simpl; [done|]. by rewrite E.
Qed.

Lemma filter_of_page_all p rows :
  Forall (λ r, c_page_id r = p) rows → List.filter (chunk_of_page p) rows = rows.
Proof.
  induction 1 as [|r rows Hr _ IH]; [done|]. simpl. unfold chunk_of_page at 1.
  rewrite Hr, Z.eqb_refl. by rewrite IH.
Qed.

Lemma filter_of_page_none p q rows :
  p ≠ q → Forall (λ r, c_page_id r = q) rows →
  List.filter (chunk_of_page p) rows = [].
Proof.
  intros Hne. induction 1 as [|r rows Hr _ IH]; [done|]. simpl.
  unfold chunk_of_page at 1. rewrite Hr.
  destruct (q =? p)%Z eqn:E; [|done]. apply Z.eqb_eq in E. congruence.
Qed.

Section Contiguity.
Context `{Platform}.
Variables (do_embed : bool) (model_name : str) (P : provider).

(** The rows a rebuild leaves for its page are the chunks of the
    page's blocks; the rows of the other pages are left alone. *)
Lemma rebuilt_page_chunks (w w' : world) page_id new chunks p :
  chunk_tbl (db w') =
    List.filter (λ r, negb (chunk_of_page page_id r)) (chunk_tbl (db w)) ++ new →
  Forall (λ r, c_page_id r = page_id) new →
  map tuple_of_row new = chunks →
  page_chunks (db w') p
  = if decide (p = page_id) then chunks else page_chunks (db w) p.
Proof.
  intros Hc Hn Hm. unfold page_chunks, rows_of. rewrite Hc, List.filter_app.
  case_decide as Hp.
  - subst p. rewrite filter_of_same_page.
    by rewrite (filter_of_page_all page_id new Hn).
  - rewrite (filter_of_other_page p page_id _ Hp).
    rewrite (filter_of_page_none p page_id new Hp Hn). by rewrite app_nil_r.
Qed.

Lemma iteration_well_indexed f w c w' c' r :
  iteration f w c w' c' r → well_indexed (db w) → well_indexed (db w').
Proof.
  intros Hit Hw.
  destruct Hit as [Hs|w' page page_id title revid blocks new Hl Hx Hb Hf Hp Hc Hn Hm
                  |w' e Hd|w' Hd]; [done| |by rewrite Hd..].
  intros p. rewrite (rebuilt_page_chunks w w' page_id new _ p Hc Hn Hm).
  case_decide; [apply chunk_blocks_indices|apply Hw].
Qed.

Lemma run_pages_well_indexed files w c w' c' r :
  tx w = None → run_pages do_embed model_name P files w c = (w', c', r) →
  well_indexed (db w) → well_indexed (db w').
Proof.
  revert w c. induction files as [|f rest IH]; intros w c Htx Hrun Hw.
  - simpl in Hrun. by simplify_eq.
  - rewrite run_pages_cons in Hrun.
    destruct (page_iteration_spec do_embed model_name P f w c Htx)
      as (w1 & c1 & r1 & Heq & Htx1 & Hit).
    rewrite Heq in Hrun. apply iteration_well_indexed in Hit; [|done].
    destruct r1 as [e|]; [by simplify_eq|]. by eapply IH.
Qed.

(** C5. A run of [build_database] on a store whose pages all have the
    chunk indices [0 .. n-1] leaves such a store; the rows a rebuilt
    page gets are, in rowid order, the chunks [chunk_blocks] returns
    for the page's blocks; and that list carries the indices
    [0 .. n-1] in its own order, which is the order of the blocks: the
    non-whitespace characters of the chunk texts, read in index order,
    are those of the block texts read in source order. *)
Theorem chunk_index_contiguity folder s :
  well_indexed s →
  well_indexed (build_database do_embed model_name P folder s).1
  ∧ (∀ f w w',
       tx w = None →
       process_page do_embed model_name P f w = (w', Ok Rebuilt) →
       ∃ page page_id title revid blocks,
         load_page_json f = Ok page
         ∧ extract_page_identity page = Ok (page_id, title, revid)
         ∧ flatten_sections_to_blocks page = Ok blocks
         ∧ page_chunks (db w') page_id = chunk_blocks blocks)
  ∧ (∀ blocks,
       map chunk_index (chunk_blocks blocks)
       = seq 0 (length (chunk_blocks blocks))
       ∧ content (map chunk_text (chunk_blocks blocks))
         = content (map text blocks)).
Proof.
  intros Hs. split; [|split].
  - unfold build_database.
    destruct (iter_page_json_files folder) as [|f rest]; [done|].
    destruct (run_pages _ _ _ _ _ _) as [[w' c'] r] eqn:Er.
    assert (Htx0 : tx (connect_db s) = None) by done.
    destruct (run_pages_errors _ _ _ _ _ _ _ _ _ Htx0 Er) as [Htx _].
    assert (well_indexed (db w'))
      by (eapply run_pages_well_indexed; [exact Htx0|exact Er|exact Hs]).
    unfold committed. destruct r; simpl; by rewrite Htx.
  - intros f w w' Htx Hp.
    pose proof (process_page_spec do_embed model_name P f w Htx) as Hspec.
    rewrite Hp in Hspec.
    destruct Hspec as (_ & page & page_id & title & revid & blocks & new
                       & Hl & Hx & _ & Hf & _ & Hc & Hn & Hm).
    exists page, page_id, title, revid, blocks. repeat split; [done..|].
    rewrite (rebuilt_page_chunks w w' page_id new _ page_id Hc Hn Hm).
    by case_decide.
  - intros blocks. split; [apply chunk_blocks_indices|apply chunk_blocks_content].
Qed.

End Contiguity.

Lemma chunk_index_contiguity_witness :
  well_indexed
    (build_database (H := example_platform) false (lit "bge-m3") no_provider
       [anchor_file; bomb_file] empty_store).1.
Proof.
  apply (chunk_index_contiguity (H := example_platform) false (lit "bge-m3")
           no_provider [anchor_file; bomb_file] empty_store).
  intros p. reflexivity.
Defined.

(* ===================================================================== *)
(** * Vectors as blobs *)
(* ===================================================================== *)

Lemma byte_bit x k n :
  (0 ≤ k)%Z → (0 ≤ n)%Z →
  Z.testbit (Z.shiftl (Z.land (Z.shiftr x k) 255) k) n
  = if ((k <=? n) && (n <? k + 8))%Z then Z.testbit x n else false.
Proof.
  intros Hk Hn. rewrite Z.shiftl_spec by done.
  destruct (k <=? n)%Z eqn:E1; simpl.
  - apply Z.leb_le in E1. rewrite Z.land_spec, Z.shiftr_spec by lia.
    replace (n - k + k)%Z with n by lia. change 255%Z with (Z.ones 8).
    destruct (n <? k + 8)%Z eqn:E2.
    + apply Z.ltb_lt in E2. rewrite Z.ones_spec_low by lia. apply andb_true_r.
    + apply Z.ltb_ge in E2. rewrite Z.ones_spec_high by lia. apply andb_false_r.
  - apply Z.leb_gt in E1. apply Z.testbit_neg_r. lia.
Qed.

Lemma u32_high_bits x n : is_u32 x → (32 ≤ n)%Z → Z.testbit x n = false.
Proof.
  intros [H0 H1] Hn. destruct (decide (x = 0%Z)) as [->|Hx].
  - apply Z.testbit_0_l.
  - apply Z.bits_above_log2; [done|].
    assert (Z.log2 x < 32)%Z by (apply Z.log2_lt_pow2; lia). lia.
Qed.

Lemma u32_of_its_bytes x :
  is_u32 x →
  Z.lor (Z.land x 255)
    (Z.lor (Z.shiftl (Z.land (Z.shiftr x 8) 255) 8)
       (Z.lor (Z.shiftl (Z.land (Z.shiftr x 16) 255) 16)
          (Z.shiftl (Z.land (Z.shiftr x 24) 255) 24))) = x.
Proof.
  intros Hx. apply Z.bits_inj'. intros n Hn.
  replace (Z.land x 255) with (Z.shiftl (Z.land (Z.shiftr x 0) 255) 0)
    by (by rewrite Z.shiftr_0_r, Z.shiftl_0_r).
  rewrite !Z.lor_spec, !byte_bit by lia.
  destruct (Z.lt_ge_cases n 32) as [Hlt|Hge].
  - repeat case_match;
      repeat match goal with
             | E : (_ && _) = true |- _ => apply andb_true_iff in E as [? ?]
             | E : (_ && _) = false |- _ => apply andb_false_iff in E
             | E : (_ <=? _)%Z = true |- _ => apply Z.leb_le in E
             | E : (_ <? _)%Z = true |- _ => apply Z.ltb_lt in E
             end;
      rewrite ?orb_false_r, ?orb_true_r, ?orb_diag; try done;
      exfalso;
      repeat match goal with
             | E : _ ∨ _ |- _ => destruct E
             | E : (_ <=? _)%Z = false |- _ => apply Z.leb_gt in E
             | E : (_ <? _)%Z = false |- _ => apply Z.ltb_ge in E
             end; lia.
  - rewrite (u32_high_bits x n Hx Hge). by repeat case_match.
Qed.

Lemma bytes_of_u32_round_trip o x :
  is_u32 x →
  ∀ rest, blob_to_vec_f32 o (bytes_of_u32 o x ++ rest)
          = x :: blob_to_vec_f32 o rest.
Proof.
  intros Hx rest. destruct o; simpl; by rewrite u32_of_its_bytes.
Qed.

Lemma bytes_of_u32_bytes o x : Forall is_byte (bytes_of_u32 o x).
Proof.
  assert (∀ y, is_byte (Z.land y 255)) as Hb.
  { intros y. unfold is_byte. change 255%Z with (Z.ones 8).
    rewrite Z.land_ones by lia. apply Z.mod_pos_bound. lia. }
  destruct o; simpl; repeat constructor; apply Hb.
Qed.

Section Blobs.
Context `{Platform}.

Lemma length_vec_to_blob_f32 items :
  length (vec_to_blob_f32 (mkArray Float32 items)) = 4 * length items.
Proof.
  unfold vec_to_blob_f32. simpl.
  induction items as [|x items IH]; [done|]. simpl concat.
  rewrite length_app, IH. destruct native_order; simpl; lia.
Qed.

(** C9. Encoding a float32 vector gives exactly four bytes per
    component, and reading the bytes back as float32 gives the bit
    patterns of the components again. *)
Theorem vector_round_trip items :
  Forall is_u32 items →
  let blob := vec_to_blob_f32 (mkArray Float32 items) in
  length blob = 4 * length items
  ∧ blob_f32_dim blob = length items
  ∧ Forall is_byte blob
  ∧ blob_to_vec_f32 native_order blob = items.
Proof.
  intros Hitems. cbv zeta.
  pose proof (length_vec_to_blob_f32 items) as Hlen.
  split; [done|]. split.
  { unfold blob_f32_dim. rewrite Hlen, Nat.mul_comm. by apply Nat.div_mul. }
  unfold vec_to_blob_f32. simpl. clear Hlen. split.
  - induction items as [|x items IH]; [done|]. simpl.
    apply Forall_app. split; [apply bytes_of_u32_bytes|].
    apply IH. by apply Forall_cons in Hitems as [_ ?].
  - induction Hitems as [|x items Hx _ IH]; [done|]. simpl.
    by rewrite bytes_of_u32_round_trip, IH.
Qed.

Lemma upsert_embedding_effect row w :
  match upsert_embedding row w with
  | (w', Ok _) =>
      embedding_tbl (db w') = write_row (embedding_tbl (db w)) row
      ∧ chunk_tbl (db w') = chunk_tbl (db w)
      ∧ model_tbl (db w') = model_tbl (db w)
  | (_, Raise e) => e = OverflowError ∨ e = IntegrityError
  end.
Proof.
  destruct row as [[[cid mid] vec] norm].
  unfold upsert_embedding. unfold_m. simpl. step_m; auto.
Qed.

Lemma executemany_effect rows w :
  match executemany upsert_embedding rows w with
  | (w', Ok _) =>
      embedding_tbl (db w') = fold_left write_row rows (embedding_tbl (db w))
  | (_, Raise e) => e = OverflowError ∨ e = IntegrityError
  end.
Proof.
  revert w. induction rows as [|row rows IH]; intros w; [done|].
  cbn [executemany fold_left]. unfold bind at 1.
  pose proof (upsert_embedding_effect row w) as Hr.
  destruct (upsert_embedding row w) as [w1 [[]|e]]; [|done].
  destruct Hr as (He & _). specialize (IH w1). rewrite He in IH.
  by destruct (executemany upsert_embedding rows w1) as [w2 [[]|e]].
Qed.

Lemma upsert_embedding_ok row w :
  writable (db w) row →
  upsert_embedding row w
  = (mkWorld (mkStore (page_tbl (db w)) (chunk_tbl (db w)) (chunk_seq (db w))
                (model_tbl (db w)) (model_seq (db w))
                (write_row (embedding_tbl (db w)) row))
       (tx w) (requests w), Ok tt).
Proof.
  destruct row as [[[cid mid] vec] norm].
  intros (Hc & Hm & Hn & Hhc & Hhm).
  unfold upsert_embedding, bind, lift, get_world, set_db, raise.
  rewrite Hc, Hm. simpl. rewrite Hhc, Hhm. simpl. by destruct norm.
Qed.

Lemma writable_same s s' row :
  chunk_tbl s' = chunk_tbl s → model_tbl s' = model_tbl s →
  writable s row → writable s' row.
Proof.
  destruct row as [[[cid mid] vec] norm]. unfold writable, has_chunk, has_model.
  by intros -> ->.
Qed.

Lemma executemany_ok rows w :
  Forall (writable (db w)) rows →
  executemany upsert_embedding rows w
  = (mkWorld (mkStore (page_tbl (db w)) (chunk_tbl (db w)) (chunk_seq (db w))
                (model_tbl (db w)) (model_seq (db w))
                (fold_left write_row rows (embedding_tbl (db w))))
       (tx w) (requests w), Ok tt).
Proof.
  revert w. induction rows as [|row rows IH]; intros w Hw.
  - simpl. unfold ret. by destruct w as [[] ? ?].
  - apply Forall_cons in Hw as [Hr Hw]. cbn [executemany fold_left].
    unfold bind at 1. rewrite upsert_embedding_ok by done.
    rewrite IH; [done|]. simpl.
    eapply Forall_impl; [exact Hw|]. intros r. by apply writable_same.
Qed.

Lemma fold_write_row_snoc t rows row :
  fold_left write_row (rows ++ [row]) t
  = write_row (fold_left write_row rows t) row.
Proof. by rewrite fold_left_app. Qed.

Lemma write_row_lookup t row key :
  write_row t row !! key
  = if decide (key = row_key row) then Some (row.1.2, row.2) else t !! key.
Proof.
  destruct row as [[[cid mid] vec] norm]. unfold write_row, row_key. simpl.
  case_decide as Hk.
  - subst key. apply lookup_insert_eq.
  - apply lookup_insert_ne. congruence.
Qed.

Lemma fold_write_row_other t rows key :
  key ∉ map row_key rows → fold_left write_row rows t !! key = t !! key.
Proof.
  induction rows as [|row rows IH] using rev_ind; [done|].
  rewrite map_app, not_elem_of_app. simpl. intros [Hr Hk].
  rewrite fold_write_row_snoc, write_row_lookup.
  case_decide as Hd; [|by apply IH].
  destruct Hk. subst key. by left.
Qed.

Lemma fold_write_row_written t rows i row :
  NoDup (map row_key rows) → rows !! i = Some row →
  fold_left write_row rows t !! row_key row = Some (row.1.2, row.2).
Proof.
  revert i. induction rows as [|r rows IH] using rev_ind; intros i; [done|].
  rewrite map_app. simpl. intros [Hnd [Hdis _]]%NoDup_app Hi.
  rewrite fold_write_row_snoc, write_row_lookup.
  case_decide as Hd.
  - destruct (decide (i < length rows)) as [Hlt|Hge].
    + rewrite lookup_app_l in Hi by done.
      destruct (Hdis (row_key row)).
      * apply list_elem_of_fmap. exists row. split; [done|].
        by eapply list_elem_of_lookup_2.
      * rewrite Hd. by left.
    + rewrite lookup_app_r in Hi by lia.
      destruct (i - length rows) as [|j]; [|by destruct j].
      simpl in Hi. by injection Hi as ->.
  - destruct (decide (i < length rows)) as [Hlt|Hge].
    + rewrite lookup_app_l in Hi by done. by eapply IH.
    + rewrite lookup_app_r in Hi by lia.
      destruct (i - length rows) as [|j]; [|by destruct j].
      simpl in Hi. injection Hi as ->. done.
Qed.

Lemma embedding_rows_keys model_id chunk_ids vectors :
  map row_key (embedding_rows model_id chunk_ids vectors)
  = map (λ c, (c, model_id))
      (take (min (length chunk_ids) (length vectors)) chunk_ids).
Proof.
  unfold embedding_rows. revert vectors.
  induction chunk_ids as [|c cs IH]; intros [|v vs]; simpl; try done.
  by rewrite IH.
Qed.

(** C10. [insert_embeddings] builds one parameter row per position
    that both lists have, the [i]-th row pairing the [i]-th chunk id
    with the blob and norm of the [i]-th vector, and behaves as on the
    two lists cut to the shorter length: what one list has beyond the
    other is ignored. When every row is writable — identifiers that fit
    an SQLite integer, a norm that is a number, an existing chunk and
    model — the call returns: it leaves every other key of the
    embedding table alone and, the paired chunk ids being distinct, the
    table then holds under [(chunk_ids[i], model_id)] the blob and norm
    of [vectors[i]] for every position both lists have. On any store,
    when it returns the table has received exactly these rows, in
    order; when it raises, the exception comes from a statement
    ([OverflowError] of a bound integer, [IntegrityError] of a
    constraint), never from the lengths. *)
Theorem insert_embeddings_pairs model_id chunk_ids vectors :
  let rows := embedding_rows model_id chunk_ids vectors in
  let k := min (length chunk_ids) (length vectors) in
  length rows = k
  ∧ (∀ i, rows !! i =
          match chunk_ids !! i, vectors !! i with
          | Some chunk_id, Some vec =>
              Some (chunk_id, model_id,
                    vec_to_blob_f32 (mkArray Float32 vec),
                    l2_norm_f32 (mkArray Float32 vec))
          | _, _ => None
          end)
  ∧ insert_embeddings model_id chunk_ids vectors
    = insert_embeddings model_id (take k chunk_ids) (take k vectors)
  ∧ (∀ w, match insert_embeddings model_id chunk_ids vectors w with
          | (w', Ok _) =>
              embedding_tbl (db w')
              = fold_left write_row rows (embedding_tbl (db w))
          | (_, Raise e) => e = OverflowError ∨ e = IntegrityError
          end)
  ∧ ∀ w, Forall (writable (db w)) rows →
      ∃ w', insert_embeddings model_id chunk_ids vectors w = (w', Ok tt)
        ∧ chunk_tbl (db w') = chunk_tbl (db w)
        ∧ model_tbl (db w') = model_tbl (db w)
        ∧ (∀ key, key ∉ map (λ c, (c, model_id)) (take k chunk_ids) →
             embedding_tbl (db w') !! key = embedding_tbl (db w) !! key)
        ∧ (NoDup (take k chunk_ids) →
           ∀ i chunk_id vec,
             chunk_ids !! i = Some chunk_id → vectors !! i = Some vec →
             embedding_tbl (db w') !! (chunk_id, model_id)
             = Some (vec_to_blob_f32 (mkArray Float32 vec),
                     l2_norm_f32 (mkArray Float32 vec))).
Proof.
  cbv zeta.
  assert (Hrows : ∀ i, embedding_rows model_id chunk_ids vectors !! i =
          match chunk_ids !! i, vectors !! i with
          | Some chunk_id, Some vec =>
              Some (chunk_id, model_id,
                    vec_to_blob_f32 (mkArray Float32 vec),
                    l2_norm_f32 (mkArray Float32 vec))
          | _, _ => None
          end).
  { intros i. unfold embedding_rows. rewrite lookup_zip_with.
    by destruct (chunk_ids !! i), (vectors !! i). }
  split; [|split; [|split; [|split]]].
  - apply length_zip_with.
  - exact Hrows.
  - unfold insert_embeddings, embedding_rows. by rewrite zip_with_take_both'.
  - intros w. unfold insert_embeddings, bind, implicit_begin.
    apply (executemany_effect _ (mkWorld (db w) (Some (committed w)) (requests w))).
  - intros w Hw. unfold insert_embeddings, bind, implicit_begin.
    rewrite executemany_ok by done. eexists. split; [done|]. simpl.
    split; [done|]. split; [done|]. split.
    + intros key Hk. apply fold_write_row_other.
      by rewrite embedding_rows_keys.
    + intros Hnd i chunk_id vec Hc Hv.
      pose proof (Hrows i) as Hi. rewrite Hc, Hv in Hi.
      apply (fold_write_row_written (embedding_tbl (db w))) in Hi; [done|].
      rewrite embedding_rows_keys. apply NoDup_fmap_2; [|done].
      intros x y [=]. done.
Qed.

End Blobs.

Lemma insert_embeddings_pairs_witness :
  ∃ w', insert_embeddings (H := example_platform) 1 [1; 2; 3]%Z
          [[0]; [1]]%Z embedding_ready = (w', Ok tt)
    ∧ chunk_tbl (db w') = chunk_tbl (db embedding_ready)
    ∧ model_tbl (db w') = model_tbl (db embedding_ready)
    ∧ (∀ key, key ∉ map (λ c, (c, 1%Z)) (take 2 [1; 2; 3]%Z) →
         embedding_tbl (db w') !! key
         = embedding_tbl (db embedding_ready) !! key)
    ∧ (NoDup (take 2 [1; 2; 3]%Z) →
       ∀ i chunk_id vec,
         [1; 2; 3]%Z !! i = Some chunk_id → [[0]; [1]]%Z !! i = Some vec →
         embedding_tbl (db w') !! (chunk_id, 1%Z)
         = Some (vec_to_blob_f32 (H := example_platform) (mkArray Float32 vec),
                 l2_norm_f32 (H := example_platform) (mkArray Float32 vec))).
Proof.
  destruct (insert_embeddings_pairs (H := example_platform) 1 [1; 2; 3]%Z
              [[0]; [1]]%Z) as (_ & _ & _ & _ & Hok).
  apply Hok. repeat constructor; discriminate.
Defined.

Lemma vector_round_trip_witness :
  blob_to_vec_f32 LittleEndian
    (vec_to_blob_f32 (H := example_platform)
       (mkArray Float32 [1065353216; 3212836864; 2143289344]%Z))
  = [1065353216; 3212836864; 2143289344]%Z.
Proof.
  apply (vector_round_trip (H := example_platform)
           [1065353216; 3212836864; 2143289344]%Z).
  repeat constructor; unfold is_u32; lia.
Defined.

(* ===================================================================== *)
(** * More on whitespace normalisation *)
(* ===================================================================== *)

Lemma strip_ends s :
  (∀ c r, strip s = c :: r → isspace c = false)
  ∧ (∀ c, last (strip s) = Some c → isspace c = false).
Proof.
  unfold strip. destruct (rstrip_prefix (lstrip s)) as [a Ha]. split.
  - intros c r Hp. rewrite Hp in Ha. by eapply (drop_while_head isspace s).
  - intros c. apply rstrip_last.
Qed.

Lemma strip_strip s : strip (strip s) = strip s.
Proof. destruct (strip_ends s) as [Hh Hl]. by apply strip_fix. Qed.

Lemma normalize_ws_fixed q : normalize_ws (normalize_ws q) = normalize_ws q.
Proof.
  destruct (normalize_ws_normal q) as (H1 & H2 & Hh & Hl). simpl in *.
  unfold normalize_ws at 1, sub_hspace, sub_newlines.
  rewrite hs_norm_fix by done. rewrite nl_norm_fix by done.
  by apply strip_fix.
Qed.

Lemma hs_norm_lookup b s i :
  hs_norm b s →
  s !! i ≠ Some 9%N ∧ ¬ (s !! i = Some 32%N ∧ s !! S i = Some 32%N).
Proof.
  revert b i. induction s as [|c r IH]; intros b i Hn.
  { split; [by destruct i|]. by intros [? _]. }
  destruct Hn as (H9 & H32 & Hr). destruct i as [|i]; simpl.
  - split; [congruence|]. intros [[= ->] Hnext].
    destruct r as [|d t]; [done|]. simpl in Hnext. injection Hnext as ->.
    destruct Hr as (_ & Hd & _). specialize (Hd eq_refl). done.
  - by apply (IH _ i) in Hr.
Qed.

Lemma nl_norm_lookup n s i :
  nl_norm n s →
  ¬ (s !! i = Some 10%N ∧ s !! S i = Some 10%N ∧ s !! S (S i) = Some 10%N).
Proof.
  revert n i. induction s as [|c r IH]; intros n i Hn; [by intros [? _]|].
  destruct i as [|i]; simpl.
  - intros ([= ->] & H1 & H2). destruct r as [|d [|e t]]; try done.
    simpl in H1, H2. injection H1 as ->. injection H2 as ->.
    simpl in Hn. lia.
  - simpl in Hn. destruct (is_nl c); [destruct Hn as [_ Hn]|]; by eapply IH.
Qed.

(** X1. [normalize_ws] is idempotent: normalising a normalised text
    changes nothing. *)
Theorem normalize_ws_idempotent s :
  normalize_ws (normalize_ws s) = normalize_ws s.
Proof. apply normalize_ws_fixed. Qed.

(** X2. The result of [normalize_ws] holds no tab, no two spaces in a
    row, no three newlines in a row, and neither starts nor ends with a
    whitespace character. *)
Theorem normalize_ws_shape s :
  (∀ i, normalize_ws s !! i ≠ Some 9%N)
  ∧ (∀ i, ¬ (normalize_ws s !! i = Some 32%N
             ∧ normalize_ws s !! S i = Some 32%N))
  ∧ (∀ i, ¬ (normalize_ws s !! i = Some 10%N
             ∧ normalize_ws s !! S i = Some 10%N
             ∧ normalize_ws s !! S (S i) = Some 10%N))
  ∧ (∀ c, head (normalize_ws s) = Some c → isspace c = false)
  ∧ (∀ c, last (normalize_ws s) = Some c → isspace c = false).
Proof.
  destruct (normalize_ws_normal s) as (H1 & H2 & Hh & Hl). simpl in *.
  repeat split.
  - intros i. by apply (hs_norm_lookup false).
  - intros i. by apply (hs_norm_lookup false).
  - intros i. by apply (nl_norm_lookup 0).
  - intros c Hc. destruct (normalize_ws s) as [|d r] eqn:E; [done|].
    injection Hc as ->. by eapply Hh.
  - done.
Qed.

(** X3. [normalize_ws] only touches whitespace: the characters that are
    not whitespace come out unchanged and in order, and the result is
    never longer than the input. *)
Theorem normalize_ws_keeps_characters s :
  nonws (normalize_ws s) = nonws s
  ∧ length (normalize_ws s) ≤ length s.
Proof. split; [apply nonws_normalize_ws|apply length_normalize_ws]. Qed.

(* ===================================================================== *)
(** * Chunk texts are never blank *)
(* ===================================================================== *)

Lemma tidy_normalize_ws q : normalize_ws q ≠ [] → tidy (normalize_ws q).
Proof. intros Hne. split; [done|apply normalize_ws_fixed]. Qed.

(** A tidy text starts with a character that is not whitespace. *)
Lemma tidy_nonws s : tidy s → nonws s ≠ [].
Proof.
  intros [Hne Hfix].
  destruct (normalize_ws_normal s) as (_ & _ & Hh & _). simpl in Hh.
  rewrite Hfix in Hh. destruct s as [|c r]; [done|].
  unfold nonws. simpl. by rewrite (Hh c r eq_refl).
Qed.

Lemma nonws_normalize_ws_nonempty q : nonws q ≠ [] → normalize_ws q ≠ [].
Proof. intros Hq Hn. apply Hq. by rewrite <- nonws_normalize_ws, Hn. Qed.

Lemma flush_tidy st :
  Forall tidy_chunk (chunks st) → Forall tidy_chunk (chunks (flush st)).
Proof.
  intros Hc. unfold flush. destruct (buf_texts st) as [|t r]; [done|].
  simpl. destruct (normalize_ws (join JOINER (t :: r))) as [|c l] eqn:E;
    [done|]. simpl.
  apply Forall_app. split; [done|]. constructor; [|done].
  unfold tidy_chunk, chunk_text. simpl. rewrite <- E.
  apply tidy_normalize_ws. by rewrite E.
Qed.

Lemma split_block_tidy fuel blk start cs :
  Forall tidy_chunk cs → Forall tidy_chunk (split_block fuel blk start cs).
Proof.
  revert start cs. induction fuel as [|fuel IH]; intros start cs Hc; [done|].
  rewrite split_block_unfold.
  destruct (start <? length (text blk)); [|done]. cbv zeta. apply IH.
  destruct (normalize_ws (take MAX_CHARS_PER_CHUNK (drop start (text blk))))
    as [|c l] eqn:E; [done|]. simpl.
  apply Forall_app. split; [done|]. constructor; [|done].
  unfold tidy_chunk, chunk_text. simpl. rewrite <- E.
  apply tidy_normalize_ws. by rewrite E.
Qed.

Lemma chunk_step_tidy st blk :
  Forall tidy_chunk (chunks st) → Forall tidy_chunk (chunks (chunk_step st blk)).
Proof.
  intros Hinv. unfold chunk_step.
  set (st1 := match buf_texts st with
              | [] => _ | _ :: _ => _ end).
  assert (H1 : Forall tidy_chunk (chunks st1)).
  { subst st1. by destruct (buf_texts st). }
  clearbody st1. clear st Hinv.
  destruct (length (normalize_ws _) <=? MAX_CHARS_PER_CHUNK); [done|].
  pose proof (flush_tidy _ H1) as Hf.
  destruct (MAX_CHARS_PER_CHUNK <? length (text blk)); [|done]. simpl.
  by apply split_block_tidy.
Qed.

Lemma pack_blocks_tidy blocks : Forall tidy_chunk (pack_blocks blocks).
Proof.
  unfold pack_blocks. apply flush_tidy.
  apply (fold_left_invariant (λ st, Forall tidy_chunk (chunks st)));
    [done|]. intros; by apply chunk_step_tidy.
Qed.

Lemma merge_step_tidy merged c :
  Forall tidy_chunk merged → tidy_chunk c → Forall tidy_chunk (merge_step merged c).
Proof.
  intros Hm Hc. destruct merged as [|p m _] using rev_ind.
  - rewrite merge_step_nil. by constructor.
  - rewrite merge_step_snoc. apply Forall_app in Hm as [Hm1 Hm2].
    apply Forall_inv in Hm2.
    destruct (length (chunk_text c) <? MIN_CHARS_PER_CHUNK).
    + apply Forall_app. split; [done|]. constructor; [|done].
      unfold tidy_chunk. cbn [chunk_text snd].
      apply tidy_normalize_ws, nonws_normalize_ws_nonempty.
      rewrite nonws_app. intros Hnil. apply app_eq_nil in Hnil as [Hp _].
      by apply (tidy_nonws (chunk_text p)).
    + rewrite app_assoc. apply Forall_app. split; [|by constructor].
      apply Forall_app. split; [done|by constructor].
Qed.

Lemma merge_small_tidy cs :
  Forall tidy_chunk cs → Forall tidy_chunk (merge_small cs).
Proof.
  unfold merge_small.
  assert (∀ merged, Forall tidy_chunk cs → Forall tidy_chunk merged →
            Forall tidy_chunk (fold_left merge_step cs merged)) as H.
  { induction cs as [|c cs IH]; intros merged Hc Hm; [done|]. simpl.
    apply Forall_cons in Hc as [Hc1 Hc2].
    apply IH; [done|]. by apply merge_step_tidy. }
  intros Hc. by apply H.
Qed.

Lemma chunk_blocks_tidy blocks : Forall tidy_chunk (chunk_blocks blocks).
Proof.
  unfold chunk_blocks.
  pose proof (merge_small_tidy _ (pack_blocks_tidy blocks)) as H.
  revert H. generalize (merge_small (pack_blocks blocks)). intros l H.
  unfold tidy_chunk in *. apply (Forall_chunk_text tidy).
  rewrite reindex_text. by apply Forall_chunk_text.
Qed.

Lemma content_tidy_nil l : Forall tidy l → content l = [] → l = [].
Proof.
  intros Hl Hc. destruct Hl as [|t l Ht _]; [done|].
  unfold content in Hc. simpl in Hc. apply app_eq_nil in Hc as [Hc _].
  by apply tidy_nonws in Ht.
Qed.

(** X4. No chunk is blank: every chunk text returned by [chunk_blocks]
    is non-empty and is left unchanged by [normalize_ws]; in particular
    it starts and ends with a character that is not whitespace. *)
Theorem chunk_texts_tidy blocks :
  Forall (λ c, chunk_text c ≠ []
               ∧ normalize_ws (chunk_text c) = chunk_text c
               ∧ nonws (chunk_text c) ≠ [])
    (chunk_blocks blocks).
Proof.
  eapply Forall_impl; [apply chunk_blocks_tidy|].
  intros c Hc. pose proof (tidy_nonws _ Hc) as Hn. by destruct Hc.
Qed.

Lemma chunk_blocks_nil blocks :
  chunk_blocks blocks = [] ↔ content (map text blocks) = [].
Proof.
  rewrite <- chunk_blocks_content. split; [by intros ->|].
  intros Hc. apply (content_tidy_nil (map chunk_text (chunk_blocks blocks))) in Hc.
  - by apply map_eq_nil in Hc.
  - apply Forall_chunk_text, chunk_blocks_tidy.
Qed.

(** X5. [chunk_blocks] returns no chunk exactly when the blocks hold no
    character other than whitespace; blank blocks alone never produce a
    chunk, and one visible character is enough to produce one. *)
Theorem no_chunk_iff_blank blocks :
  chunk_blocks blocks = [] ↔ content (map text blocks) = [].
Proof. apply chunk_blocks_nil. Qed.

(* ===================================================================== *)
(** * Flattening a page *)
(* ===================================================================== *)

Lemma py_strip_or x d :
  match py_strip (py_or x (JStr d)) with
  | Ok s => str_or_falsy x = true ∧ stripped s
  | Raise e => str_or_falsy x = false ∧ e = AttributeError
  end.
Proof.
  unfold py_or. destruct (truthy x) eqn:E.
  - destruct x; try (cbn [py_strip str_or_falsy]; by rewrite E).
    split; [done|apply strip_strip].
  - split; [|apply strip_strip].
    destruct x; try done; cbn [str_or_falsy]; by rewrite E.
Qed.

Lemma py_text_or x d :
  match py_text (py_or x (JStr d)) with
  | Ok s => str_or_falsy x = true
  | Raise e => str_or_falsy x = false ∧ e = TypeError
  end.
Proof.
  unfold py_or. destruct (truthy x) eqn:E.
  - destruct x; try done; cbn [py_text str_or_falsy]; by rewrite E.
  - destruct x; try done; cbn [py_text str_or_falsy]; by rewrite E.
Qed.

Lemma py_iter_or shape x :
  (∀ s, shape (JStr s) = false) →
  match py_iter (py_or x (JList [])) with
  | Ok l => forallb shape l = list_or_falsy shape x
  | Raise e => list_or_falsy shape x = false ∧ e = TypeError
  end.
Proof.
  intros Hs. unfold py_or. destruct (truthy x) eqn:E.
  - destruct x as [|b|z|f|s|l|d];
      try (cbn [py_iter list_or_falsy]; by rewrite E).
    + destruct s as [|c r]; [done|]. simpl. by rewrite Hs.
    + done.
    + destruct d as [|kv r]; [done|]. simpl. by rewrite Hs.
  - destruct x as [|b|z|f|s|l|d];
      try (cbn [py_iter list_or_falsy forallb]; by rewrite E).
    by destruct l.
Qed.

Lemma flatten_blocks_shape h bs acc :
  match flatten_blocks h bs acc with
  | Ok _ => forallb block_shape bs = true
  | Raise e => forallb block_shape bs = false
               ∧ (e = AttributeError ∨ e = TypeError)
  end.
Proof.
  revert acc. induction bs as [|b bs IH]; intros acc; [done|].
  cbn [flatten_blocks forallb].
  destruct b as [| | | | | |d]; simpl; try (split; [done|by left]).
  pose proof (py_strip_or (dict_get d (lit "type")) (lit "p")) as H1.
  destruct (py_strip _) as [bt|e]; simpl.
  2:{ destruct H1 as [-> ->]. split; [done|by left]. }
  destruct H1 as [-> _].
  pose proof (py_text_or (dict_get d (lit "text")) []) as H2.
  destruct (py_text _) as [raw|e]; simpl.
  2:{ destruct H2 as [-> ->]. split; [done|by right]. }
  rewrite H2. simpl. apply IH.
Qed.

Lemma block_shape_str s : block_shape (JStr s) = false.
Proof. done. Qed.

Lemma section_shape_str s : section_shape (JStr s) = false.
Proof. done. Qed.

Lemma flatten_sections_shape secs acc :
  match flatten_sections secs acc with
  | Ok _ => forallb section_shape secs = true
  | Raise e => forallb section_shape secs = false
               ∧ (e = AttributeError ∨ e = TypeError)
  end.
Proof.
  revert acc. induction secs as [|sec secs IH]; intros acc; [done|].
  cbn [flatten_sections forallb].
  destruct sec as [| | | | | |d]; simpl; try (split; [done|by left]).
  pose proof (py_strip_or (dict_get d (lit "heading")) (lit "Intro")) as H1.
  destruct (py_strip _) as [heading|e]; simpl.
  2:{ destruct H1 as [-> ->]. split; [done|by left]. }
  destruct H1 as [-> _].
  pose proof (py_iter_or block_shape (dict_get d (lit "blocks")) block_shape_str)
    as H2.
  destruct (py_iter _) as [bs|e]; simpl.
  2:{ destruct H2 as [-> ->]. split; [done|by right]. }
  rewrite <- H2.
  pose proof (flatten_blocks_shape heading bs acc) as H3.
  destruct (flatten_blocks heading bs acc) as [acc'|e]; simpl.
  - rewrite H3. apply IH.
  - by destruct H3 as [-> H3].
Qed.

Lemma flatten_blocks_tidy h bs acc out :
  stripped h → Forall tidy_block acc →
  flatten_blocks h bs acc = Ok out → Forall tidy_block out.
Proof.
  intros Hh. revert acc. induction bs as [|b bs IH]; intros acc Hacc Hf.
  { simpl in Hf. by simplify_eq. }
  cbn [flatten_blocks] in Hf.
  destruct (py_get b "type") as [ty|]; [|done]. simpl in Hf.
  pose proof (py_strip_or ty (lit "p")) as H1.
  destruct (py_strip _) as [bt|]; [|done]. simpl in Hf. destruct H1 as [_ Hbt].
  destruct (py_get b "text") as [raw|]; [|done]. simpl in Hf.
  destruct (py_text _) as [txt|]; [|done]. simpl in Hf.
  apply IH in Hf; [done|].
  destruct (normalize_ws txt) as [|c l] eqn:E; [done|]. simpl.
  apply Forall_app. split; [done|]. constructor; [|done].
  split; [|done]. simpl. rewrite <- E. apply tidy_normalize_ws. by rewrite E.
Qed.

Lemma flatten_sections_tidy secs acc out :
  Forall tidy_block acc →
  flatten_sections secs acc = Ok out → Forall tidy_block out.
Proof.
  revert acc. induction secs as [|sec secs IH]; intros acc Hacc Hf.
  { simpl in Hf. by simplify_eq. }
  cbn [flatten_sections] in Hf.
  destruct (py_get sec "heading") as [h|]; [|done]. simpl in Hf.
  pose proof (py_strip_or h (lit "Intro")) as H1.
  destruct (py_strip _) as [heading|]; [|done]. simpl in Hf.
  destruct H1 as [_ Hh].
  destruct (py_get sec "blocks") as [bs|]; [|done]. simpl in Hf.
  destruct (py_iter _) as [l|]; [|done]. simpl in Hf.
  destruct (flatten_blocks heading l acc) as [acc'|] eqn:E; [|done].
  simpl in Hf. apply IH in Hf; [done|]. by eapply flatten_blocks_tidy.
Qed.

Lemma flatten_tidy page blocks :
  flatten_sections_to_blocks page = Ok blocks → Forall tidy_block blocks.
Proof.
  unfold flatten_sections_to_blocks. intros Hf.
  destruct (py_get page "sections") as [x|]; [|done]. simpl in Hf.
  destruct (py_iter _) as [l|]; [|done]. simpl in Hf.
  by eapply flatten_sections_tidy.
Qed.

(** X6. [flatten_sections_to_blocks] returns exactly on the documents of
    shape [page_shape]: a dict whose ["sections"] is falsy or a list of
    dicts, each with a heading that is falsy or a string and with
    ["blocks"] falsy or a list of dicts whose ["type"] and ["text"] are
    falsy or strings. On every other document it raises
    [AttributeError] or [TypeError]. *)
Theorem flatten_returns_iff_shape page :
  match flatten_sections_to_blocks page with
  | Ok _ => page_shape page = true
  | Raise e => page_shape page = false ∧ (e = AttributeError ∨ e = TypeError)
  end.
Proof.
  unfold flatten_sections_to_blocks.
  destruct page as [| | | | | |d]; simpl; try (split; [done|by left]).
  pose proof (py_iter_or section_shape (dict_get d (lit "sections"))
                section_shape_str) as H1.
  destruct (py_iter _) as [secs|e]; simpl.
  2:{ destruct H1 as [-> ->]. split; [done|by right]. }
  rewrite <- H1. apply flatten_sections_shape.
Qed.

(** X7. Every block returned by [flatten_sections_to_blocks] has a text
    that is not empty and is left unchanged by [normalize_ws], and a
    section and a kind without whitespace at either end. *)
Theorem flattened_blocks_tidy page blocks :
  flatten_sections_to_blocks page = Ok blocks →
  Forall (λ b, text b ≠ [] ∧ normalize_ws (text b) = text b
               ∧ strip (section b) = section b
               ∧ strip (block_type b) = block_type b) blocks.
Proof.
  intros Hf. eapply Forall_impl; [by eapply flatten_tidy|].
  by intros b [[? ?] [? ?]].
Qed.

Lemma flattened_blocks_tidy_witness :
  Forall (λ b, text b ≠ [] ∧ normalize_ws (text b) = text b
               ∧ strip (section b) = section b
               ∧ strip (block_type b) = block_type b)
    [mkBlock (lit "History") (lit "p") (lit "An anchor.")].
Proof.
  apply (flattened_blocks_tidy (page_doc "Anchor" 7 10 "  An   anchor. ")).
  vm_compute. reflexivity.
Defined.

(** X8. A page that flattens to at least one block gets at least one
    chunk: [chunk_blocks] returns the empty list on the blocks of a page
    only when the page has no block with text. *)
Theorem flattened_page_has_chunks page blocks :
  flatten_sections_to_blocks page = Ok blocks →
  (chunk_blocks blocks = [] ↔ blocks = []).
Proof.
  intros Hf. split; [|by intros ->]. intros Hc.
  apply chunk_blocks_nil in Hc.
  apply flatten_tidy in Hf.
  apply (content_tidy_nil (map text blocks)) in Hc.
  - by apply map_eq_nil in Hc.
  - apply List.Forall_map. eapply Forall_impl; [exact Hf|]. by intros b [? _].
Qed.

Lemma flattened_page_has_chunks_witness :
  chunk_blocks [mkBlock (lit "History") (lit "p") (lit "An anchor.")] = []
  ↔ [mkBlock (lit "History") (lit "p") (lit "An anchor.")] = [].
Proof.
  apply (flattened_page_has_chunks (page_doc "Anchor" 7 10 "An anchor.")).
  vm_compute. reflexivity.
Defined.

(* ===================================================================== *)
(** * More on the page identity *)
(* ===================================================================== *)

Section IdentityCases.
Context `{Platform}.

(** X9. [extract_page_identity] raises [AttributeError] exactly on a
    document that is not a dict, and [ValueError] exactly on a dict
    whose ["pageid"] or ["revid"] cannot be coerced to an integer; it
    raises nothing else. *)
Theorem identity_error_kinds page e :
  extract_page_identity page = Raise e ↔
  (e = AttributeError ∧ ∀ d, page ≠ JDict d)
  ∨ (e = ValueError
     ∧ ∃ d, page = JDict d
            ∧ (safe_int (dict_get d (lit "pageid")) = None
               ∨ safe_int (dict_get d (lit "revid")) = None)).
Proof.
  destruct page as [| | | | | |d].
  7:{ rewrite extract_page_identity_raises. split.
      - intros [-> Hd]. right. split; [done|]. by exists d.
      - intros [[_ Hd]|[-> (d' & [= <-] & Hd)]]; [by destruct (Hd d)|done]. }
  all: split;
    [intros [= <-]; by left
    |intros [[-> _]|[_ (d & Hd & _)]]; [done|discriminate Hd]].
Qed.

(** X10. A title that is missing, empty or otherwise falsy is replaced
    by ["Unknown"], and a title that is a non-empty string is returned
    as it is: in both cases the title of the identity is not empty. *)
Theorem identity_title_not_empty d page_id title revid :
  extract_page_identity (JDict d) = Ok (page_id, title, revid) →
  str_or_falsy (dict_get d (lit "title")) = true →
  title ≠ []
  ∧ (if truthy (dict_get d (lit "title"))
     then dict_get d (lit "title") = JStr title
     else title = lit "Unknown").
Proof.
  unfold extract_page_identity. simpl.
  destruct (safe_int (dict_get d (lit "pageid"))) as [p|]; [|done].
  destruct (safe_int (dict_get d (lit "revid"))) as [r|]; [|done].
  intros [= <- <- <-] Ht. unfold py_or.
  destruct (truthy (dict_get d (lit "title"))) eqn:E.
  - destruct (dict_get d (lit "title")) as [| | | |s| |];
      try (cbn [str_or_falsy] in Ht; by rewrite E in Ht).
    simpl. split; [|done]. by destruct s.
  - done.
Qed.

End IdentityCases.

Lemma identity_title_not_empty_witness :
  lit "Unknown" ≠ []
  ∧ (if truthy (dict_get [key "pageid" (JInt 7); key "revid" (JInt 10)]
                  (lit "title"))
     then dict_get [key "pageid" (JInt 7); key "revid" (JInt 10)] (lit "title")
          = JStr (lit "Unknown")
     else lit "Unknown" = lit "Unknown").
Proof.
  apply (identity_title_not_empty (H := example_platform)
           [key "pageid" (JInt 7); key "revid" (JInt 10)] 7 (lit "Unknown") 10);
    reflexivity.
Defined.

(* ===================================================================== *)
(** * The statements of the store, one by one *)
(* ===================================================================== *)

(** X11. After [upsert_page], [get_existing_page] returns the row just
    written; the other pages, the chunks and the embeddings are left as
    they were (an upsert deletes nothing). *)
Theorem upsert_page_then_get page_id title revid w w1 :
  upsert_page page_id title revid w = (w1, Ok tt) →
  get_existing_page page_id w1 = (w1, Ok (Some (page_id, title, revid)))
  ∧ (∀ p, p ≠ page_id → page_tbl (db w1) !! p = page_tbl (db w) !! p)
  ∧ chunk_tbl (db w1) = chunk_tbl (db w)
  ∧ embedding_tbl (db w1) = embedding_tbl (db w).
Proof.
  intros Hu. unfold upsert_page, bind, lift, implicit_begin, get_world, set_db
    in Hu. simpl in Hu.
  destruct (bind_int page_id) as [[]|] eqn:E1; [|done].
  destruct (bind_text title) as [[]|]; [|done].
  destruct (bind_int revid) as [[]|]; [|done]. injection Hu as <-.
  rewrite get_existing_page_eval, E1. simpl. rewrite lookup_insert_eq.
  repeat split; try done. intros p Hp. by apply lookup_insert_ne.
Qed.

Lemma upsert_page_then_get_witness :
  let w1 := (upsert_page 7 (lit "Anchor") 10 (connect_db empty_store)).1 in
  get_existing_page 7 w1 = (w1, Ok (Some (7%Z, lit "Anchor", 10%Z))).
Proof.
  exact (proj1 (upsert_page_then_get 7 (lit "Anchor") 10
                  (connect_db empty_store) _ eq_refl)).
Defined.



Lemma insert_chunk_effect page_id c w w1 id :
  insert_chunk page_id c w = (w1, Ok id) →
  id = (chunk_seq (db w) + 1)%Z
  ∧ chunk_seq (db w1) = id
  ∧ ∃ r, chunk_tbl (db w1) = chunk_tbl (db w) ++ [r]
         ∧ chunk_id r = id ∧ c_page_id r = page_id ∧ tuple_of_row r = c.
Proof.
  destruct c as [[[ci sec] bt] txt].
  unfold insert_chunk, bind, lift, implicit_begin, get_world, set_db, ret, raise.
  simpl.
  destruct (bind_int page_id) as [[]|]; [|done].
  destruct (bind_text sec) as [[]|]; [|done].
  destruct (bind_text bt) as [[]|]; [|done].
  destruct (bind_text txt) as [[]|]; [|done].
  destruct (existsb _ _); [done|].
  destruct (page_tbl (db w) !! page_id); [|done].
  intros [= <- <-]. simpl. repeat split. by eexists.
Qed.

Lemma insert_chunks_from_effect page_id cs acc w w1 ids :
  insert_chunks_from page_id cs acc w = (w1, Ok ids) →
  chunk_seq (db w1) = (chunk_seq (db w) + Z.of_nat (length cs))%Z
  ∧ ∃ new, ids = acc ++ map chunk_id new
           ∧ chunk_tbl (db w1) = chunk_tbl (db w) ++ new
           ∧ map tuple_of_row new = cs
           ∧ Forall (λ r, c_page_id r = page_id) new
           ∧ map chunk_id new
             = map (λ k, chunk_seq (db w) + 1 + Z.of_nat k)%Z (seq 0 (length cs)).
Proof.
  revert acc w. induction cs as [|c cs IH]; intros acc w Hi.
  - simpl in Hi. unfold ret in Hi. simplify_eq. split; [simpl; lia|].
    exists []. by rewrite !app_nil_r.
  - cbn [insert_chunks_from] in Hi. unfold bind at 1 in Hi.
    destruct (insert_chunk page_id c w) as [w0 [id|e]] eqn:E; [|done].
    apply insert_chunk_effect in E as (-> & Hs & r & Ht & Hid & Hp & Hc).
    apply IH in Hi as (Hs1 & new & -> & Htbl & Hm & Hf & Hids).
    split; [rewrite Hs1, Hs; simpl length; lia|].
    exists (r :: new). rewrite Htbl, Ht, <- !app_assoc. simpl.
    repeat split; try done.
    + by rewrite Hid.
    + by rewrite Hc, Hm.
    + by constructor.
    + rewrite Hid, Hids, Hs. f_equal; [lia|].
      rewrite <- seq_shift, map_map. apply map_ext. intros k. lia.
Qed.

(** X13. The identifiers returned by [insert_chunks] are those of the
    rows it appended, in the order of the chunks: the i-th identifier
    belongs to the row that holds the i-th chunk. They are the next
    values of the AUTOINCREMENT counter, so none was ever used before. *)
Theorem insert_chunks_ids page_id cs w w1 ids :
  insert_chunks page_id cs w = (w1, Ok ids) →
  ∃ new, chunk_tbl (db w1) = chunk_tbl (db w) ++ new
         ∧ map chunk_id new = ids
         ∧ map tuple_of_row new = cs
         ∧ Forall (λ r, c_page_id r = page_id) new
         ∧ ids = map (λ k, chunk_seq (db w) + 1 + Z.of_nat k)%Z
                   (seq 0 (length cs))
         ∧ chunk_seq (db w1) = (chunk_seq (db w) + Z.of_nat (length cs))%Z.
Proof.
  intros Hi. apply insert_chunks_from_effect in Hi
    as (Hs & new & -> & Htbl & Hm & Hf & Hids).
  exists new. by repeat split.
Qed.






Lemma insert_chunks_ids_witness :
  let w := (upsert_page 7 (lit "Anchor") 10 (connect_db empty_store)).1 in
  let cs := [(0, lit "Intro", lit "p", lit "one");
             (1, lit "Intro", lit "p", lit "two")] in
  ∃ new, chunk_tbl (db (insert_chunks 7 cs w).1) = chunk_tbl (db w) ++ new
         ∧ map chunk_id new = [1%Z; 2%Z]
         ∧ map tuple_of_row new = cs
         ∧ Forall (λ r, c_page_id r = 7%Z) new
         ∧ [1%Z; 2%Z] = map (λ k, chunk_seq (db w) + 1 + Z.of_nat k)%Z
                          (seq 0 (length cs))
         ∧ chunk_seq (db (insert_chunks 7 cs w).1)
           = (chunk_seq (db w) + Z.of_nat (length cs))%Z.
Proof.
  intros w cs.
  apply (insert_chunks_ids 7 cs w (insert_chunks 7 cs w).1 [1%Z; 2%Z]).
  vm_compute. reflexivity.
Defined.

(* ===================================================================== *)
(** * Requests to the embedding provider *)
(* ===================================================================== *)

Lemma length_range_step n step :
  length (range_step n step) = (n + step - 1) / step.
Proof. unfold range_step. by rewrite length_map, length_seq. Qed.

Lemma range_step_nil step : range_step 0 (S step) = [].
Proof.
  unfold range_step. replace (0 + S step - 1) with step by lia.
  by rewrite Nat.div_small by lia.
Qed.

(** The batches [texts[i:i+b]] for [i] in [range(0, len(texts), b)] are
    the list cut in pieces. *)
Lemma concat_batches {A} (l : list A) b m :
  concat (map (λ i, take b (drop i l)) (map (λ k, k * b) (seq 0 m)))
  = take (m * b) l.
Proof.
  induction m as [|m IH]; [done|].
  rewrite seq_S, !map_app, concat_app, IH. simpl.
  rewrite app_nil_r, take_take_drop. f_equal. lia.
Qed.

Lemma range_step_covers n : n ≤ (n + 32 - 1) / 32 * 32.
Proof.
  pose proof (Nat.div_mod_eq (n + 32 - 1) 32).
  pose proof (Nat.mod_upper_bound (n + 32 - 1) 32). lia.
Qed.

Lemma range_step_inside n i : i ∈ range_step n 32 → i < n.
Proof.
  unfold range_step. intros (k & -> & Hk)%list_elem_of_fmap.
  apply elem_of_seq in Hk.
  pose proof (Nat.div_mod_eq (n + 32 - 1) 32).
  pose proof (Nat.mod_upper_bound (n + 32 - 1) 32). lia.
Qed.

Lemma embed_batches_frame P texts model b starts acc w :
  match embed_batches P texts model b starts acc w with
  | (w', r) =>
      db w' = db w ∧ tx w' = tx w
      ∧ requests w ≤ requests w' ≤ requests w + length starts
      ∧ (∀ v, r = Ok v →
           requests w' = requests w + length starts
           ∧ length v = length acc + length starts)
  end.
Proof.
  revert acc w. induction starts as [|i starts IH]; intros acc w.
  - simpl. unfold ret. split; [done|]. split; [done|]. split; [lia|].
    intros v [= <-]. lia.
  - cbn [embed_batches]. unfold bind at 1, request at 1.
    destruct (P model (requests w) (take b (drop i texts))) as [a|e]; simpl.
    + specialize (IH (acc ++ [as_matrix a])
                     (mkWorld (db w) (tx w) (S (requests w)))).
      destruct (embed_batches _ _ _ _ _ _ _) as [w' r]. simpl in IH.
      destruct IH as (Hd & Ht & Hr & Hok).
      split; [done|]. split; [done|]. split; [lia|].
      intros v Hv. destruct (Hok v Hv) as [Hq Hl].
      rewrite length_app in Hl. simpl in Hl. lia.
    + split; [done|]. split; [done|]. split; [lia|]. by intros v [=].
Qed.

Lemma embed_batches_pointwise P model d (g : str → list Z) texts b starts acc w :
  (∀ n batch, batch ≠ [] → P model n batch = Ok (Arr2 d (map g batch))) →
  0 < b → Forall (λ i, i < length texts) starts →
  embed_batches P texts model b starts acc w
  = (mkWorld (db w) (tx w) (requests w + length starts),
     Ok (acc ++ map (λ i, (d, map g (take b (drop i texts)))) starts)).
Proof.
  intros HP Hb. revert acc w.
  induction starts as [|i starts IH]; intros acc w Hs.
  - simpl. unfold ret. rewrite app_nil_r, Nat.add_0_r. by destruct w.
  - apply Forall_cons in Hs as [Hi Hs]. cbn [embed_batches].
    unfold bind at 1, request at 1. rewrite HP.
    2:{ intros Hnil. apply (f_equal (@length _)) in Hnil.
        rewrite length_take, length_drop in Hnil. simpl in Hnil. lia. }
    rewrite IH by done. simpl. rewrite <- app_assoc. simpl.
    do 2 f_equal. lia.
Qed.

Lemma vstack_same_width d (rows : list (list (list Z))) :
  rows ≠ [] → vstack (map (λ r, (d, r)) rows) = Ok (d, concat rows).
Proof.
  destruct rows as [|r rows]; [done|]. intros _. simpl.
  rewrite Nat.eqb_refl. simpl.
  assert (forallb (λ a : nat * list (list Z), a.1 =? d)
            (map (λ r, (d, r)) rows) = true) as ->.
  { induction rows as [|x rows IH]; [done|]. simpl.
    by rewrite Nat.eqb_refl, IH. }
  do 3 f_equal. rewrite map_map. simpl. by rewrite map_id.
Qed.

(** X15. [embed_texts] never touches the store or the open transaction.
    It sends at most one request per batch of 32 texts, and exactly that
    many when it returns. On an empty list of texts it sends no request
    and raises [ValueError] (there is nothing to stack). *)
Theorem embed_texts_frame P texts model w :
  match embed_texts P texts model w with
  | (w', r) =>
      db w' = db w ∧ tx w' = tx w
      ∧ requests w ≤ requests w' ≤ requests w + (length texts + 31) / 32
      ∧ (∀ v, r = Ok v →
           texts ≠ []
           ∧ requests w' = requests w + (length texts + 31) / 32)
      ∧ (texts = [] → w' = w ∧ r = Raise ValueError)
  end.
Proof.
  destruct texts as [|t ts].
  { simpl. split; [done|]. split; [done|]. split; [lia|].
    split; [by intros v [=]|done]. }
  unfold embed_texts. unfold bind at 1.
  pose proof (embed_batches_frame P (t :: ts) model 32
                (range_step (length (t :: ts)) 32) [] w) as Hf.
  rewrite length_range_step in Hf.
  replace (length (t :: ts) + 32 - 1) with (length (t :: ts) + 31) in Hf by lia.
  destruct (embed_batches _ _ _ _ _ _ _) as [w' [vs|e]].
  - destruct Hf as (Hd & Ht & Hr & Hok).
    destruct (Hok vs eq_refl) as [Hq Hl]. unfold lift.
    split; [done|]. split; [done|]. split; [lia|].
    split; [|done]. intros v _. split; [done|lia].
  - destruct Hf as (Hd & Ht & Hr & Hok).
    split; [done|]. split; [done|]. split; [lia|].
    split; [by intros v [=]|done].
Qed.

(** X16. Batching is transparent: when the provider answers every
    non-empty batch with one vector of width [d] per text, computed
    text by text, [embed_texts] on a non-empty list returns [d] and the
    vectors of all the texts, in the order of the texts, after one
    request per started batch of 32. *)
Theorem embed_texts_batching P model d (g : str → list Z) texts w :
  (∀ n batch, batch ≠ [] → P model n batch = Ok (Arr2 d (map g batch))) →
  texts ≠ [] →
  embed_texts P texts model w
  = (mkWorld (db w) (tx w) (requests w + (length texts + 31) / 32),
     Ok (d, map g texts)).
Proof.
  intros HP Hne. unfold embed_texts. unfold bind at 1.
  rewrite (embed_batches_pointwise P model d g) by
    (try done; try lia; apply Forall_forall; intros i; apply range_step_inside).
  rewrite length_range_step. simpl app. unfold lift.
  replace (length texts + 32 - 1) with (length texts + 31) by lia.
  f_equal.
  rewrite <- (map_map (λ i, map g (take 32 (drop i texts))) (λ r, (d, r))).
  rewrite vstack_same_width.
  2:{ intros Hnil%map_eq_nil. apply (f_equal (@length _)) in Hnil.
      rewrite length_range_step in Hnil. cbn [length] in Hnil.
      pose proof (range_step_covers (length texts)) as Hc.
      rewrite Hnil in Hc. destruct texts; [done|simpl in Hc; lia]. }
  do 2 f_equal.
  rewrite <- (map_map (λ i, take 32 (drop i texts)) (map g)).
  rewrite <- concat_map. f_equal. unfold range_step.
  rewrite concat_batches. apply take_ge, range_step_covers.
Qed.

Lemma embed_texts_batching_witness :
  embed_texts (λ _ _ batch, Ok (Arr2 1 (map (λ t, [Z.of_nat (length t)]) batch)))
    [lit "one"; lit "three"] (lit "bge-m3") (connect_db empty_store)
  = (mkWorld empty_store None (0 + (2 + 31) / 32),
     Ok (1, [[3%Z]; [5%Z]])).
Proof.
  apply (embed_texts_batching _ (lit "bge-m3") 1
           (λ t, [Z.of_nat (length t)]) [lit "one"; lit "three"]
           (connect_db empty_store)).
  - intros n batch _. reflexivity.
  - discriminate.
Defined.

(* ===================================================================== *)
(** * How a run ends *)
(* ===================================================================== *)

Section Outcome.
Context `{Platform}.
Variables (do_embed : bool) (model_name : str) (P : provider).

(** Once the identity is known and the page identifier can be bound,
    whatever the body raises is raised inside the transaction. *)
Lemma process_page_raise_open f w w1 e :
  tx w = None → usable f →
  process_page do_embed model_name P f w = (w1, Raise e) →
  tx w1 = Some (db w).
Proof.
  intros Htx (page_id & revid & Hid & Hb).
  apply identity_Some in Hid as (page & title & Hload & Hex).
  unfold process_page.
  unfold bind at 1. unfold lift at 1. rewrite Hload.
  unfold bind at 1. unfold lift at 1. rewrite Hex.
  unfold bind at 1. rewrite get_existing_page_eval, Hb.
  lazymatch goal with
  | |- context [bind begin_immediate ?k] =>
      assert (Hopen : bind begin_immediate k w = (w1, Raise e) →
                      tx w1 = Some (db w))
  end.
  { unfold bind at 1. unfold begin_immediate. rewrite Htx.
    lazymatch goal with
    | |- ?m ?w0 = _ → _ =>
        cut (hoare (in_tx (db w) (page_tbl (db w)) (chunk_tbl (db w))) m
               (λ _ _, True) (λ w', tx w' = Some (db w)))
    end.
    { intros Hh Hm.
      specialize (Hh (mkWorld (db w) (Some (db w)) (requests w)) ltac:(done)).
      by rewrite Hm in Hh. }
    eapply hoare_bind; [apply upsert_page_spec|]. intros ?.
    eapply hoare_bind; [apply delete_page_children_spec|]. intros ?.
    eapply hoare_bind; [apply hoare_lift; by intros ? (? & _)|].
    intros blocks. cbv beta. apply hoare_pure. intros Hfl.
    eapply hoare_bind; [apply insert_chunks_from_spec|].
    intros ids. cbv beta. apply hoare_exists. intros new.
    eapply hoare_weaken with
      (pre' := in_tx (db w) (<[page_id:=(title, revid)]> (page_tbl (db w)))
                 (List.filter (λ r, negb (chunk_of_page page_id r))
                    (chunk_tbl (db w)) ++ new))
      (post' := λ _ _, True) (exc' := λ w', tx w' = Some (db w));
      [|by intros ? (Hpre & _)|done|done].
    eapply hoare_bind.
    - destruct do_embed.
      + eapply hoare_bind; [apply embed_texts_spec|]. intros [dim vectors].
        eapply hoare_bind; [apply ensure_model_row_spec|]. intros mid.
        apply insert_embeddings_spec.
      + intros w0 Hw0. exact Hw0.
    - intros ? w0 _. by unfold bind, commit, ret. }
  destruct (page_tbl (db w) !! page_id) as [[t r]|]; [|exact Hopen].
  destruct (r =? revid)%Z; [done|exact Hopen].
Qed.

(** A file that is not usable makes the body raise with no transaction
    open. *)
Lemma process_page_not_usable f w :
  tx w = None → ¬ usable f →
  ∃ e, process_page do_embed model_name P f w = (w, Raise e).
Proof.
  intros Htx Hnu. unfold process_page.
  unfold bind at 1. unfold lift at 1.
  destruct (load_page_json f) as [page|e] eqn:Hload; [|by eexists].
  unfold bind at 1. unfold lift at 1.
  destruct (extract_page_identity page) as [[[page_id title] revid]|e] eqn:Hex;
    [|by eexists].
  unfold bind at 1. rewrite get_existing_page_eval.
  destruct (bind_int page_id) as [[]|e] eqn:Hb; [|by eexists].
  destruct Hnu. exists page_id, revid. split; [|done].
  apply identity_Some. eauto.
Qed.

Lemma usable_dec f : usable f ∨ ¬ usable f.
Proof.
  unfold usable. destruct (identity f) as [[p r]|] eqn:E.
  - destruct (bind_int p) as [[]|e] eqn:Hb.
    + left. by exists p, r.
    + right. intros (p' & r' & [= <- <-] & Hb'). congruence.
  - right. by intros (p' & r' & [=] & _).
Qed.

Lemma page_iteration_usable f w c :
  tx w = None → usable f →
  ∃ w' c', page_iteration do_embed model_name P w c f = (w', c', None)
           ∧ tx w' = None ∧ accounted c' = S (accounted c).
Proof.
  intros Htx Hu. unfold page_iteration.
  pose proof (process_page_spec do_embed model_name P f w Htx) as Hs.
  destruct (process_page do_embed model_name P f w) as [w1 [[]|e]] eqn:Ep.
  - destruct Hs as [-> _]. eexists _, _. split; [done|]. split; [done|].
    unfold accounted. simpl. lia.
  - destruct Hs as [Ht _]. eexists _, _. split; [done|]. split; [done|].
    unfold accounted. simpl. lia.
  - rewrite (process_page_raise_open f w w1 e Htx Hu Ep) in *.
    unfold rollback. rewrite (process_page_raise_open f w w1 e Htx Hu Ep).
    eexists _, _. split; [done|]. split; [done|].
    unfold accounted. simpl. rewrite length_app. simpl. lia.
Qed.

Lemma page_iteration_not_usable f w c :
  tx w = None → ¬ usable f →
  page_iteration do_embed model_name P w c f = (w, c, Some OperationalError).
Proof.
  intros Htx Hnu. unfold page_iteration.
  destruct (process_page_not_usable f w Htx Hnu) as [e ->].
  unfold rollback. by rewrite Htx.
Qed.

Lemma run_pages_usable files w c :
  tx w = None → Forall usable files →
  ∃ w' c', run_pages do_embed model_name P files w c = (w', c', None)
           ∧ tx w' = None ∧ accounted c' = accounted c + length files.
Proof.
  revert w c. induction files as [|f rest IH]; intros w c Htx Hu.
  - exists w, c. simpl. repeat split; [done|lia].
  - apply Forall_cons in Hu as [Hf Hr]. rewrite run_pages_cons.
    destruct (page_iteration_usable f w c Htx Hf) as (w1 & c1 & -> & Htx1 & Hc1).
    destruct (IH w1 c1 Htx1 Hr) as (w' & c' & -> & Htx' & Hc').
    exists w', c'. repeat split; [done|]. simpl. lia.
Qed.

Lemma run_pages_outcome files w c :
  tx w = None →
  match run_pages do_embed model_name P files w c with
  | (w', c', None) =>
      Forall usable files ∧ accounted c' = accounted c + length files
  | (w', c', Some e) =>
      e = OperationalError ∧ Exists (λ f, ¬ usable f) files
      ∧ accounted c' < accounted c + length files
  end.
Proof.
  revert w c. induction files as [|f rest IH]; intros w c Htx.
  - simpl. split; [done|lia].
  - rewrite run_pages_cons. destruct (usable_dec f) as [Hu|Hnu].
    + destruct (page_iteration_usable f w c Htx Hu)
        as (w1 & c1 & -> & Htx1 & Hc1).
      specialize (IH w1 c1 Htx1).
      destruct (run_pages do_embed model_name P rest w1 c1) as [[w' c'] [e|]].
      * destruct IH as (-> & Hex & Hlt). split; [done|].
        split; [by apply Exists_cons_tl|]. simpl. lia.
      * destruct IH as (Hall & Hacc). split; [by constructor|]. simpl. lia.
    + rewrite page_iteration_not_usable by done. split; [done|].
      split; [by apply Exists_cons_hd|]. simpl. lia.
Qed.

(** X17. An exception raised while processing a usable file — one whose
    document loads, has an identity and a page identifier that fits an
    SQLite integer — is handled as the handler intends: the transaction
    is rolled back, so the store is what it was before the page, the
    error is recorded under the file's name, and the loop goes on. *)
Theorem usable_page_error_rolled_back f w c w1 e :
  tx w = None → usable f →
  process_page do_embed model_name P f w = (w1, Raise e) →
  page_iteration do_embed model_name P w c f
  = (mkWorld (db w) None (requests w1),
     mkCounters (updated_pages c) (skipped_pages c) (errors c ++ [(fname f, e)]),
     None).
Proof.
  intros Htx Hu Hp. unfold page_iteration. rewrite Hp. unfold rollback.
  by rewrite (process_page_raise_open f w w1 e Htx Hu Hp).
Qed.

(** X18. [build_database] is left by an exception exactly when some
    file of the folder is not usable, and the exception is then the
    [OperationalError] of the handler's [ROLLBACK]; fewer files than the
    folder holds have been counted at that point. *)
Theorem build_crashes_iff_unusable_file folder s :
  match build_database do_embed model_name P folder s with
  | (_, Crashed e c) =>
      e = OperationalError
      ∧ Exists (λ f, ¬ usable f) (iter_page_json_files folder)
      ∧ accounted c < length (iter_page_json_files folder)
  | (_, _) => Forall usable (iter_page_json_files folder)
  end.
Proof.
  unfold build_database.
  destruct (iter_page_json_files folder) as [|f rest] eqn:Ef; [done|].
  assert (Htx0 : tx (connect_db s) = None) by done.
  pose proof (run_pages_outcome (f :: rest) (connect_db s)
                (mkCounters 0 0 []) Htx0) as Ho.
  destruct (run_pages do_embed model_name P (f :: rest) (connect_db s)
              (mkCounters 0 0 [])) as [[w' c'] [e|]].
  - destruct Ho as (-> & Hex & Hlt). by repeat split.
  - by destruct Ho.
Qed.

(** X19. When [build_database] reaches its summary line, every file of
    the folder has been counted exactly once: as updated, as skipped,
    or as an error. *)
Theorem done_counts_every_file folder s s' c :
  build_database do_embed model_name P folder s = (s', Done c) →
  updated_pages c + skipped_pages c + length (errors c)
  = length (iter_page_json_files folder).
Proof.
  unfold build_database.
  destruct (iter_page_json_files folder) as [|f rest] eqn:Ef; [done|].
  assert (Htx0 : tx (connect_db s) = None) by done.
  pose proof (run_pages_outcome (f :: rest) (connect_db s)
                (mkCounters 0 0 []) Htx0) as Ho.
  destruct (run_pages do_embed model_name P (f :: rest) (connect_db s)
              (mkCounters 0 0 [])) as [[w' c'] [e|]]; [done|].
  intros [= <- <-]. destruct Ho as [_ Ho]. exact Ho.
Qed.

End Outcome.

Lemma usable_page_error_rolled_back_witness :
  page_iteration (H := example_platform) true (lit "bge-m3") no_provider
    (connect_db empty_store) (mkCounters 0 0 []) anchor_file
  = (mkWorld empty_store None 1,
     mkCounters 0 0 [(lit "Anchor.json", ProviderError)], None).
Proof.
  apply (usable_page_error_rolled_back (H := example_platform) true
           (lit "bge-m3") no_provider anchor_file (connect_db empty_store)
           (mkCounters 0 0 [])
           (process_page (H := example_platform) true (lit "bge-m3")
              no_provider anchor_file (connect_db empty_store)).1
           ProviderError).
  - reflexivity.
  - exists 7%Z, 10%Z. split; reflexivity.
  - vm_compute. reflexivity.
Defined.

Lemma done_counts_every_file_witness :
  2 + 0 + length (@nil (str * exn))
  = length (iter_page_json_files [anchor_file; bomb_file]).
Proof.
  apply (done_counts_every_file (H := example_platform) false (lit "bge-m3")
           no_provider [anchor_file; bomb_file] empty_store
           (build_database (H := example_platform) false (lit "bge-m3")
              no_provider [anchor_file; bomb_file] empty_store).1
           (mkCounters 2 0 [])).
  vm_compute. reflexivity.
Defined.

(* ===================================================================== *)
(** * What a run leaves alone *)
(* ===================================================================== *)

Section LeftAlone.
Context `{Platform}.
Variables (do_embed : bool) (model_name : str) (P : provider).

Lemma iteration_other_rows f w c w' c' r p :
  iteration f w c w' c' r → p ∉ page_ids [f] →
  rows_of (db w') p = rows_of (db w) p.
Proof.
  intros Hit Hnp.
  destruct Hit as [Hs|w' page page_id title revid blocks new Hl Hx Hb Hf Hp Hc Hn Hm
                  |w' e Hd|w' Hd]; [done| |by rewrite Hd..].
  assert (identity f = Some (page_id, revid)) as Hid
    by (apply identity_Some; eauto).
  assert (p ≠ page_id) as Hne.
  { intros ->. apply Hnp. unfold page_ids. simpl. rewrite Hid. simpl. by left. }
  unfold rows_of. rewrite Hc, List.filter_app.
  rewrite (filter_of_other_page p page_id _ Hne).
  rewrite (filter_of_page_none p page_id new Hne Hn). by rewrite app_nil_r.
Qed.

Lemma run_pages_other_rows files w c w' c' r p :
  tx w = None → run_pages do_embed model_name P files w c = (w', c', r) →
  p ∉ page_ids files →
  rows_of (db w') p = rows_of (db w) p.
Proof.
  revert w c. induction files as [|f rest IH]; intros w c Htx Hrun Hp.
  - simpl in Hrun. by simplify_eq.
  - rewrite run_pages_cons in Hrun.
    destruct (page_iteration_spec do_embed model_name P f w c Htx)
      as (w1 & c1 & r1 & Heq & Htx1 & Hit).
    rewrite Heq in Hrun.
    assert ((p ∉ page_ids [f]) ∧ (p ∉ page_ids rest)) as [Hp1 Hp2].
    { unfold page_ids in *. simpl in *.
      destruct (fst <$> identity f) as [z|].
      - apply not_elem_of_cons in Hp as [Hz Hp]. split; [|done].
        apply not_elem_of_cons. split; [done|apply not_elem_of_nil].
      - split; [apply not_elem_of_nil|done]. }
    pose proof (iteration_other_rows _ _ _ _ _ _ _ Hit Hp1) as Hq.
    destruct r1 as [e|]; [by simplify_eq|].
    rewrite <- Hq. by eapply IH.
Qed.

(** X20. Nothing is pruned: a page whose identifier is carried by no
    document of the folder keeps its page row and its chunk rows,
    identifiers included, through a whole run, however the run ends. *)
Theorem pages_outside_folder_kept folder s p :
  p ∉ page_ids (iter_page_json_files folder) →
  page_tbl (build_database do_embed model_name P folder s).1 !! p
  = page_tbl s !! p
  ∧ rows_of (build_database do_embed model_name P folder s).1 p = rows_of s p.
Proof.
  unfold build_database. intros Hp.
  destruct (iter_page_json_files folder) as [|f rest] eqn:Ef; [done|].
  destruct (run_pages do_embed model_name P (f :: rest) (connect_db s)
              (mkCounters 0 0 [])) as [[w' c'] r] eqn:Er.
  assert (Htx0 : tx (connect_db s) = None) by done.
  destruct (run_pages_errors _ _ _ _ _ _ _ _ _ Htx0 Er) as [Htx _].
  pose proof (run_pages_other_pages _ _ _ _ _ _ _ _ _ p Htx0 Er Hp) as H1.
  pose proof (run_pages_other_rows _ _ _ _ _ _ p Htx0 Er Hp) as H2.
  destruct r as [e|]; simpl; unfold committed; by rewrite Htx.
Qed.

End LeftAlone.

Lemma pages_outside_folder_kept_witness :
  let s := (build_database (H := example_platform) false (lit "bge-m3")
              no_provider [bomb_file] empty_store).1 in
  page_tbl (build_database (H := example_platform) false (lit "bge-m3")
              no_provider [anchor_file] s).1 !! 8%Z
  = page_tbl s !! 8%Z
  ∧ rows_of (build_database (H := example_platform) false (lit "bge-m3")
               no_provider [anchor_file] s).1 8
    = rows_of s 8.
Proof.
  intros s.
  apply (pages_outside_folder_kept (H := example_platform) false (lit "bge-m3")
           no_provider [anchor_file] s 8%Z).
  intros Hin. change (8%Z ∈ [7%Z]) in Hin.
  apply list_elem_of_singleton in Hin. discriminate Hin.
Defined.

(* ===================================================================== *)
(** * A run without embeddings *)
(* ===================================================================== *)

Lemma hoare_keep_lift {A} (r : result A) (pre : world → Prop) :
  hoare pre (lift r) (λ _, pre) pre.
Proof. intros w Hw. unfold lift. by destruct r. Qed.

Lemma hoare_keep_ret {A} (a : A) (pre exc : world → Prop) :
  hoare pre (ret a) (λ _, pre) exc.
Proof. by intros w Hw. Qed.

Lemma hoare_false {A} (m : M A) post exc : hoare (λ _, False) m post exc.
Proof. by intros w []. Qed.

Ltac quiet_op :=
  let w := fresh "w" in
  let Hr := fresh "Hr" in
  let Hm := fresh "Hm" in
  let Hs := fresh "Hs" in
  intros w (Hr & Hm & Hs); unfold_m; simpl;
  repeat (case_match; simplify_eq/=);
  unfold quiet; simpl; repeat split; try done;
  try (let s' := fresh "s" in
       let Hs' := fresh "Hs" in
       intros s' Hs'; simplify_eq/=; eauto).

Lemma quiet_get_existing_page n mt page_id :
  hoare (quiet n mt) (get_existing_page page_id) (λ _, quiet n mt) (quiet n mt).
Proof. unfold get_existing_page. quiet_op. Qed.

Lemma quiet_begin_immediate n mt :
  hoare (quiet n mt) begin_immediate (λ _, quiet n mt) (quiet n mt).
Proof. unfold begin_immediate. quiet_op. Qed.

Lemma quiet_commit n mt :
  hoare (quiet n mt) commit (λ _, quiet n mt) (quiet n mt).
Proof. unfold commit. quiet_op. Qed.

Lemma quiet_upsert_page n mt page_id title revid :
  hoare (quiet n mt) (upsert_page page_id title revid)
    (λ _, quiet n mt) (quiet n mt).
Proof. unfold upsert_page. quiet_op. Qed.

Lemma quiet_delete_page_children n mt page_id :
  hoare (quiet n mt) (delete_page_children page_id)
    (λ _, quiet n mt) (quiet n mt).
Proof. unfold delete_page_children. quiet_op. Qed.

Lemma quiet_insert_chunk n mt page_id c :
  hoare (quiet n mt) (insert_chunk page_id c) (λ _, quiet n mt) (quiet n mt).
Proof. destruct c as [[[ci sec] bt] txt]. unfold insert_chunk. quiet_op. Qed.

Lemma quiet_insert_chunks_from n mt page_id cs ids :
  hoare (quiet n mt) (insert_chunks_from page_id cs ids)
    (λ _, quiet n mt) (quiet n mt).
Proof.
  revert ids. induction cs as [|c cs IH]; intros ids; [by intros w Hw|].
  cbn [insert_chunks_from]. eapply hoare_bind; [apply quiet_insert_chunk|].
  intros id. apply IH.
Qed.

Lemma quiet_rollback n mt w :
  quiet n mt w → quiet n mt (rollback w).1.
Proof.
  intros (Hr & Hm & Hs). unfold rollback.
  destruct (tx w) as [s|] eqn:E; simpl.
  - repeat split; [done|by apply Hs|done].
  - repeat split; try done. intros s0 Hs0. congruence.
Qed.

Section NoEmbed.
Context `{Platform}.
Variables (model_name : str) (P : provider).

Lemma quiet_process_page n mt f :
  hoare (quiet n mt) (process_page false model_name P f)
    (λ _, quiet n mt) (quiet n mt).
Proof.
  unfold process_page.
  eapply hoare_bind; [apply hoare_keep_lift|]. intros page.
  eapply hoare_bind; [apply hoare_keep_lift|]. intros [[page_id title] revid].
  eapply hoare_bind; [apply quiet_get_existing_page|]. intros existing.
  destruct (match existing with
            | Some (_, _, stored) => (stored =? revid)%Z
            | None => false
            end); [apply hoare_keep_ret|].
  eapply hoare_bind; [apply quiet_begin_immediate|]. intros ?.
  eapply hoare_bind; [apply quiet_upsert_page|]. intros ?.
  eapply hoare_bind; [apply quiet_delete_page_children|]. intros ?.
  eapply hoare_bind; [apply hoare_keep_lift|]. intros blocks.
  eapply hoare_bind; [apply quiet_insert_chunks_from|]. intros ids.
  eapply hoare_bind; [apply hoare_keep_ret|]. intros ?.
  eapply hoare_bind; [apply quiet_commit|]. intros ?.
  apply hoare_keep_ret.
Qed.

Lemma quiet_page_iteration n mt f w c :
  quiet n mt w → quiet n mt (page_iteration false model_name P w c f).1.1.
Proof.
  intros Hq. unfold page_iteration.
  pose proof (quiet_process_page n mt f w Hq) as Hp.
  destruct (process_page false model_name P f w) as [w1 [[]|e]]; [done..|].
  pose proof (quiet_rollback n mt w1 Hp) as Hr.
  by destruct (rollback w1) as [w2 [[]|e']].
Qed.

Lemma quiet_run_pages n mt files w c :
  quiet n mt w → quiet n mt (run_pages false model_name P files w c).1.1.
Proof.
  revert w c. induction files as [|f rest IH]; intros w c Hq; [done|].
  rewrite run_pages_cons.
  pose proof (quiet_page_iteration n mt f w c Hq) as Hi.
  destruct (page_iteration false model_name P w c f) as [[w1 c1] [e|]];
    [done|]. by apply IH.
Qed.

(** X21. A run with [do_embed=False] never contacts the embedding
    provider and leaves the table of models as it found it, whatever
    the folder holds and however the run ends. *)
Theorem no_embed_is_quiet folder s :
  model_tbl (build_database false model_name P folder s).1 = model_tbl s
  ∧ ∀ files c,
      requests (run_pages false model_name P files (connect_db s) c).1.1 = 0.
Proof.
  assert (Hq : quiet 0 (model_tbl s) (connect_db s)) by done.
  split.
  - unfold build_database.
    destruct (iter_page_json_files folder) as [|f rest]; [done|].
    pose proof (quiet_run_pages 0 (model_tbl s) (f :: rest) (connect_db s)
                  (mkCounters 0 0 []) Hq) as (Hr & Hm & Hs).
    destruct (run_pages false model_name P (f :: rest) (connect_db s)
                (mkCounters 0 0 [])) as [[w' c'] r]. simpl in *.
    assert (model_tbl (committed w') = model_tbl s) as Hc.
    { unfold committed. destruct (tx w') as [s0|]; [by apply Hs|done]. }
    by destruct r.
  - intros files c.
    by destruct (quiet_run_pages 0 (model_tbl s) files (connect_db s) c Hq).
Qed.

End NoEmbed.

(* ===================================================================== *)
(** * A page without text, with embeddings *)
(* ===================================================================== *)

Section EmptyPage.
Context `{Platform}.
Variables (model_name : str) (P : provider).

Lemma embed_texts_nil w : embed_texts P [] model_name w = (w, Raise ValueError).
Proof. reflexivity. Qed.

(** With embeddings, the body cannot end normally on a page that has
    no block: stacking the vectors of no batch raises. *)
Lemma process_page_no_block f w page :
  tx w = None → usable f → ¬ stored f (db w) →
  load_page_json f = Ok page → flatten_sections_to_blocks page = Ok [] →
  ∃ w1 e, process_page true model_name P f w = (w1, Raise e)
          ∧ requests w1 = requests w.
Proof.
  intros Htx (page_id & revid & Hid & Hb) Hns Hload Hfl.
  apply identity_Some in Hid as (page' & title & Hload' & Hex).
  rewrite Hload in Hload'. injection Hload' as <-.
  assert (Hq : quiet (requests w) (model_tbl (db w)) w).
  { repeat split. intros s Hs. congruence. }
  unfold process_page.
  unfold bind at 1. unfold lift at 1. rewrite Hload.
  unfold bind at 1. unfold lift at 1. rewrite Hex.
  unfold bind at 1. rewrite get_existing_page_eval, Hb.
  lazymatch goal with
  | |- context [bind begin_immediate ?k] =>
      assert (Htail : ∃ w1 e, bind begin_immediate k w = (w1, Raise e)
                              ∧ requests w1 = requests w)
  end.
  { lazymatch goal with
    | |- ∃ w1 e, ?m w = _ ∧ _ =>
        cut (hoare (quiet (requests w) (model_tbl (db w))) m
               (λ _ _, False) (quiet (requests w) (model_tbl (db w))))
    end.
    { intros Hh. specialize (Hh w Hq).
      lazymatch goal with
      | |- ∃ w1 e, ?t = _ ∧ _ => destruct t as [w1 [a|e]]
      end; [done|]. exists w1, e. split; [done|apply Hh]. }
    eapply hoare_bind; [apply quiet_begin_immediate|]. intros ?.
    eapply hoare_bind; [apply quiet_upsert_page|]. intros ?.
    eapply hoare_bind; [apply quiet_delete_page_children|]. intros ?.
    rewrite Hfl.
    eapply hoare_bind; [apply hoare_lift; by intros ? ?|].
    intros bs. cbv beta. apply hoare_pure. intros [= <-].
    change (chunk_blocks []) with (@nil chunk).
    eapply hoare_bind; [apply quiet_insert_chunks_from|]. intros ids.
    eapply hoare_bind with (mid := λ _ _, False);
      [|intros ?; apply hoare_false].
    eapply hoare_bind with (mid := λ _ _, False);
      [|intros ?; apply hoare_false].
    intros w0 Hw0. simpl map. by rewrite embed_texts_nil. }
  destruct (page_tbl (db w) !! page_id) as [[t r]|] eqn:El; [|exact Htail].
  destruct (r =? revid)%Z eqn:Er; [|exact Htail].
  apply Z.eqb_eq in Er as ->. destruct Hns. exists page_id, revid, t.
  repeat split; [|done|done]. apply identity_Some. eauto.
Qed.

(** X22. With [do_embed=True], a usable page that is not stored at its
    revision and whose document flattens to no block is never built: its
    iteration records an error for the file, sends no request, and
    leaves the store as it was, so the next run meets the same page in
    the same state. *)
Theorem page_without_blocks_cannot_embed f w c page :
  tx w = None → usable f → ¬ stored f (db w) →
  load_page_json f = Ok page → flatten_sections_to_blocks page = Ok [] →
  ∃ e, page_iteration true model_name P w c f
       = (mkWorld (db w) None (requests w),
          mkCounters (updated_pages c) (skipped_pages c)
            (errors c ++ [(fname f, e)]),
          None).
Proof.
  intros Htx Hu Hns Hload Hfl.
  destruct (process_page_no_block f w page Htx Hu Hns Hload Hfl)
    as (w1 & e & Hp & Hr).
  exists e. unfold page_iteration. rewrite Hp. unfold rollback.
  rewrite (process_page_raise_open true model_name P f w w1 e Htx Hu Hp).
  by rewrite Hr.
Qed.

End EmptyPage.

Lemma page_without_blocks_cannot_embed_witness :
  ∃ e, page_iteration (H := example_platform) true (lit "bge-m3") no_provider
         (connect_db empty_store) (mkCounters 0 0 [])
         (mkFile (lit "Blank.json") (Ok (page_doc "Blank" 9 1 "  ")))
       = (mkWorld empty_store None 0,
          mkCounters 0 0 [(lit "Blank.json", e)], None).
Proof.
  apply (page_without_blocks_cannot_embed (H := example_platform)
           (lit "bge-m3") no_provider
           (mkFile (lit "Blank.json") (Ok (page_doc "Blank" 9 1 "  ")))
           (connect_db empty_store) (mkCounters 0 0 [])
           (page_doc "Blank" 9 1 "  ")).
  - reflexivity.
  - exists 9%Z, 1%Z. split; reflexivity.
  - intros (p & r & t & Hid & _ & Hl). vm_compute in Hid.
    injection Hid as <- <-. vm_compute in Hl. discriminate Hl.
  - reflexivity.
  - vm_compute. reflexivity.
Defined.

(* ===================================================================== *)
(** * Blobs of any array *)
(* ===================================================================== *)

Section AnyArray.
Context `{Platform}.

(** X23. Whatever the dtype and the items of the array,
    [vec_to_blob_f32] returns four bytes per item, so [blob_f32_dim]
    of the blob is the number of items; a float64 array is converted
    item by item, not reinterpreted. *)
Theorem blob_four_bytes_per_item vec :
  length (vec_to_blob_f32 vec) = 4 * length (arr_items vec)
  ∧ blob_f32_dim (vec_to_blob_f32 vec) = length (arr_items vec)
  ∧ Forall is_byte (vec_to_blob_f32 vec).
Proof.
  assert (∀ items, length (concat (map (bytes_of_u32 native_order) items))
                   = 4 * length items) as Hlen.
  { induction items as [|x items IH]; [done|]. simpl concat.
    rewrite length_app, IH. destruct native_order; simpl; lia. }
  assert (∀ items, Forall is_byte (concat (map (bytes_of_u32 native_order) items)))
    as Hbytes.
  { induction items as [|x items IH]; [constructor|]. simpl concat.
    apply Forall_app. split; [apply bytes_of_u32_bytes|done]. }
  unfold blob_f32_dim, vec_to_blob_f32.
  destruct vec as [[] items]; cbn [arr_dtype arr_items].
  - rewrite Hlen. repeat split; [|done].
    rewrite Nat.mul_comm. by apply Nat.div_mul.
  - rewrite Hlen, length_map. repeat split; [|done].
    rewrite Nat.mul_comm. by apply Nat.div_mul.
Qed.

End AnyArray.

(* ===================================================================== *)
(** * The files of a folder *)
(* ===================================================================== *)

Lemma endswith_suffix s suf : endswith s suf = true ↔ suf `suffix_of` s.
Proof.
  unfold endswith. rewrite andb_true_iff, bool_decide_eq_true, Nat.leb_le.
  split.
  - intros [Hl Hd]. exists (take (length s - length suf) s).
    transitivity (take (length s - length suf) s
                  ++ drop (length s - length suf) s);
      [by rewrite take_drop|by f_equal].
  - intros [k ->]. rewrite length_app. split; [lia|].
    replace (length k + length suf - length suf) with (length k) by lia.
    apply drop_app_length.
Qed.

Lemma page_file_name_spec name :
  page_file_name name = true ↔
  lit ".json" `suffix_of` name
  ∧ name ≠ lit "manifest.json"
  ∧ ¬ lit ".error.json" `suffix_of` name.
Proof.
  unfold page_file_name, SKIP_FILENAMES, SKIP_SUFFIXES. simpl.
  rewrite !andb_true_iff, !negb_true_iff, orb_false_r.
  rewrite bool_decide_eq_false, list_elem_of_singleton.
  rewrite <- not_true_iff_false, !endswith_suffix. tauto.
Qed.

Lemma iter_page_json_files_filter folder :
  iter_page_json_files folder
  = List.filter (λ f, page_file_name (fname f)) folder.
Proof. reflexivity. Qed.

Lemma list_filter_sublist {A} (f : A → bool) l : List.filter f l `sublist_of` l.
Proof.
  induction l as [|x l IH]; simpl; [constructor|].
  destruct (f x); by constructor.
Qed.

Lemma list_filter_twice {A} (f : A → bool) l :
  List.filter f (List.filter f l) = List.filter f l.
Proof.
  induction l as [|x l IH]; simpl; [done|].
  destruct (f x) eqn:E; simpl; [|done]. by rewrite E, IH.
Qed.

(** X24. [iter_page_json_files] yields exactly the entries of the
    folder whose name ends with [.json], is not [manifest.json] and
    does not end with [.error.json], in the order of the listing; so an
    error file of the scraper, named [<title>__<pageid>.error.json], is
    never read as a page. Filtering twice changes nothing. *)
Theorem page_files_selected folder :
  (∀ f, f ∈ iter_page_json_files folder ↔
        f ∈ folder
        ∧ lit ".json" `suffix_of` fname f
        ∧ fname f ≠ lit "manifest.json"
        ∧ ¬ lit ".error.json" `suffix_of` fname f)
  ∧ iter_page_json_files folder `sublist_of` folder
  ∧ (∀ stem data,
       mkFile (stem ++ lit ".error.json") data ∉ iter_page_json_files folder)
  ∧ iter_page_json_files (iter_page_json_files folder)
    = iter_page_json_files folder.
Proof.
  rewrite !iter_page_json_files_filter.
  assert (∀ f, f ∈ List.filter (λ f, page_file_name (fname f)) folder ↔
               f ∈ folder ∧ page_file_name (fname f) = true) as Hin.
  { intros f. rewrite !list_elem_of_In. apply filter_In. }
  split; [|split; [|split]].
  - intros f. by rewrite Hin, page_file_name_spec.
  - apply list_filter_sublist.
  - intros stem data [_ Hn]%Hin. apply page_file_name_spec in Hn as (_ & _ & Hn).
    apply Hn. by exists stem.
  - apply list_filter_twice.
Qed.

(* ===================================================================== *)
(** * Embeddings after a run without them *)
(* ===================================================================== *)

Section EmbedLater.
Context `{Platform}.
Variables (model_name model_name' : str) (P P' : provider).

(** X25. Pages built without embeddings do not get any later: after a
    run with [do_embed=False] that ended without error on a folder
    where no two documents share a page identifier, a run with
    [do_embed=True] over the same folder skips every page, sends no
    request to the provider and leaves the store as it is. *)
Theorem embeddings_not_added_later folder s s1 c1 :
  build_database false model_name P folder s = (s1, Done c1) →
  errors c1 = [] →
  NoDup (page_ids (iter_page_json_files folder)) →
  build_database true model_name' P' folder s1
  = (s1, Done (mkCounters 0 (length (iter_page_json_files folder)) []))
  ∧ requests (run_pages true model_name' P' (iter_page_json_files folder)
                (connect_db s1) (mkCounters 0 0 [])).1.1 = 0.
Proof.
  unfold build_database. intros Hrun He Hnd.
  destruct (iter_page_json_files folder) as [|f rest] eqn:Ef; [done|].
  destruct (run_pages false model_name P (f :: rest) (connect_db s)
              (mkCounters 0 0 [])) as [[w' c'] r] eqn:Er.
  destruct r as [e|]; [done|]. simplify_eq.
  assert (Htx0 : tx (connect_db s) = None) by done.
  destruct (run_pages_errors _ _ _ _ _ _ _ _ _ Htx0 Er) as [Htx _].
  assert (Hst : Forall (λ f, stored f (db w')) (f :: rest)).
  { eapply run_pages_all_stored; [| exact Er |done|done]. done. }
  unfold committed. rewrite Htx.
  rewrite run_pages_stored by done. done.
Qed.

End EmbedLater.

Lemma embeddings_not_added_later_witness :
  let s1 := (build_database (H := example_platform) false (lit "bge-m3")
               no_provider [anchor_file; bomb_file] empty_store).1 in
  build_database (H := example_platform) true (lit "bge-m3") no_provider
    [anchor_file; bomb_file] s1
  = (s1, Done (mkCounters 0 (length (iter_page_json_files
                                       [anchor_file; bomb_file])) []))
  ∧ requests (run_pages (H := example_platform) true (lit "bge-m3") no_provider
                (iter_page_json_files [anchor_file; bomb_file])
                (connect_db s1) (mkCounters 0 0 [])).1.1 = 0.
Proof.
  intros s1.
  apply (embeddings_not_added_later (H := example_platform) (lit "bge-m3")
           (lit "bge-m3") no_provider no_provider [anchor_file; bomb_file]
           empty_store s1 (mkCounters 2 0 [])).
  - vm_compute. reflexivity.
  - reflexivity.
  - change (NoDup [7%Z; 8%Z]). repeat constructor.
    + intros Hin. apply list_elem_of_singleton in Hin. discriminate Hin.
    + intros Hin. inversion Hin.
Defined.

(* ===================================================================== *)
(** * File names of the scraper *)
(* ===================================================================== *)

Lemma runs_norm_weaken cls rep b s :
  runs_norm cls rep true s → runs_norm cls rep b s.
Proof.
  destruct s as [|c r]; [done|]. simpl. intros [Hc Hr]. split; [|done].
  intros Hcls. by destruct (Hc Hcls).
Qed.

Lemma sub_runs_norm cls rep b s : runs_norm cls rep b (sub_runs cls rep b s).
Proof.
  revert b. induction s as [|c r IH]; intros b; simpl; [done|].
  destruct (cls c) eqn:E.
  - destruct b; [apply IH|]. simpl. split; [done|].
    apply runs_norm_weaken, IH.
  - simpl. rewrite E. split; [done|apply IH].
Qed.

Lemma sub_runs_fix cls rep b s :
  runs_norm cls rep b s → sub_runs cls rep b s = s.
Proof.
  revert b. induction s as [|c r IH]; intros b; simpl; [done|].
  intros [Hc Hr]. destruct (cls c) eqn:E.
  - destruct (Hc eq_refl) as [-> ->]. by rewrite IH.
  - by rewrite IH.
Qed.

Lemma runs_norm_app_l cls rep b x y :
  runs_norm cls rep b (x ++ y) → runs_norm cls rep b x.
Proof.
  revert b. induction x as [|c r IH]; intros b; simpl; [done|].
  intros [Hc Hr]. split; [done|]. by eapply IH.
Qed.

Lemma runs_norm_lookup cls rep b s i c :
  runs_norm cls rep b s → s !! i = Some c → cls c = true →
  c = rep ∧ ∀ d, s !! S i = Some d → cls d = false.
Proof.
  revert b i. induction s as [|x r IH]; intros b i Hn Hi Hc; [done|].
  destruct Hn as [Hx Hr]. destruct i as [|i]; simpl in *.
  - injection Hi as ->. split; [by destruct (Hx Hc)|].
    intros d Hd. destruct r as [|y t]; [done|]. simpl in Hd. injection Hd as ->.
    destruct Hr as [Hy _]. rewrite Hc in Hy.
    destruct (cls d); [|done]. by destruct (Hy eq_refl).
  - by eapply IH.
Qed.

Lemma sub_runs_Forall (Q : N → Prop) cls rep b s :
  Forall Q s → Q rep → Forall Q (sub_runs cls rep b s).
Proof.
  intros Hs Hrep. revert b. induction Hs as [|c r Hc Hr IH]; intros b; simpl;
    [constructor|].
  destruct (cls c); [destruct b|]; try constructor; auto.
Qed.

Lemma sub_runs_outside cls rep b s :
  cls rep = false → Forall (λ c, cls c = false) (sub_runs cls rep b s).
Proof.
  intros Hrep. revert b. induction s as [|c r IH]; intros b; simpl;
    [constructor|].
  destruct (cls c) eqn:E; [destruct b|]; try constructor; auto.
Qed.

Lemma sub_runs_outside_fix cls rep b s :
  Forall (λ c, cls c = false) s → sub_runs cls rep b s = s.
Proof.
  intros Hs. revert b. induction Hs as [|c r Hc Hr IH]; intros b; simpl; [done|].
  by rewrite Hc, IH.
Qed.

Lemma sub_runs_head cls rep s c r :
  sub_runs cls rep false s = c :: r →
  ∃ d t, s = d :: t ∧ c = (if cls d then rep else d).
Proof.
  destruct s as [|d t]; [done|]. simpl. intros Hs. exists d, t. split; [done|].
  destruct (cls d); by injection Hs.
Qed.

Lemma sub_runs_true_nil cls rep s :
  sub_runs cls rep true s = [] → Forall (λ c, cls c = true) s.
Proof.
  induction s as [|x r IH]; [constructor|]. simpl.
  destruct (cls x) eqn:E; [|done]. intros Hr. constructor; auto.
Qed.

Lemma sub_runs_false_nil cls rep s : sub_runs cls rep false s = [] → s = [].
Proof. destruct s as [|x r]; [done|]. simpl. by destruct (cls x). Qed.

Lemma sub_runs_last cls rep b s c :
  last (sub_runs cls rep b s) = Some c →
  ∃ d, last s = Some d ∧ c = (if cls d then rep else d).
Proof.
  revert b. induction s as [|x r IH]; intros b; [done|].
  rewrite last_cons. simpl. destruct (cls x) eqn:E; [destruct b|].
  - intros Hl. destruct (IH _ Hl) as (d & -> & Hd). by exists d.
  - rewrite last_cons.
    destruct (last (sub_runs cls rep true r)) as [y|] eqn:El.
    + intros [= ->]. destruct (IH _ El) as (d & -> & Hd). by exists d.
    + intros [= <-]. apply last_None, sub_runs_true_nil in El.
      destruct (last r) as [d|] eqn:Er.
      * exists d. split; [done|].
        apply last_Some in Er as [l ->]. apply Forall_app in El as [_ El].
        apply Forall_inv in El. by rewrite El.
      * exists x. by rewrite E.
  - rewrite last_cons.
    destruct (last (sub_runs cls rep false r)) as [y|] eqn:El.
    + intros [= ->]. destruct (IH _ El) as (d & -> & Hd). by exists d.
    + intros [= <-]. apply last_None, sub_runs_false_nil in El. subst r.
      exists x. by rewrite E.
Qed.

Lemma is_illegal_not_space c : is_illegal c = true → isspace c = false.
Proof.
  unfold is_illegal. rewrite bool_decide_eq_true.
  rewrite !elem_of_cons, elem_of_nil.
  intros [->|[->|[->|[->|[->|[->|[->|[->|[->|[]]]]]]]]]]; reflexivity.
Qed.

Lemma length_rstrip s : length (rstrip s) ≤ length s.
Proof.
  destruct (rstrip_prefix s) as [a Ha]. rewrite Ha at 2.
  rewrite length_app. lia.
Qed.

Lemma safe_filename_clean title max_len :
  clean_name max_len (safe_filename title max_len).
Proof.
  unfold safe_filename.
  set (t1 := strip title).
  set (t2 := sub_runs is_illegal 95 false t1).
  set (t3 := sub_runs isspace 32 false t2).
  cbv zeta.
  assert (HA : Forall (λ c, is_illegal c = false) t3).
  { apply sub_runs_Forall; [|done]. by apply sub_runs_outside. }
  assert (HB : runs_norm isspace 32 false t3) by apply sub_runs_norm.
  assert (HC : ∀ c r, t3 = c :: r → isspace c = false).
  { intros c r H3. apply sub_runs_head in H3 as (d & t & H2 & ->).
    apply sub_runs_head in H2 as (e & u & H1 & ->).
    destruct (strip_ends title) as [Hh _]. specialize (Hh e u H1).
    destruct (is_illegal e); [done|]. by rewrite Hh. }
  assert (HD : ∀ c, last t3 = Some c → isspace c = false).
  { intros c H3. apply sub_runs_last in H3 as (d & H2 & ->).
    apply sub_runs_last in H2 as (e & H1 & ->).
    destruct (strip_ends title) as [_ Hl]. specialize (Hl e H1).
    destruct (is_illegal e); [done|]. by rewrite Hl. }
  destruct (max_len <? length t3) eqn:El.
  - destruct (rstrip_prefix (take max_len t3)) as [a Ha].
    assert (t3 = rstrip (take max_len t3) ++ (a ++ drop max_len t3)) as H3.
    { rewrite app_assoc, <- Ha. by rewrite take_drop. }
    repeat split.
    + etransitivity; [apply length_rstrip|]. rewrite length_take. lia.
    + rewrite H3 in HA. by apply Forall_app in HA as [? _].
    + rewrite H3 in HB. by apply runs_norm_app_l in HB.
    + intros c r Hr. rewrite Hr in H3. by eapply HC.
    + intros c. apply rstrip_last.
  - apply Nat.ltb_ge in El. by repeat split.
Qed.

Lemma clean_name_fix max_len s : clean_name max_len s → safe_filename s max_len = s.
Proof.
  intros (Hlen & HA & HB & HC & HD). unfold safe_filename.
  rewrite strip_fix by done.
  rewrite (sub_runs_outside_fix is_illegal) by done.
  rewrite sub_runs_fix by done.
  destruct (max_len <? length s) eqn:El; [|done].
  apply Nat.ltb_lt in El. lia.
Qed.

(** X26. The name returned by [safe_filename] has at most [max_len]
    characters, none of them illegal; a whitespace character in it is a
    space and is not followed by another whitespace character; and it
    has no whitespace at either end. *)
Theorem safe_filename_shape title max_len :
  length (safe_filename title max_len) ≤ max_len
  ∧ Forall (λ c, is_illegal c = false) (safe_filename title max_len)
  ∧ (∀ i c, safe_filename title max_len !! i = Some c → isspace c = true →
       c = 32%N
       ∧ ∀ d, safe_filename title max_len !! S i = Some d → isspace d = false)
  ∧ strip (safe_filename title max_len) = safe_filename title max_len.
Proof.
  destruct (safe_filename_clean title max_len) as (Hlen & HA & HB & HC & HD).
  split; [done|]. split; [done|]. split; [|by apply strip_fix].
  intros i c Hi Hc. exact (runs_norm_lookup _ _ _ _ _ _ HB Hi Hc).
Qed.

(** X27. [safe_filename] is idempotent, and the names it leaves
    unchanged are exactly the clean names: at most [max_len] characters,
    no illegal character, single spaces as only whitespace, none at
    either end. *)
Theorem safe_filename_idempotent title max_len :
  safe_filename (safe_filename title max_len) max_len
  = safe_filename title max_len
  ∧ (safe_filename title max_len = title ↔ clean_name max_len title).
Proof.
  split; [apply clean_name_fix, safe_filename_clean|]. split.
  - intros <-. apply safe_filename_clean.
  - apply clean_name_fix.
Qed.

(** X29. When no file of that name exists yet, the file the scraper
    writes for a page is read by the builder unless the sanitised title
    is [manifest] or ends with [.error]: such a page is scraped but
    never built. *)
Theorem page_file_of_title taken title pageid :
  taken (safe_filename title 160 ++ lit ".json") = false →
  page_file_name (resolve_filename_collision taken title pageid) = true
  ↔ safe_filename title 160 ≠ lit "manifest"
    ∧ ¬ lit ".error" `suffix_of` safe_filename title 160.
Proof.
  intros Hfree. unfold resolve_filename_collision. rewrite Hfree.
  rewrite page_file_name_spec. set (base := safe_filename title 160).
  change (lit "manifest.json") with (lit "manifest" ++ lit ".json").
  change (lit ".error.json") with (lit ".error" ++ lit ".json").
  split.
  - intros (_ & Hm & He). split.
    + intros Hb. apply Hm. by rewrite Hb.
    + intros Hs. apply He. by apply suffix_app.
  - intros [Hm He]. split; [by apply suffix_app_r|]. split.
    + intros Hb. apply Hm. by apply app_inv_tail in Hb.
    + intros Hs. apply He. by apply suffix_app_inv in Hs.
Qed.

Lemma page_file_of_title_witness :
  page_file_name (resolve_filename_collision (λ _, false) (lit " Anchor ")
                    (lit "7")) = true
  ↔ safe_filename (lit " Anchor ") 160 ≠ lit "manifest"
    ∧ ¬ lit ".error" `suffix_of` safe_filename (lit " Anchor ") 160.
Proof.
  apply (page_file_of_title (λ _, false) (lit " Anchor ") (lit "7")).
  reflexivity.
Defined.

(* ===================================================================== *)
(** * Texts of the scraper *)
(* ===================================================================== *)

Lemma hs_apart_weaken b s : hs_apart true s → hs_apart b s.
Proof.
  destruct s as [|c r]; [done|]. simpl. intros [Hc Hr]. split; [|done].
  intros Hh. by specialize (Hc Hh).
Qed.

Lemma hs_apart_app_r b a s : hs_apart b (a ++ s) → hs_apart false s.
Proof.
  revert b; induction a as [|c r IH]; intros b; simpl.
  - destruct s as [|c r]; [done|]. simpl. by intros [_ ?].
  - intros [_ Hr]. by eapply IH.
Qed.

Lemma hs_apart_app_l b s a : hs_apart b (s ++ a) → hs_apart b s.
Proof.
  revert b; induction s as [|c r IH]; intros b; simpl; [done|].
  intros [? Hr]. split; [done|]. by eapply IH.
Qed.

Lemma sub_hspace2_apart st s :
  hs_apart (match st with Replaced => true | _ => false end)
    (sub_hspace2_from st s).
Proof.
  revert st. induction s as [|c r IH]; intros st.
  - destruct st; simpl; by repeat split.
  - simpl. destruct (is_hspace c) eqn:E.
    + destruct st.
      * apply (IH (OneOf c)).
      * simpl. split; [done|]. apply (IH Replaced).
      * apply (IH Replaced).
    + destruct st; simpl; rewrite ?E.
      * split; [done|]. apply (IH NoRun).
      * split; [done|]. split; [done|]. apply (IH NoRun).
      * split; [done|]. apply (IH NoRun).
Qed.

Lemma hs_apart_sub_newlines s n b :
  (0 < n → b = false) → hs_apart b s → hs_apart b (sub_newlines_from n s).
Proof.
  revert n b; induction s as [|c r IH]; intros n b Hn; simpl; [done|].
  intros [Hc Hr]. destruct (is_nl c) eqn:E.
  - unfold is_nl in E. apply N.eqb_eq in E as ->. simpl in Hr.
    destruct (n <? 2) eqn:En.
    + simpl. split; [done|]. apply IH; [done|done].
    + apply Nat.ltb_ge in En. rewrite Hn by lia. apply IH; [done|done].
  - simpl. split; [done|]. apply IH; [lia|done].
Qed.

Lemma is_hspace_tab_or_space c : is_hspace c = true → tab_to_space c = 32%N.
Proof.
  unfold is_hspace, tab_to_space. intros [H|H]%orb_true_iff.
  - apply N.eqb_eq in H as ->. reflexivity.
  - by rewrite H.
Qed.

Lemma not_hspace_tab_to_space c : is_hspace c = false → tab_to_space c = c.
Proof.
  unfold is_hspace, tab_to_space. intros [_ H]%orb_false_iff. by rewrite H.
Qed.

(** On a text without adjacent spaces or tabs, the first substitution
    of [normalize_ws] only turns tabs into spaces. *)
Lemma hs_apart_sub_hspace b s :
  hs_apart b s → sub_hspace_from b s = map tab_to_space s.
Proof.
  revert b. induction s as [|c r IH]; intros b; simpl; [done|].
  intros [Hc Hr]. destruct (is_hspace c) eqn:E.
  - rewrite (Hc eq_refl), (is_hspace_tab_or_space c E). by rewrite IH.
  - rewrite (not_hspace_tab_to_space c E). by rewrite IH.
Qed.

Lemma is_nl_tab_to_space c : is_nl (tab_to_space c) = is_nl c.
Proof.
  unfold tab_to_space. destruct (c =? 9)%N eqn:E; [|done].
  apply N.eqb_eq in E as ->. reflexivity.
Qed.

Lemma isspace_tab_to_space c : isspace (tab_to_space c) = isspace c.
Proof.
  unfold tab_to_space. destruct (c =? 9)%N eqn:E; [|done].
  apply N.eqb_eq in E as ->. reflexivity.
Qed.

Lemma nl_norm_tab_to_space n s : nl_norm n s → nl_norm n (map tab_to_space s).
Proof.
  revert n. induction s as [|c r IH]; intros n; simpl; [done|].
  rewrite is_nl_tab_to_space. destruct (is_nl c).
  - intros [? Hr]. split; [done|]. by apply IH.
  - apply IH.
Qed.

Lemma tab_to_space_id s : 9%N ∉ s → map tab_to_space s = s.
Proof.
  induction s as [|c r IH]; [done|]. intros [Hc Hr]%not_elem_of_cons.
  simpl. rewrite IH by done. f_equal. unfold tab_to_space.
  destruct (c =? 9)%N eqn:E; [|done]. apply N.eqb_eq in E. congruence.
Qed.

Lemma sub_newlines_from_incl n s c : c ∈ sub_newlines_from n s → c ∈ s.
Proof.
  revert n. induction s as [|x r IH]; intros n; simpl; [done|].
  destruct (is_nl x); [destruct (n <? 2)|].
  - intros [->|Hc]%elem_of_cons; [by left|]. right. by eapply IH.
  - intros Hc. right. by eapply IH.
  - intros [->|Hc]%elem_of_cons; [by left|]. right. by eapply IH.
Qed.

Lemma strip_incl s c : c ∈ strip s → c ∈ s.
Proof.
  unfold strip. intros Hc.
  destruct (rstrip_prefix (lstrip s)) as [a Ha].
  destruct (drop_while_suffix isspace s) as [a' Ha']. fold (lstrip s) in Ha'.
  rewrite Ha', Ha. apply elem_of_app. right. apply elem_of_app. by left.
Qed.

Lemma sub_hspace2_incl st s c :
  c ∈ sub_hspace2_from st s →
  c = 32%N ∨ c ∈ s ∨ (∃ d, st = OneOf d ∧ c = d).
Proof.
  revert st. induction s as [|x r IH]; intros st.
  - destruct st; simpl; try by intros ?%elem_of_nil.
    intros ->%list_elem_of_singleton. right. right. by eexists.
  - simpl. destruct (is_hspace x).
    + destruct st.
      * intros [->|[Hc|(d & [= <-] & ->)]]%IH; auto.
        -- right. left. by right.
        -- right. left. by left.
      * intros [->|[->|[Hc|(d & [=] & _)]]%IH]%elem_of_cons; auto.
        right. left. by right.
      * intros [->|[Hc|(d & [=] & _)]]%IH; auto. right. left. by right.
    + destruct st.
      * intros [->|[->|[Hc|(d & [=] & _)]]%IH]%elem_of_cons; auto.
        -- right. left. by left.
        -- right. left. by right.
      * intros [->|[->|[->|[Hc|(d & [=] & _)]]%IH]%elem_of_cons]%elem_of_cons;
          auto.
        -- right. right. by eexists.
        -- right. left. by left.
        -- right. left. by right.
      * intros [->|[->|[Hc|(d & [=] & _)]]%IH]%elem_of_cons; auto.
        -- right. left. by left.
        -- right. left. by right.
Qed.

Section CleanText.
Variable is_digit : N → bool.

Lemma sub_citations_incl held s c :
  c ∈ sub_citations is_digit held s →
  c = 91%N ∨ c ∈ s ∨ (∃ ds, held = Some ds ∧ c ∈ ds).
Proof.
  revert held. induction s as [|x r IH]; intros held.
  - destruct held as [ds|]; simpl; [|by intros ?%elem_of_nil].
    intros [->|Hc]%elem_of_cons; [by left|]. right. right. by exists ds.
  - simpl. destruct held as [ds|].
    + destruct (is_digit x).
      * intros [->|[Hc|(ds' & [= <-] & Hc)]]%IH; auto.
        -- right. left. by right.
        -- apply elem_of_app in Hc as [Hc|Hc%list_elem_of_singleton].
           ++ right. right. by exists ds.
           ++ subst. right. left. by left.
      * destruct ((x =? 93)%N && nonempty ds).
        -- intros [->|[Hc|(ds' & [=] & _)]]%IH; auto. right. left. by right.
        -- intros [->|[Hc|Hc]%elem_of_app]%elem_of_cons; [by left| |].
           ++ right. right. by exists ds.
           ++ destruct (x =? 91)%N eqn:E.
              ** apply IH in Hc as [->|[Hc|(ds' & [= <-] & Hc)]]; auto.
                 --- right. left. by right.
                 --- by apply elem_of_nil in Hc.
              ** apply elem_of_cons in Hc as [->|Hc].
                 --- right. left. by left.
                 --- apply IH in Hc as [->|[Hc|(ds' & [=] & _)]]; auto.
                     right. left. by right.
    + destruct (x =? 91)%N eqn:E.
      * intros [->|[Hc|(ds' & [= <-] & Hc)]]%IH; auto.
        -- right. left. by right.
        -- by apply elem_of_nil in Hc.
      * intros [->|[->|[Hc|(ds' & [=] & _)]]%IH]%elem_of_cons; auto.
        -- right. left. by left.
        -- right. left. by right.
Qed.

Lemma clean_text_normal s :
  let p := clean_text is_digit s in
  hs_apart false p ∧ nl_norm 0 p
  ∧ (∀ c r, p = c :: r → isspace c = false)
  ∧ (∀ c, last p = Some c → isspace c = false).
Proof.
  intros p. unfold clean_text, strip in p.
  set (u := sub_newlines (sub_hspace2 (sub_citations is_digit None s))) in p.
  assert (Hu1 : hs_apart false u).
  { apply hs_apart_sub_newlines; [lia|]. apply (sub_hspace2_apart NoRun). }
  assert (Hu2 : nl_norm 0 u) by apply (nl_norm_sub _ 0).
  destruct (drop_while_suffix isspace u) as [a Ha]. fold (lstrip u) in Ha.
  destruct (rstrip_prefix (lstrip u)) as [a' Ha']. fold p in Ha'.
  rewrite Ha in Hu1, Hu2.
  apply hs_apart_app_r in Hu1. apply nl_norm_app_r in Hu2.
  rewrite Ha' in Hu1, Hu2.
  apply hs_apart_app_l in Hu1. apply nl_norm_app_l in Hu2.
  repeat split; [done|done| |].
  - intros c r Hp. rewrite Hp in Ha'. simpl in Ha'.
    by eapply (drop_while_head isspace u).
  - intros c. apply rstrip_last.
Qed.

Lemma clean_text_no_tab s : 9%N ∉ s → 9%N ∉ clean_text is_digit s.
Proof.
  intros Hs Hc. unfold clean_text in Hc.
  apply strip_incl, sub_newlines_from_incl, sub_hspace2_incl in Hc
    as [Hc|[Hc|(d & [=] & _)]]; [done|].
  apply sub_citations_incl in Hc as [Hc|[Hc|(ds & [=] & _)]]; done.
Qed.

(** X28. The builder's [normalize_ws] has almost nothing to do on a
    text cleaned by the scraper's [clean_text]: it only turns the tabs
    that [clean_text] left (those standing alone) into spaces. On a
    text without tab it changes nothing, so the text of a block is
    stored as it was scraped. *)
Theorem normalize_ws_after_clean_text s :
  normalize_ws (clean_text is_digit s)
  = map tab_to_space (clean_text is_digit s)
  ∧ (9%N ∉ s → normalize_ws (clean_text is_digit s) = clean_text is_digit s).
Proof.
  destruct (clean_text_normal s) as (H1 & H2 & Hh & Hl). simpl in *.
  assert (normalize_ws (clean_text is_digit s)
          = map tab_to_space (clean_text is_digit s)) as Hn.
  { unfold normalize_ws, sub_hspace, sub_newlines.
    rewrite hs_apart_sub_hspace by done.
    rewrite nl_norm_fix by (by apply nl_norm_tab_to_space).
    apply strip_fix.
    - intros c r Hm. destruct (clean_text is_digit s) as [|d t]; [done|].
      injection Hm as <- _. rewrite isspace_tab_to_space. by eapply Hh.
    - intros c Hm. rewrite fmap_last in Hm.
      destruct (last (clean_text is_digit s)) as [d|]; [|done].
      injection Hm as <-. rewrite isspace_tab_to_space. by apply Hl. }
  split; [done|]. intros Hs. rewrite Hn.
  by apply tab_to_space_id, clean_text_no_tab.
Qed.

End CleanText.

(* ===================================================================== *)
(** * Chunk identifiers *)
(* ===================================================================== *)

Lemma ids_good_same s0 s s' :
  chunk_tbl s' = chunk_tbl s → chunk_seq s' = chunk_seq s →
  ids_good s0 s → ids_good s0 s'.
Proof.
  unfold ids_good, ids_fresh, only_new_ids. by intros -> ->.
Qed.

Lemma NoDup_map_filter {A B} (g : A → B) (f : A → bool) l :
  NoDup (map g l) → NoDup (map g (List.filter f l)).
Proof.
  induction l as [|x l IH]; simpl; [done|]. intros [Hx Hl]%NoDup_cons.
  destruct (f x); [|auto]. simpl. apply NoDup_cons. split; [|auto].
  intros Hin. apply Hx. apply list_elem_of_fmap in Hin as (y & -> & Hy).
  apply list_elem_of_fmap. exists y. split; [done|].
  apply list_elem_of_In. apply list_elem_of_In, filter_In in Hy. apply Hy.
Qed.

Lemma ids_good_delete s0 s s' f :
  chunk_tbl s' = List.filter f (chunk_tbl s) → chunk_seq s' = chunk_seq s →
  ids_good s0 s → ids_good s0 s'.
Proof.
  unfold ids_good, ids_fresh, only_new_ids.
  intros -> -> ((Hle & Hnd) & Hseq & Hrows). repeat split; [| |done|].
  - apply Forall_forall. intros r Hr. apply list_elem_of_In, filter_In in Hr.
    eapply Forall_forall in Hle; [exact Hle|]. apply list_elem_of_In, Hr.
  - by apply NoDup_map_filter.
  - intros r Hr. apply Hrows. apply list_elem_of_In.
    apply list_elem_of_In, filter_In in Hr. apply Hr.
Qed.

Lemma ids_good_insert s0 s s' row :
  chunk_tbl s' = chunk_tbl s ++ [row] →
  chunk_seq s' = (chunk_seq s + 1)%Z → chunk_id row = (chunk_seq s + 1)%Z →
  ids_good s0 s → ids_good s0 s'.
Proof.
  unfold ids_good, ids_fresh, only_new_ids.
  intros -> -> Hid ((Hle & Hnd) & Hseq & Hrows). repeat split.
  - apply Forall_app. split.
    + eapply Forall_impl; [exact Hle|]. simpl. intros r Hr. lia.
    + constructor; [lia|constructor].
  - rewrite map_app. simpl. apply NoDup_app. split; [done|]. split.
    + intros x Hx ->%list_elem_of_singleton.
      apply list_elem_of_fmap in Hx as (r & Hr & Hin).
      eapply Forall_forall in Hle; [|exact Hin]. simpl in Hle. lia.
    + apply NoDup_singleton.
  - lia.
  - intros r [Hr| ->%list_elem_of_singleton]%elem_of_app.
    + by apply Hrows.
    + right. lia.
Qed.

Ltac ids_op :=
  let w := fresh "w" in
  let Hg := fresh "Hg" in
  let Hs := fresh "Hs" in
  intros w (Hg & Hs); unfold_m; simpl;
  repeat (case_match; simplify_eq/=);
  unfold ids_kept; simpl;
  (split;
   [try done; try (eapply ids_good_same; [| |exact Hg]; done)
   |try done;
    try (let s' := fresh "s" in
         let Hs' := fresh "Hs" in
         intros s' Hs'; simplify_eq/=; eauto)]).

Lemma ids_get_existing_page s0 page_id :
  hoare (ids_kept s0) (get_existing_page page_id)
    (λ _, ids_kept s0) (ids_kept s0).
Proof. unfold get_existing_page. ids_op. Qed.

Lemma ids_begin_immediate s0 :
  hoare (ids_kept s0) begin_immediate (λ _, ids_kept s0) (ids_kept s0).
Proof. unfold begin_immediate. ids_op. Qed.

Lemma ids_commit s0 :
  hoare (ids_kept s0) commit (λ _, ids_kept s0) (ids_kept s0).
Proof. unfold commit. ids_op. Qed.

Lemma ids_upsert_page s0 page_id title revid :
  hoare (ids_kept s0) (upsert_page page_id title revid)
    (λ _, ids_kept s0) (ids_kept s0).
Proof. unfold upsert_page. ids_op. Qed.

Lemma ids_delete_page_children s0 page_id :
  hoare (ids_kept s0) (delete_page_children page_id)
    (λ _, ids_kept s0) (ids_kept s0).
Proof.
  unfold delete_page_children. ids_op.
  all: eapply ids_good_delete; [| |exact Hg]; done.
Qed.

Lemma ids_insert_chunk s0 page_id c :
  hoare (ids_kept s0) (insert_chunk page_id c) (λ _, ids_kept s0) (ids_kept s0).
Proof.
  destruct c as [[[ci sec] bt] txt]. unfold insert_chunk. ids_op.
  all: eapply ids_good_insert; [| | |exact Hg]; done.
Qed.

Lemma ids_insert_chunks_from s0 page_id cs ids :
  hoare (ids_kept s0) (insert_chunks_from page_id cs ids)
    (λ _, ids_kept s0) (ids_kept s0).
Proof.
  revert ids. induction cs as [|c cs IH]; intros ids; [by intros w Hw|].
  cbn [insert_chunks_from]. eapply hoare_bind; [apply ids_insert_chunk|].
  intros id. apply IH.
Qed.

Lemma ids_ensure_model_row s0 name dim metric :
  hoare (ids_kept s0) (ensure_model_row name dim metric)
    (λ _, ids_kept s0) (ids_kept s0).
Proof. unfold ensure_model_row. ids_op. Qed.

Lemma ids_upsert_embedding `{Platform} s0 row :
  hoare (ids_kept s0) (upsert_embedding row) (λ _, ids_kept s0) (ids_kept s0).
Proof.
  destruct row as [[[cid mid] vec] norm]. unfold upsert_embedding. ids_op.
Qed.

Lemma ids_executemany {A} s0 (stmt : A → M unit) l :
  (∀ a, hoare (ids_kept s0) (stmt a) (λ _, ids_kept s0) (ids_kept s0)) →
  hoare (ids_kept s0) (executemany stmt l) (λ _, ids_kept s0) (ids_kept s0).
Proof.
  intros Hs. induction l as [|a l IH]; [by intros w Hw|].
  cbn [executemany]. eapply hoare_bind; [apply Hs|]. intros ?. apply IH.
Qed.

Lemma ids_implicit_begin s0 :
  hoare (ids_kept s0) implicit_begin (λ _, ids_kept s0) (ids_kept s0).
Proof. ids_op. Qed.

Lemma ids_insert_embeddings `{Platform} s0 model_id chunk_ids vectors :
  hoare (ids_kept s0) (insert_embeddings model_id chunk_ids vectors)
    (λ _, ids_kept s0) (ids_kept s0).
Proof.
  unfold insert_embeddings. eapply hoare_bind.
  - apply ids_implicit_begin.
  - intros ?. apply ids_executemany. intros row. apply ids_upsert_embedding.
Qed.

Lemma ids_embed_texts s0 P texts model :
  hoare (ids_kept s0) (embed_texts P texts model)
    (λ _, ids_kept s0) (ids_kept s0).
Proof.
  assert (∀ w w', db w' = db w → tx w' = tx w → ids_kept s0 w → ids_kept s0 w')
    as Hsame.
  { intros w w' Hd Ht [Hg Hs]. split; rewrite ?Hd, ?Ht; done. }
  intros w Hw. unfold embed_texts. unfold bind at 1.
  pose proof (embed_batches_frame P texts model 32
                (range_step (length texts) 32) [] w) as Hf.
  destruct (embed_batches _ _ _ _ _ _ _) as [w' [vs|e]];
    destruct Hf as (Hd & Ht & _).
  - unfold lift. destruct (vstack vs); by apply (Hsame w).
  - by apply (Hsame w).
Qed.

Lemma ids_rollback s0 w : ids_kept s0 w → ids_kept s0 (rollback w).1.
Proof.
  intros (Hg & Hs). unfold rollback.
  destruct (tx w) as [s|] eqn:E; simpl.
  - split; [by apply Hs|done].
  - split; [done|]. intros s1 Hs1. congruence.
Qed.

Section FreshIds.
Context `{Platform}.
Variables (do_embed : bool) (model_name : str) (P : provider).

Lemma ids_process_page s0 f :
  hoare (ids_kept s0) (process_page do_embed model_name P f)
    (λ _, ids_kept s0) (ids_kept s0).
Proof.
  unfold process_page.
  eapply hoare_bind; [apply hoare_keep_lift|]. intros page.
  eapply hoare_bind; [apply hoare_keep_lift|]. intros [[page_id title] revid].
  eapply hoare_bind; [apply ids_get_existing_page|]. intros existing.
  destruct (match existing with
            | Some (_, _, stored) => (stored =? revid)%Z
            | None => false
            end); [apply hoare_keep_ret|].
  eapply hoare_bind; [apply ids_begin_immediate|]. intros ?.
  eapply hoare_bind; [apply ids_upsert_page|]. intros ?.
  eapply hoare_bind; [apply ids_delete_page_children|]. intros ?.
  eapply hoare_bind; [apply hoare_keep_lift|]. intros blocks.
  eapply hoare_bind; [apply ids_insert_chunks_from|]. intros ids.
  eapply hoare_bind.
  - destruct do_embed; [|apply hoare_keep_ret].
    eapply hoare_bind; [apply ids_embed_texts|]. intros [dim vectors].
    eapply hoare_bind; [apply ids_ensure_model_row|]. intros mid.
    apply ids_insert_embeddings.
  - intros ?. eapply hoare_bind; [apply ids_commit|]. intros ?.
    apply hoare_keep_ret.
Qed.

Lemma ids_page_iteration s0 f w c :
  ids_kept s0 w →
  ids_kept s0 (page_iteration do_embed model_name P w c f).1.1.
Proof.
  intros Hq. unfold page_iteration.
  pose proof (ids_process_page s0 f w Hq) as Hp.
  destruct (process_page do_embed model_name P f w) as [w1 [[]|e]]; [done..|].
  pose proof (ids_rollback s0 w1 Hp) as Hr.
  by destruct (rollback w1) as [w2 [[]|e']].
Qed.

Lemma ids_run_pages s0 files w c :
  ids_kept s0 w →
  ids_kept s0 (run_pages do_embed model_name P files w c).1.1.
Proof.
  revert w c. induction files as [|f rest IH]; intros w c Hq; [done|].
  rewrite run_pages_cons.
  pose proof (ids_page_iteration s0 f w c Hq) as Hi.
  destruct (page_iteration do_embed model_name P w c f) as [[w1 c1] [e|]];
    [done|]. by apply IH.
Qed.

(** X30. Chunk identifiers are never reused: started on a store whose
    identifiers are distinct and within the AUTOINCREMENT counter, a run
    leaves such a store, the counter never goes back, and every chunk
    row of the new store is a row of the old store or carries an
    identifier the old store had never given out. A rebuilt page
    therefore never takes over the identifier of a deleted chunk. *)
Theorem chunk_ids_never_reused folder s :
  ids_fresh s →
  ids_fresh (build_database do_embed model_name P folder s).1
  ∧ (chunk_seq s ≤ chunk_seq (build_database do_embed model_name P folder s).1)%Z
  ∧ ∀ r, r ∈ chunk_tbl (build_database do_embed model_name P folder s).1 →
         r ∈ chunk_tbl s ∨ (chunk_seq s < chunk_id r)%Z.
Proof.
  intros Hf.
  assert (Hg : ids_good s s).
  { split; [done|]. split; [lia|]. intros r Hr. by left. }
  assert (Hq : ids_kept s (connect_db s)) by (split; [done|done]).
  assert (ids_good s (build_database do_embed model_name P folder s).1) as Hb.
  { unfold build_database.
    destruct (iter_page_json_files folder) as [|f rest]; [done|].
    pose proof (ids_run_pages s (f :: rest) (connect_db s)
                  (mkCounters 0 0 []) Hq) as [Hd Hs].
    destruct (run_pages do_embed model_name P (f :: rest) (connect_db s)
                (mkCounters 0 0 [])) as [[w' c'] r]. simpl in *.
    assert (ids_good s (committed w')) as Hc.
    { unfold committed. destruct (tx w') as [s0|]; [by apply Hs|done]. }
    by destruct r. }
  destruct Hb as (Hfresh & Hseq & Hrows). done.
Qed.

End FreshIds.

Lemma chunk_ids_never_reused_witness :
  let s := (build_database (H := example_platform) false (lit "bge-m3")
              no_provider [anchor_file] empty_store).1 in
  let s' := (build_database (H := example_platform) false (lit "bge-m3")
               no_provider stale_folder s).1 in
  ids_fresh s'
  ∧ (chunk_seq s ≤ chunk_seq s')%Z
  ∧ ∀ r, r ∈ chunk_tbl s' → r ∈ chunk_tbl s ∨ (chunk_seq s < chunk_id r)%Z.
Proof.
  intros s s'.
  apply (chunk_ids_never_reused (H := example_platform) false (lit "bge-m3")
           no_provider stale_folder s).
  split.
  - vm_compute. repeat constructor. discriminate.
  - vm_compute. apply NoDup_singleton.
Defined.

(* ===================================================================== *)
(** * The post-pass, group by group *)
(* ===================================================================== *)

Lemma group_text_snoc h ts c :
  group_text (h, ts ++ [c]) = join_short (group_text (h, ts)) (chunk_text c).
Proof. unfold group_text. simpl. by rewrite map_app, fold_left_app. Qed.

Lemma length_join_short acc t :
  length (join_short acc t) ≤ length acc + (2 + length t).
Proof.
  unfold join_short. etransitivity; [apply length_normalize_ws|].
  rewrite !length_app. simpl. lia.
Qed.

Lemma length_group_text g :
  length (group_text g) ≤ length (chunk_text g.1) + joined_size g.
Proof.
  destruct g as [h ts]. unfold joined_size. cbn [fst snd].
  induction ts as [|c ts IH] using rev_ind; [unfold group_text; simpl; lia|].
  rewrite group_text_snoc, map_app, list_sum_app. cbn [map].
  replace (list_sum [2 + length (chunk_text c)])
    with (2 + length (chunk_text c)) by (simpl; lia).
  etransitivity; [apply length_join_short|]. lia.
Qed.

Lemma joined_size_short g :
  Forall short g.2 → joined_size g ≤ (MIN_CHARS_PER_CHUNK + 1) * length g.2.
Proof.
  unfold joined_size. destruct g as [h ts]. cbn [snd].
  induction 1 as [|c ts [_ Hc] _ IH]; [simpl; lia|].
  cbn [map length].
  change (list_sum (2 + length (chunk_text c)
                    :: map (λ c, 2 + length (chunk_text c)) ts))
    with (2 + length (chunk_text c)
          + list_sum (map (λ c, 2 + length (chunk_text c)) ts)).
  unfold MIN_CHARS_PER_CHUNK in *. lia.
Qed.

Lemma merge_step_groups m gs c :
  Forall2 (λ x g, x = merged_of g) m gs →
  chunk_text c ≠ [] →
  Forall (λ g, Forall short g.2) gs →
  ∃ gs', Forall2 (λ x g, x = merged_of g) (merge_step m c) gs'
         ∧ concat (map group_chunks gs') = concat (map group_chunks gs) ++ [c]
         ∧ Forall (λ g, Forall short g.2) gs'.
Proof.
  intros Hm Hc Hs. destruct m as [|p m _] using rev_ind.
  - apply Forall2_nil_inv_l in Hm as ->. rewrite merge_step_nil.
    exists [(c, [])]. split; [|split].
    + constructor; [|constructor]. by destruct c as [[[ci sec] bt] txt].
    + done.
    + by repeat constructor.
  - apply Forall2_app_inv_l in Hm as (gs0 & gl & Hm0 & Hp & ->).
    apply Forall2_cons_inv_l in Hp as (g & gl' & Hp & Hnil & ->).
    apply Forall2_nil_inv_l in Hnil as ->.
    apply Forall_app in Hs as [Hs0 Hsg]. apply Forall_inv in Hsg.
    rewrite merge_step_snoc.
    destruct (length (chunk_text c) <? MIN_CHARS_PER_CHUNK) eqn:E.
    + apply Nat.ltb_lt in E. exists (gs0 ++ [(g.1, g.2 ++ [c])]).
      split; [|split].
      * apply Forall2_app; [done|]. constructor; [|constructor].
        unfold merged_of. simpl. rewrite group_text_snoc.
        rewrite Hp. unfold merged_of, join_short, chunk_index, chunk_section,
          chunk_kind, chunk_text. simpl. by destruct g.
      * rewrite !map_app, !concat_app. simpl. rewrite !app_nil_r.
        unfold group_chunks. simpl. by rewrite <- app_assoc.
      * apply Forall_app. split; [done|]. constructor; [|constructor].
        simpl. apply Forall_app. split; [done|]. constructor; [|constructor].
        split; [|done]. destruct (chunk_text c); [done|simpl; lia].
    + exists ((gs0 ++ [g]) ++ [(c, [])]). split; [|split].
      * rewrite app_assoc. apply Forall2_app.
        -- apply Forall2_app; [done|]. by constructor.
        -- constructor; [|constructor]. by destruct c as [[[ci sec] bt] txt].
      * by rewrite (map_app _ (gs0 ++ [g])), concat_app.
      * apply Forall_app. split.
        -- apply Forall_app. split; [done|]. by constructor.
        -- by repeat constructor.
Qed.

Lemma merge_small_groups cs :
  Forall (λ c, chunk_text c ≠ []) cs →
  ∃ gs, Forall2 (λ x g, x = merged_of g) (merge_small cs) gs
        ∧ concat (map group_chunks gs) = cs
        ∧ Forall (λ g, Forall short g.2) gs.
Proof.
  unfold merge_small.
  assert (∀ m gs, Forall (λ c, chunk_text c ≠ []) cs →
            Forall2 (λ x g, x = merged_of g) m gs →
            Forall (λ g, Forall short g.2) gs →
            ∃ gs', Forall2 (λ x g, x = merged_of g) (fold_left merge_step cs m) gs'
                   ∧ concat (map group_chunks gs')
                     = concat (map group_chunks gs) ++ cs
                   ∧ Forall (λ g, Forall short g.2) gs') as H.
  { induction cs as [|c cs IH]; intros m gs Hcs Hm Hs.
    - exists gs. by rewrite app_nil_r.
    - apply Forall_cons in Hcs as [Hc Hcs]. simpl.
      destruct (merge_step_groups m gs c Hm Hc Hs) as (gs1 & Hm1 & Hc1 & Hs1).
      destruct (IH _ gs1 Hcs Hm1 Hs1) as (gs2 & Hm2 & Hc2 & Hs2).
      exists gs2. split; [done|]. split; [|done].
      by rewrite Hc2, Hc1, <- app_assoc. }
  intros Hcs. destruct (H [] [] Hcs) as (gs & Hm & Hc & Hs);
    [constructor|constructor|]. by exists gs.
Qed.

Lemma Forall2_imap {A B C} (R : A → C → Prop) (R' : B → C → Prop)
    (f : nat → A → B) l gs :
  Forall2 R l gs → (∀ i x g, R x g → R' (f i x) g) →
  Forall2 R' (imap f l) gs.
Proof.
  intros Hl. revert f. induction Hl as [|x g l gs Hx Hl IH]; intros f Hf;
    [constructor|].
  rewrite imap_cons. constructor; [by apply Hf|]. apply IH.
  intros i. apply Hf.
Qed.

(** The returned list, group by group: the chunks of the packing loop
    are cut into groups, each a chunk followed by the short chunks
    joined onto it, and each group gives one returned chunk. *)
Lemma chunk_blocks_groups blocks :
  ∃ groups,
    pack_blocks blocks = concat (map group_chunks groups)
    ∧ Forall2 merged_as (chunk_blocks blocks) groups
    ∧ Forall (λ g, Forall short g.2) groups.
Proof.
  destruct (merge_small_groups (pack_blocks blocks)) as (gs & Hm & Hc & Hs).
  { eapply Forall_impl; [apply pack_blocks_tidy|]. by intros c [Hne _]. }
  exists gs. split; [done|]. split; [|done].
  unfold chunk_blocks, reindex. eapply Forall2_imap; [exact Hm|].
  intros i x g ->. by repeat split.
Qed.

Lemma group_head_in groups g (cs : list chunk) :
  cs = concat (map group_chunks groups) → g ∈ groups → g.1 ∈ cs.
Proof.
  intros -> Hg. apply list_elem_of_In, in_concat. exists (group_chunks g).
  split; [by apply in_map, list_elem_of_In|]. by left.
Qed.

(** C1 (amended). Every chunk built by the packing loop and its final
    flush, slices of an oversized block included, has at most
    [MAX_CHARS_PER_CHUNK] characters. The returned list is this list
    cut into groups, each a chunk of the loop followed by the chunks
    the post-pass joined onto it, all of them not empty and shorter
    than [MIN_CHARS_PER_CHUNK]; a returned chunk carries the text of its
    group. It exceeds the maximum only when its group has a joined
    chunk, and then by at most the joined texts and their separators:
    [MIN_CHARS_PER_CHUNK + 1] characters for each. *)
Theorem size_bound_before_merge blocks :
  Forall within_max (pack_blocks blocks)
  ∧ ∃ groups,
      pack_blocks blocks = concat (map group_chunks groups)
      ∧ Forall2 merged_as (chunk_blocks blocks) groups
      ∧ Forall (λ g, Forall short g.2) groups
      ∧ Forall2 (λ c g,
          length (chunk_text c) ≤ length (chunk_text g.1) + joined_size g
          ∧ length (chunk_text c)
            ≤ MAX_CHARS_PER_CHUNK + (MIN_CHARS_PER_CHUNK + 1) * length g.2
          ∧ (MAX_CHARS_PER_CHUNK < length (chunk_text c) → g.2 ≠ []))
          (chunk_blocks blocks) groups.
Proof.
  split; [apply pack_blocks_within|].
  destruct (chunk_blocks_groups blocks) as (gs & Hc & Hm & Hs).
  exists gs. split; [done|]. split; [done|]. split; [done|].
  assert (Hin : ∀ g, g ∈ gs → within_max g.1 ∧ Forall short g.2).
  { intros g Hg. split.
    - pose proof (pack_blocks_within blocks) as Hw.
      eapply Forall_forall in Hw; [exact Hw|]. by eapply group_head_in.
    - eapply Forall_forall in Hs; [exact Hs|done]. }
  clear Hc Hs. induction Hm as [|c g cs gs Hcg Hm IH]; [constructor|].
  constructor.
  - destruct (Hin g) as [Hw Hsh]; [by left|].
    destruct Hcg as (_ & _ & Ht). rewrite Ht.
    pose proof (length_group_text g) as Hl.
    pose proof (joined_size_short g Hsh) as Hj.
    unfold within_max in Hw. split; [done|]. split; [lia|].
    intros Hlong Hnil. unfold joined_size in Hl. rewrite Hnil in Hl.
    simpl in Hl. lia.
  - apply IH. intros g' Hg'. apply Hin. by right.
Qed.

(* ===================================================================== *)
(** * The first block of a buffer *)
(* ===================================================================== *)

Lemma flush_origin blocks n st i b :
  Forall (origin blocks) (chunks st) → n ≤ length blocks →
  blocks !! i = Some b →
  buf_texts st = map text (take (n - i) (drop i blocks)) →
  buf_section st = Some (section b) → buf_type st = Some (block_type b) →
  Forall (origin blocks) (chunks (flush st)).
Proof.
  intros Hc Hn Hi Hbuf Hsec Hty. unfold flush.
  destruct (buf_texts st) as [|t r] eqn:E; [done|]. simpl.
  destruct (nonempty _); [|done].
  apply Forall_app. split; [done|]. constructor; [|done].
  assert (n - i ≠ 0) as Hk.
  { intros Hz. rewrite Hz in Hbuf. by rewrite take_0 in Hbuf. }
  apply (from_buffer blocks _ i (n - i - 1) b); [done|lia| | |].
  - unfold chunk_text. simpl. rewrite Hbuf.
    by replace (S (n - i - 1)) with (n - i) by lia.
  - unfold chunk_section. simpl. by rewrite Hsec.
  - unfold chunk_kind. simpl. by rewrite Hty.
Qed.

Lemma flush_origin_inv blocks n st :
  n ≤ length blocks → origin_inv blocks n st →
  Forall (origin blocks) (chunks (flush st)).
Proof.
  intros Hn [Hc Hb]. destruct (buf_texts st) as [|t r] eqn:E.
  - unfold flush. by rewrite E.
  - destruct Hb as (i & b & Hi & Hl & Hbuf & Hsec & Hty); [by rewrite ?E|].
    eapply flush_origin; [done|done|done| |done|done]. by rewrite E.
Qed.

Lemma take_one_more (blocks : list Block) n i blk :
  i ≤ n → blocks !! n = Some blk →
  take (S n - i) (drop i blocks) = take (n - i) (drop i blocks) ++ [blk].
Proof.
  intros Hi Hn. replace (S n - i) with (S (n - i)) by lia.
  apply take_S_r. rewrite lookup_drop. by replace (i + (n - i)) with n by lia.
Qed.

Lemma chunk_step_origin blocks n st blk :
  blocks !! n = Some blk → origin_inv blocks n st →
  origin_inv blocks (S n) (chunk_step st blk).
Proof.
  intros Hblk Hinv. pose proof (lookup_lt_Some _ _ _ Hblk) as Hlt.
  unfold chunk_step.
  set (st1 := match buf_texts st with
              | [] => _ | _ :: _ => _ end).
  assert (H1 : Forall (origin blocks) (chunks st1)
               ∧ ∃ i b, i ≤ n ∧ blocks !! i = Some b
                   ∧ buf_texts st1 = map text (take (n - i) (drop i blocks))
                   ∧ buf_section st1 = Some (section b)
                   ∧ buf_type st1 = Some (block_type b)).
  { subst st1. destruct Hinv as [Hc Hb].
    destruct (buf_texts st) as [|t r] eqn:E.
    - split; [done|]. exists n, blk. simpl.
      rewrite Nat.sub_diag, take_0. by repeat split.
    - split; [done|].
      destruct Hb as (i & b & Hi & Hl & Hbuf & Hsec & Hty); [by rewrite ?E|].
      exists i, b. repeat split; [lia|done| |done|done]. by rewrite E. }
  clearbody st1. clear st Hinv.
  destruct H1 as (Hc & i & b & Hi & Hl & Hbuf & Hsec & Hty).
  destruct (length (normalize_ws _) <=? MAX_CHARS_PER_CHUNK).
  - split; [done|]. intros _. exists i, b. simpl.
    repeat split; [lia|done| |done|done].
    rewrite (take_one_more blocks n i blk) by done.
    by rewrite map_app, Hbuf.
  - assert (Hf : Forall (origin blocks) (chunks (flush st1))).
    { eapply (flush_origin blocks n st1 i b); [done|lia|done|done|done|done]. }
    destruct (MAX_CHARS_PER_CHUNK <? length (text blk)) eqn:Eo.
    + apply Nat.ltb_lt in Eo. split; simpl; [|by rewrite buf_texts_flush].
      apply split_block_invariant; [|done]. intros cs start Hcs.
      apply Forall_app. split; [done|]. constructor; [|done].
      by apply (from_slice blocks _ n blk start).
    + split; simpl; [done|]. intros _. exists n, blk.
      repeat split; [lia|done|].
      replace (S n - n) with 1 by lia.
      rewrite (drop_S _ _ _ Hblk). simpl. by destruct (drop (S n) blocks).
Qed.

Lemma pack_blocks_origin blocks : Forall (origin blocks) (pack_blocks blocks).
Proof.
  unfold pack_blocks.
  assert (∀ todo done st, blocks = done ++ todo →
            origin_inv blocks (length done) st →
            origin_inv blocks (length blocks) (fold_left chunk_step todo st))
    as H.
  { induction todo as [|blk todo IH]; intros done st Hb Hst.
    - rewrite app_nil_r in Hb. subst done. exact Hst.
    - simpl. apply (IH (done ++ [blk])).
      + by rewrite <- app_assoc.
      + rewrite length_app, Nat.add_1_r. apply chunk_step_origin; [|done].
        rewrite Hb. by apply list_lookup_middle. }
  apply (flush_origin_inv blocks (length blocks)); [done|].
  apply (H blocks []); [done|]. split; [constructor|done].
Qed.

(** C7 (amended). A chunk records the section and kind of one single
    input block, ["mixed"] and ["Intro"] standing in only for an empty
    label. For a chunk of the packing loop that block is the first one
    placed in the chunk's buffer — the text of the chunk is the
    normalised join of that block and of the blocks after it that the
    buffer took — or the oversized block the chunk is a slice of. A
    returned chunk carries the labels of the first chunk of its group:
    the chunks joined onto it by the post-pass do not count. In
    particular blocks that are packed into one buffer, whatever their
    kinds, come back as one chunk with the section and kind of the first
    block, not with ["mixed"]. *)
Theorem kind_of_first_block blocks :
  Forall (origin blocks) (pack_blocks blocks)
  ∧ (∃ groups,
       pack_blocks blocks = concat (map group_chunks groups)
       ∧ Forall2 merged_as (chunk_blocks blocks) groups
       ∧ Forall (λ g, origin blocks g.1) groups)
  ∧ Forall (kind_of_a_block blocks) (chunk_blocks blocks)
  ∧ ∀ b rest,
      blocks = b :: rest →
      all_prefixes_fit (map text blocks) = true →
      nonempty (normalize_ws (join JOINER (map text blocks))) = true →
      chunk_blocks blocks =
        [(0, or_str (Some (section b)) (lit "Intro"),
             or_str (Some (block_type b)) (lit "mixed"),
             normalize_ws (join JOINER (map text blocks)))].
Proof.
  split; [apply pack_blocks_origin|]. split; [|split].
  - destruct (chunk_blocks_groups blocks) as (gs & Hc & Hm & _).
    exists gs. split; [done|]. split; [done|].
    apply Forall_forall. intros g Hg.
    pose proof (pack_blocks_origin blocks) as Ho.
    eapply Forall_forall in Ho; [exact Ho|]. by eapply group_head_in.
  - apply chunk_blocks_kinds.
  - intros b rest -> Hfit Hne. by apply one_buffer_one_chunk.
Qed.

Lemma kind_of_first_block_witness :
  chunk_blocks two_kinds =
    [(0, lit "Intro", lit "p",
      normalize_ws (join JOINER (map text two_kinds)))].
Proof.
  apply (proj2 (proj2 (proj2 (kind_of_first_block two_kinds)))
           (block_of "p" 3 97%N) [block_of "list" 3 98%N]);
    vm_compute; reflexivity.
Defined.
